(** * B-tree of CodeWithHitesh/B-Tree-Python: model and verification

    The repository holds two copies of one B-tree: the package
    [src/btree/__init__.py] and the script [src/main.py].  Both define a
    class [BTreeNode] (keys, min_degree, children, is_leaf) and a class
    [BTree] (root, min_degree).  Every method that mutates its receiver is
    modelled as a function that returns the receiver's new value; a call on
    [self.children[i]] reads the child, runs the method and stores the result
    back in slot [i].  A Python exception is the outcome [Raise]. *)

From Stdlib Require Import ZArith List Bool Lia Sorting.Sorted Permutation.
Import ListNotations.
Open Scope Z_scope.

(** ** Outcomes of a call *)

Inductive exn : Type := ValueError | IndexError.

(** [OutOfFuel] is not a Python outcome: recursive methods are defined with a
    fuel argument and the wrappers pass the height of the receiver; the
    specifications below show that every call on a tree the class can reach
    ends in [Ret]. *)
Inductive result (A : Type) : Type :=
| Ret (a : A)
| Raise (e : exn)
| OutOfFuel.

Arguments Ret {A} a.
Arguments Raise {A} e.
Arguments OutOfFuel {A}.

Definition bind {A B : Type} (c : result A) (k : A -> result B) : result B :=
  match c with
  | Ret a => k a
  | Raise e => Raise e
  | OutOfFuel => OutOfFuel
  end.

Notation "x <- c ;; k" := (bind c (fun x => k))
  (at level 61, c at next level, right associativity).
Notation "' p <- c ;; k" := (bind c (fun x => let 'p := x in k))
  (at level 61, p pattern, c at next level, right associativity).

(** ** Python list operations

    Indices are Python integers: a negative index counts from the end,
    [l[i]], [l[i] = x] and [l.pop(i)] raise IndexError out of range, slices
    and [l.insert] clamp their bounds. *)

Module Py.
Section ListOps.
Context {A : Type}.

Definition len (l : list A) : Z := Z.of_nat (length l).

Definition norm (l : list A) (i : Z) : Z :=
  if i <? 0 then i + len l else i.

Definition in_range (l : list A) (j : Z) : bool :=
  (0 <=? j) && (j <? len l).

Definition getitem (l : list A) (i : Z) : result A :=
  let j := norm l i in
  if in_range l j then
    match nth_error l (Z.to_nat j) with
    | Some x => Ret x
    | None => Raise IndexError
    end
  else Raise IndexError.

Definition setitem (l : list A) (i : Z) (x : A) : result (list A) :=
  let j := norm l i in
  if in_range l j then
    Ret (firstn (Z.to_nat j) l ++ x :: skipn (S (Z.to_nat j)) l)
  else Raise IndexError.

Definition pop (l : list A) (i : Z) : result (A * list A) :=
  let j := norm l i in
  if in_range l j then
    match nth_error l (Z.to_nat j) with
    | Some x => Ret (x, firstn (Z.to_nat j) l ++ skipn (S (Z.to_nat j)) l)
    | None => Raise IndexError
    end
  else Raise IndexError.

Definition clamp (l : list A) (i : Z) : nat :=
  Z.to_nat (Z.min (len l) (Z.max 0 (norm l i))).

(** [l[i:]] *)
Definition slice_from (l : list A) (i : Z) : list A := skipn (clamp l i) l.

(** [l[:i]] *)
Definition slice_to (l : list A) (i : Z) : list A := firstn (clamp l i) l.

(** [l.insert(i, x)] *)
Definition insert (l : list A) (i : Z) (x : A) : list A :=
  firstn (clamp l i) l ++ x :: skipn (clamp l i) l.

Definition is_empty (l : list A) : bool :=
  match l with [] => true | _ :: _ => false end.
End ListOps.

(** [bisect.bisect_left(a, x)] of the standard library: the binary search
    [lo, hi = 0, len(a); while lo < hi: mid = (lo+hi)//2;
     if a[mid] < x: lo = mid+1 else: hi = mid; return lo].
    The interval shrinks at every turn, so [length a] turns are enough. *)
Fixpoint bisect_loop (turns : nat) (a : list Z) (x : Z) (lo hi : nat) : nat :=
  match turns with
  | O => lo
  | S turns' =>
      if (lo <? hi)%nat then
        let mid := ((lo + hi) / 2)%nat in
        if nth mid a 0 <? x then bisect_loop turns' a x (S mid) hi
        else bisect_loop turns' a x lo mid
      else lo
  end.

Definition bisect_left (a : list Z) (x : Z) : Z :=
  Z.of_nat (bisect_loop (length a) a x 0%nat (length a)).
End Py.

(** ** class BTreeNode *)

#[warnings="-register-all"]
Inductive BTreeNode : Type :=
  Node { keys : list Z;
         min_degree : Z;
         children : list BTreeNode;
         is_leaf : bool }.

Definition set_keys (n : BTreeNode) (ks : list Z) : BTreeNode :=
  Node ks (min_degree n) (children n) (is_leaf n).

Definition set_children (n : BTreeNode) (cs : list BTreeNode) : BTreeNode :=
  Node (keys n) (min_degree n) cs (is_leaf n).

(** Longest chain of child links below a node, counted in nodes. *)
Fixpoint height (n : BTreeNode) : nat :=
  match n with
  | Node _ _ cs _ => S (fold_right (fun c m => Nat.max (height c) m) O cs)
  end.

(** ** Methods that are the same text in both files

    [src/btree/__init__.py] lines 18-243 and [src/main.py] lines 16-240 hold
    the same method bodies, up to the name of the deleting method that
    [remove_from_non_leaf] calls, which is a parameter here. *)

Module NodeOps.

(** [get_key_index]: [bisect.bisect_left(self.keys, key)]. *)
Definition get_key_index (self : BTreeNode) (key : Z) : Z :=
  Py.bisect_left (keys self) key.

(** [is_full]: [len(self.keys) == 2 * self.min_degree - 1]. *)
Definition is_full (self : BTreeNode) : bool :=
  Py.len (keys self) =? 2 * min_degree self - 1.

(** [split_child]: the child keeps keys [[:t-1]] (and children [[:t]]), the
    new sibling takes keys [[t:]] (and children [[t:]]), key [[t-1]] moves up.
    The child is mutated in place, so it is stored back in its slot before
    the sibling is inserted after it. *)
Definition split_child (self : BTreeNode) (child_index : Z) : result BTreeNode :=
  existing_child <- Py.getitem (children self) child_index ;;
  let t := min_degree self in
  middle_key <- Py.getitem (keys existing_child) (t - 1) ;;
  let new_keys := Py.slice_from (keys existing_child) t in
  let old_keys := Py.slice_to (keys existing_child) (t - 1) in
  let new_children :=
    if negb (is_leaf existing_child)
    then Py.slice_from (children existing_child) t else [] in
  let old_children :=
    if negb (is_leaf existing_child)
    then Py.slice_to (children existing_child) t
    else children existing_child in
  let new_child := Node new_keys t new_children (is_leaf existing_child) in
  let existing_child' :=
    Node old_keys (min_degree existing_child) old_children
         (is_leaf existing_child) in
  cs <- Py.setitem (children self) child_index existing_child' ;;
  Ret (Node (Py.insert (keys self) child_index middle_key) t
            (Py.insert cs (child_index + 1) new_child) (is_leaf self)).

(** [insert_non_full]. *)
Fixpoint insert_non_full_fuel (fuel : nat) (self : BTreeNode) (key : Z)
  : result BTreeNode :=
  match fuel with
  | O => OutOfFuel
  | S fuel' =>
      if is_leaf self then
        let key_index := get_key_index self key in
        Ret (set_keys self (Py.insert (keys self) key_index key))
      else
        let child_index := get_key_index self key in
        child <- Py.getitem (children self) child_index ;;
        '(self1, child_index1) <-
          (if is_full child then
             self1 <- split_child self child_index ;;
             k <- Py.getitem (keys self1) child_index ;;
             Ret (self1, if key >? k then child_index + 1 else child_index)
           else Ret (self, child_index)) ;;
        target <- Py.getitem (children self1) child_index1 ;;
        target' <- insert_non_full_fuel fuel' target key ;;
        cs <- Py.setitem (children self1) child_index1 target' ;;
        Ret (set_children self1 cs)
  end.

Definition insert_non_full (self : BTreeNode) (key : Z) : result BTreeNode :=
  insert_non_full_fuel (height self) self key.

(** The loop of [traverse] on an internal node: [children[i].traverse()]
    and [keys[i]] for every key index [i], then
    [children[len(keys)].traverse()]; a missing child raises IndexError. *)
Definition traverse_children
  (trav : BTreeNode -> result (list Z * BTreeNode))
  : list Z -> list BTreeNode -> result (list Z * list BTreeNode) :=
  fix walk (ks : list Z) (cs : list BTreeNode) {struct cs} :=
    match cs with
    | [] => Raise IndexError
    | c :: cs1 =>
        '(out1, c') <- trav c ;;
        match ks with
        | [] => Ret (out1, c' :: cs1)
        | k :: ks1 =>
            '(out2, cs2) <- walk ks1 cs1 ;;
            Ret (out1 ++ k :: out2, c' :: cs2)
        end
    end.

(** [traverse]: the printed keys, in printing order, and the receiver. *)
Fixpoint traverse (self : BTreeNode) : result (list Z * BTreeNode) :=
  match self with
  | Node ks t cs lf =>
      if lf then Ret (ks, self)
      else
        '(out, cs') <- traverse_children traverse ks cs ;;
        Ret (out, Node ks t cs' lf)
  end.

(** [self.keys[idx] == key] guarded by [idx < len(self.keys)]. *)
Definition key_at (self : BTreeNode) (idx key : Z) : result bool :=
  if idx <? Py.len (keys self) then
    k <- Py.getitem (keys self) idx ;; Ret (k =? key)
  else Ret false.

(** [search]: the node that holds the key, or [None]; and the receiver. *)
Fixpoint search_fuel (fuel : nat) (self : BTreeNode) (key : Z)
  : result (option BTreeNode * BTreeNode) :=
  match fuel with
  | O => OutOfFuel
  | S fuel' =>
      if Py.is_empty (keys self) then Ret (None, self)
      else
        let idx := get_key_index self key in
        found <- key_at self idx key ;;
        if found then Ret (Some self, self)
        else if is_leaf self then Ret (None, self)
        else
          child <- Py.getitem (children self) idx ;;
          '(r, child') <- search_fuel fuel' child key ;;
          cs <- Py.setitem (children self) idx child' ;;
          Ret (r, set_children self cs)
  end.

Definition search (self : BTreeNode) (key : Z)
  : result (option BTreeNode * BTreeNode) :=
  search_fuel (height self) self key.

(** [get_predecessor]: follow [children[-1]] down to a leaf, return its
    [keys[-1]]. *)
Fixpoint get_predecessor_loop (fuel : nat) (node : BTreeNode) : result Z :=
  match fuel with
  | O => OutOfFuel
  | S fuel' =>
      if negb (is_leaf node) then
        next <- Py.getitem (children node) (-1) ;;
        get_predecessor_loop fuel' next
      else Py.getitem (keys node) (-1)
  end.

Definition get_predecessor (self : BTreeNode) : result Z :=
  get_predecessor_loop (height self) self.

(** [get_successor]: follow [children[0]] down to a leaf, return its
    [keys[0]]. *)
Fixpoint get_successor_loop (fuel : nat) (node : BTreeNode) : result Z :=
  match fuel with
  | O => OutOfFuel
  | S fuel' =>
      if negb (is_leaf node) then
        next <- Py.getitem (children node) 0 ;;
        get_successor_loop fuel' next
      else Py.getitem (keys node) 0
  end.

Definition get_successor (self : BTreeNode) : result Z :=
  get_successor_loop (height self) self.

(** [borrow_from_prev].  [fill] calls it only with [idx != 0], so [child]
    and [sibling] are two objects; both are stored back in their slots. *)
Definition borrow_from_prev (self : BTreeNode) (idx : Z) : result BTreeNode :=
  child <- Py.getitem (children self) idx ;;
  sibling <- Py.getitem (children self) (idx - 1) ;;
  k <- Py.getitem (keys self) (idx - 1) ;;
  let child1 := set_keys child (Py.insert (keys child) 0 k) in
  '(child2, sibling1) <-
    (if negb (is_leaf child1) then
       '(c, scs) <- Py.pop (children sibling) (-1) ;;
       Ret (set_children child1 (Py.insert (children child1) 0 c),
            set_children sibling scs)
     else Ret (child1, sibling)) ;;
  '(sk, sks) <- Py.pop (keys sibling1) (-1) ;;
  ks <- Py.setitem (keys self) (idx - 1) sk ;;
  cs1 <- Py.setitem (children self) idx child2 ;;
  cs2 <- Py.setitem cs1 (idx - 1) (set_keys sibling1 sks) ;;
  Ret (Node ks (min_degree self) cs2 (is_leaf self)).

(** [borrow_from_next]. *)
Definition borrow_from_next (self : BTreeNode) (idx : Z) : result BTreeNode :=
  child <- Py.getitem (children self) idx ;;
  sibling <- Py.getitem (children self) (idx + 1) ;;
  k <- Py.getitem (keys self) idx ;;
  let child1 := set_keys child (keys child ++ [k]) in
  '(child2, sibling1) <-
    (if negb (is_leaf child1) then
       '(c, scs) <- Py.pop (children sibling) 0 ;;
       Ret (set_children child1 (children child1 ++ [c]),
            set_children sibling scs)
     else Ret (child1, sibling)) ;;
  '(sk, sks) <- Py.pop (keys sibling1) 0 ;;
  ks <- Py.setitem (keys self) idx sk ;;
  cs1 <- Py.setitem (children self) idx child2 ;;
  cs2 <- Py.setitem cs1 (idx + 1) (set_keys sibling1 sks) ;;
  Ret (Node ks (min_degree self) cs2 (is_leaf self)).

(** [merge]: the child takes [keys.pop(idx)] and the keys (and children) of
    its right sibling, which leaves the children list.  The callers pass
    [idx >= 0], or [idx = -1] with an empty key list, where the pop raises:
    [child] and [sibling] are two objects whenever the pop succeeds. *)
Definition merge (self : BTreeNode) (idx : Z) : result BTreeNode :=
  child <- Py.getitem (children self) idx ;;
  sibling <- Py.getitem (children self) (idx + 1) ;;
  '(k, ks) <- Py.pop (keys self) idx ;;
  let child1 := set_keys child ((keys child ++ [k]) ++ keys sibling) in
  let child2 :=
    if negb (is_leaf child1)
    then set_children child1 (children child1 ++ children sibling)
    else child1 in
  cs1 <- Py.setitem (children self) idx child2 ;;
  '(_, cs2) <- Py.pop cs1 (idx + 1) ;;
  Ret (Node ks (min_degree self) cs2 (is_leaf self)).

(** [len(self.children[i].keys) >= self.min_degree], guarded by [guard]
    ([and] does not evaluate its right operand when the left one is false). *)
Definition can_lend (self : BTreeNode) (guard : bool) (i : Z) : result bool :=
  if guard then
    c <- Py.getitem (children self) i ;;
    Ret (min_degree self <=? Py.len (keys c))
  else Ret false.

(** [fill]. *)
Definition fill (self : BTreeNode) (idx : Z) : result BTreeNode :=
  from_prev <- can_lend self (negb (idx =? 0)) (idx - 1) ;;
  if from_prev then borrow_from_prev self idx
  else
    from_next <-
      can_lend self (negb (idx =? Py.len (keys self))) (idx + 1) ;;
    if from_next then borrow_from_next self idx
    else if negb (idx =? Py.len (keys self)) then merge self idx
    else merge self (idx - 1).

(** [remove_from_leaf]: [self.keys.pop(idx)]. *)
Definition remove_from_leaf (self : BTreeNode) (idx : Z) : result BTreeNode :=
  '(_, ks) <- Py.pop (keys self) idx ;;
  Ret (set_keys self ks).

(** [remove_from_non_leaf]; [del] is the deleting method of the file
    ([_delete_internal] in the package, [delete] in the script). *)
Definition remove_from_non_leaf
  (del : BTreeNode -> Z -> result BTreeNode)
  (self : BTreeNode) (idx : Z) : result BTreeNode :=
  key <- Py.getitem (keys self) idx ;;
  left <- Py.getitem (children self) idx ;;
  if min_degree self <=? Py.len (keys left) then
    pred <- get_predecessor left ;;
    ks <- Py.setitem (keys self) idx pred ;;
    left' <- del left pred ;;
    cs <- Py.setitem (children self) idx left' ;;
    Ret (Node ks (min_degree self) cs (is_leaf self))
  else
    right <- Py.getitem (children self) (idx + 1) ;;
    if min_degree self <=? Py.len (keys right) then
      succ <- get_successor right ;;
      ks <- Py.setitem (keys self) idx succ ;;
      right' <- del right succ ;;
      cs <- Py.setitem (children self) (idx + 1) right' ;;
      Ret (Node ks (min_degree self) cs (is_leaf self))
    else
      self1 <- merge self idx ;;
      merged <- Py.getitem (children self1) idx ;;
      merged' <- del merged key ;;
      cs <- Py.setitem (children self1) idx merged' ;;
      Ret (set_children self1 cs).

(** The part of the deleting method after a miss in [self.keys], the same
    text in both files ([src/btree/__init__.py] lines 264-273,
    [src/main.py] lines 261-271): fill the child if it is short, fix the
    index after a merge of the last child, and go down. *)
Definition descend
  (del : BTreeNode -> Z -> result BTreeNode)
  (self : BTreeNode) (idx key : Z) : result BTreeNode :=
  let flag := idx =? Py.len (keys self) in
  child <- Py.getitem (children self) idx ;;
  self1 <-
    (if Py.len (keys child) <? min_degree self then fill self idx
     else Ret self) ;;
  let idx1 :=
    if flag && (idx >? Py.len (keys self1)) then idx - 1 else idx in
  target <- Py.getitem (children self1) idx1 ;;
  target' <- del target key ;;
  cs <- Py.setitem (children self1) idx1 target' ;;
  Ret (set_children self1 cs).

End NodeOps.

(** ** class BTree

    The field [min_degree] of the class is [tree_min_degree] here, the name
    being taken by the field of [BTreeNode]. *)

Record BTree : Type := Tree { root : BTreeNode; tree_min_degree : Z }.

(** ** src/btree/__init__.py *)

Module Pkg.
Import NodeOps.

(** [BTreeNode._delete_internal]: a miss in a leaf reads [self.children[idx]]
    of an empty list and raises IndexError. *)
Fixpoint _delete_internal (fuel : nat) (self : BTreeNode) (key : Z)
  : result BTreeNode :=
  match fuel with
  | O => OutOfFuel
  | S fuel' =>
      let idx := get_key_index self key in
      found <- key_at self idx key ;;
      if found then
        if is_leaf self then remove_from_leaf self idx
        else remove_from_non_leaf (_delete_internal fuel') self idx
      else descend (_delete_internal fuel') self idx key
  end.

(** [BTreeNode.delete]: search first, return at once on a miss. *)
Definition node_delete (self : BTreeNode) (key : Z) : result BTreeNode :=
  '(r, self1) <- search self key ;;
  match r with
  | None => Ret self1
  | Some _ => _delete_internal (height self1) self1 key
  end.

(** [BTree.__init__]. *)
Definition init (min_degree : Z) : result BTree :=
  if min_degree <? 2 then Raise ValueError
  else Ret (Tree (Node [] min_degree [] true) min_degree).

(** [BTree.traverse]. *)
Definition traverse (self : BTree) : result (list Z * BTree) :=
  '(out, r) <- NodeOps.traverse (root self) ;;
  Ret (out, Tree r (tree_min_degree self)).

(** [BTree.search]: [None] at once when the root has no key. *)
Definition search (self : BTree) (key : Z) : result (option BTreeNode * BTree) :=
  if Py.is_empty (keys (root self)) then Ret (None, self)
  else
    '(r, rt) <- NodeOps.search (root self) key ;;
    Ret (r, Tree rt (tree_min_degree self)).

(** [BTree.insert]: a full root becomes child 0 of a new internal root and
    is split before the key goes down. *)
Definition insert (self : BTree) (key : Z) : result BTree :=
  self1 <-
    (if is_full (root self) then
       let new_root := Node [] (tree_min_degree self) [root self] false in
       new_root1 <- split_child new_root 0 ;;
       Ret (Tree new_root1 (tree_min_degree self))
     else Ret self) ;;
  r <- insert_non_full (root self1) key ;;
  Ret (Tree r (tree_min_degree self1)).

(** [BTree.delete]: [self.root] is an object and never falsy; after the
    deletion an internal root without keys is replaced by its child 0. *)
Definition delete (self : BTree) (key : Z) : result BTree :=
  r <- node_delete (root self) key ;;
  if (Py.len (keys r) =? 0) && negb (is_leaf r) then
    c <- Py.getitem (children r) 0 ;;
    Ret (Tree c (tree_min_degree self))
  else Ret (Tree r (tree_min_degree self)).

End Pkg.

(** ** src/main.py *)

Module Script.
Import NodeOps.

(** [BTreeNode.delete]: no search first; a miss in a leaf returns. *)
Fixpoint node_delete_fuel (fuel : nat) (self : BTreeNode) (key : Z)
  : result BTreeNode :=
  match fuel with
  | O => OutOfFuel
  | S fuel' =>
      let idx := get_key_index self key in
      found <- key_at self idx key ;;
      if found then
        if is_leaf self then remove_from_leaf self idx
        else remove_from_non_leaf (node_delete_fuel fuel') self idx
      else if is_leaf self then Ret self
      else descend (node_delete_fuel fuel') self idx key
  end.

Definition node_delete (self : BTreeNode) (key : Z) : result BTreeNode :=
  node_delete_fuel (height self) self key.

(** [BTree.__init__]. *)
Definition init (min_degree : Z) : result BTree :=
  if min_degree <? 2 then Raise ValueError
  else Ret (Tree (Node [] min_degree [] true) min_degree).

(** [BTree.traverse]: [self.root] is an object and always truthy. *)
Definition traverse (self : BTree) : result (list Z * BTree) :=
  '(out, r) <- NodeOps.traverse (root self) ;;
  Ret (out, Tree r (tree_min_degree self)).

(** [BTree.search]. *)
Definition search (self : BTree) (key : Z) : result (option BTreeNode * BTree) :=
  '(r, rt) <- NodeOps.search (root self) key ;;
  Ret (r, Tree rt (tree_min_degree self)).

(** [BTree.insert]: the key goes into the new root before [self.root] is
    reassigned. *)
Definition insert (self : BTree) (key : Z) : result BTree :=
  if is_full (root self) then
    let new_root := Node [] (tree_min_degree self) [root self] false in
    new_root1 <- split_child new_root 0 ;;
    new_root2 <- insert_non_full new_root1 key ;;
    Ret (Tree new_root2 (tree_min_degree self))
  else
    r <- insert_non_full (root self) key ;;
    Ret (Tree r (tree_min_degree self)).

(** [BTree.delete]. *)
Definition delete (self : BTree) (key : Z) : result BTree :=
  r <- node_delete (root self) key ;;
  if (Py.len (keys r) =? 0) && negb (is_leaf r) then
    c <- Py.getitem (children r) 0 ;;
    Ret (Tree c (tree_min_degree self))
  else Ret (Tree r (tree_min_degree self)).

End Script.

(** ** Sequences of mutating calls *)

Inductive op : Type := Insert (k : Z) | Delete (k : Z).

Section Run.
Variable init : Z -> result BTree.
Variable insert delete : BTree -> Z -> result BTree.

Definition apply_op (tr : BTree) (o : op) : result BTree :=
  match o with
  | Insert k => insert tr k
  | Delete k => delete tr k
  end.

Fixpoint run_from (tr : BTree) (ops : list op) : result BTree :=
  match ops with
  | [] => Ret tr
  | o :: ops' => tr' <- apply_op tr o ;; run_from tr' ops'
  end.

Definition run_ops (t : Z) (ops : list op) : result BTree :=
  tr <- init t ;; run_from tr ops.
End Run.

Definition pkg_run : Z -> list op -> result BTree :=
  run_ops Pkg.init Pkg.insert Pkg.delete.

Definition script_run : Z -> list op -> result BTree :=
  run_ops Script.init Script.insert Script.delete.

(** The keys that [src/examples/demo.py] and [src/tests/test_btree.py]
    insert, in their order. *)
Definition demo_keys : list Z := [10; 20; 5; 6; 12; 30; 7; 17].

(** The tree that both files build for t = 3 from [demo_keys], and the
    tree after the deletion of 6. *)
Definition demo_tree : BTree :=
  Tree (Node [10] 3 [Node [5; 6; 7] 3 [] true;
                     Node [12; 17; 20; 30] 3 [] true] false) 3.
Definition demo_tree_without_6 : BTree :=
  Tree (Node [10] 3 [Node [5; 7] 3 [] true;
                     Node [12; 17; 20; 30] 3 [] true] false) 3.

(** The tree that both files build for t = 2 from the keys 1, 2, 3, 4
    ([test_root_split_on_insert]). *)
Definition split_leaf_left : BTreeNode := Node [1] 2 [] true.
Definition split_leaf_right : BTreeNode := Node [3; 4] 2 [] true.
Definition split_root : BTreeNode :=
  Node [2] 2 [split_leaf_left; split_leaf_right] false.

(** ** Specification-level definitions *)

(** Children and keys in printing order: [c0 k0 c1 k1 ... cn]. *)
Fixpoint inter (cs : list (list Z)) (ks : list Z) : list Z :=
  match cs with
  | [] => []
  | c :: cs' =>
      c ++ match ks with
           | [] => []
           | k :: ks' => k :: inter cs' ks'
           end
  end.

(** The part of [inter] before a child: [c0 k0 ... c(i-1) k(i-1)]. *)
Fixpoint pre (cs : list (list Z)) (ks : list Z) : list Z :=
  match cs, ks with
  | c :: cs', k :: ks' => c ++ k :: pre cs' ks'
  | _, _ => []
  end.

(** The part of [inter] after a child: [k(i) c(i+1) ... cn]. *)
Definition post (ks : list Z) (cs : list (list Z)) : list Z :=
  match ks with
  | [] => []
  | k :: ks' => k :: inter cs ks'
  end.

(** The keys of a subtree in in-order. *)
Fixpoint elems (n : BTreeNode) : list Z :=
  match n with
  | Node ks _ cs lf => if lf then ks else inter (map elems cs) ks
  end.

(** Number of leading elements below [x]. *)
Fixpoint lower_bound (a : list Z) (x : Z) : nat :=
  match a with
  | [] => O
  | v :: a' => if v <? x then S (lower_bound a' x) else O
  end.

(** The first element of [l], if any, is not below [x]. *)
Definition head_ge (x : Z) (l : list Z) : Prop :=
  match l with [] => True | v :: _ => x <= v end.

(** The first element of [l], if any, is above [x]. *)
Definition head_gt (x : Z) (l : list Z) : Prop :=
  match l with [] => True | v :: _ => x < v end.

(** Insertion before the first element that is not below [k]. *)
Fixpoint ins (k : Z) (l : list Z) : list Z :=
  match l with
  | [] => [k]
  | x :: l' => if x <? k then x :: ins k l' else k :: l
  end.

(** Removal of the first occurrence of [k]. *)
Fixpoint remove_one (k : Z) (l : list Z) : list Z :=
  match l with
  | [] => []
  | x :: l' => if x =? k then l' else x :: remove_one k l'
  end.

Definition mem (k : Z) (l : list Z) : bool := existsb (Z.eqb k) l.

(** The ascending sort of a list of keys, by insertion. *)
Definition insertion_sort (ks : list Z) : list Z :=
  fold_left (fun acc k => ins k acc) ks [].

(** A present answer of [search]: a node, not [None]. *)
Definition present (o : option BTreeNode) : bool :=
  match o with Some _ => true | None => false end.

(** The stored keys after a sequence of calls, as a sorted list. *)
Definition model_step (l : list Z) (o : op) : list Z :=
  match o with
  | Insert k => ins k l
  | Delete k => remove_one k l
  end.

Definition model_from (l : list Z) (ops : list op) : list Z :=
  fold_left model_step ops l.

Definition model (ops : list op) : list Z := model_from [] ops.

(** No call inserts a key that is stored at that moment. *)
Fixpoint fresh_inserts_from (l : list Z) (ops : list op) : bool :=
  match ops with
  | [] => true
  | o :: ops' =>
      match o with
      | Insert k => negb (mem k l)
      | Delete _ => true
      end && fresh_inserts_from (model_step l o) ops'
  end.

Definition fresh_inserts (ops : list op) : bool := fresh_inserts_from [] ops.

(** Shape of a subtree of height [h] whose top node holds at least [lo]
    keys: degree, key counts, leaf flags, child counts, equal leaf depth. *)
Fixpoint shaped (t : Z) (h : nat) (lo : Z) (n : BTreeNode) : Prop :=
  min_degree n = t /\
  lo <= Py.len (keys n) <= 2 * t - 1 /\
  match h with
  | O => is_leaf n = true /\ children n = []
  | S h' =>
      is_leaf n = false /\
      Py.len (children n) = Py.len (keys n) + 1 /\
      Forall (shaped t h' (t - 1)) (children n)
  end.

(** What [fill] leaves: the node [n'] seen from the filled child, with the
    same in-order list as [n], the index that the deleting method goes down
    with, and the bounds on a key that the old child covered. *)
Definition filled (t : Z) (h : nat) (lo : Z) (n : BTreeNode)
  (ks1 ks2 : list Z) (n' : BTreeNode) : Prop :=
  exists ks1' ks2' cs1' c' cs2',
    n' = Node (ks1' ++ ks2') t (cs1' ++ c' :: cs2') false /\
    Py.len cs1' = Py.len ks1' /\
    shaped t (S h) (lo - 1) n' /\
    shaped t h t c' /\
    elems n' = elems n /\
    (if (Py.len ks1 =? Py.len (ks1 ++ ks2))
        && (Py.len ks1 >? Py.len (ks1' ++ ks2'))
     then Py.len ks1 - 1 else Py.len ks1) = Py.len ks1' /\
    (forall key, Forall (fun v => v < key) ks1 -> head_gt key ks2 ->
                 Forall (fun v => v < key) ks1' /\ head_gt key ks2').

(** What a deleting method [del] does on subtrees of height [h]; [strict]
    says that the key has to be present. *)
Definition deletes (strict : bool) (t : Z) (h : nat)
  (del : BTreeNode -> Z -> result BTreeNode) : Prop :=
  forall n lo key,
    shaped t h lo n -> (h = O \/ 1 <= lo) ->
    StronglySorted Z.le (elems n) ->
    (strict = true -> In key (elems n)) ->
    exists n', del n key = Ret n' /\ shaped t h (lo - 1) n' /\
               elems n' = remove_one key (elems n).

Definition root_lo (h : nat) : Z :=
  match h with O => 0 | S _ => 1 end.

Definition tree_ok (tr : BTree) : Prop :=
  2 <= tree_min_degree tr /\
  StronglySorted Z.le (elems (root tr)) /\
  exists h, shaped (tree_min_degree tr) h (root_lo h) (root tr).

(** ** The class invariant as a check *)

Fixpoint ascending (strict : bool) (l : list Z) : bool :=
  match l with
  | [] => true
  | x :: l' =>
      match l' with
      | [] => true
      | y :: _ => (if strict then x <? y else x <=? y) && ascending strict l'
      end
  end.

(** Key count, key order and child count of every node of a subtree. *)
Fixpoint nodes_ok (strict : bool) (t : Z) (is_root : bool) (n : BTreeNode)
  : bool :=
  match n with
  | Node ks _ cs lf =>
      ((if is_root then 0 else t - 1) <=? Py.len ks)
      && (Py.len ks <=? 2 * t - 1)
      && ascending strict ks
      && (lf || (Py.len cs =? Py.len ks + 1))
      && forallb (nodes_ok strict t false) cs
  end.

(** Depths of the leaves of a subtree whose top node is at depth [d]. *)
Fixpoint leaf_depths (d : nat) (n : BTreeNode) : list nat :=
  match n with
  | Node _ _ cs lf =>
      if lf then [d] else flat_map (leaf_depths (S d)) cs
  end.

Definition all_equal (l : list nat) : bool :=
  match l with
  | [] => true
  | x :: l' => forallb (Nat.eqb x) l'
  end.

Definition invariant_gen (strict : bool) (tr : BTree) : bool :=
  nodes_ok strict (tree_min_degree tr) true (root tr)
  && all_equal (leaf_depths O (root tr)).

(** The invariant of the specification: keys strictly increasing. *)
Definition invariant : BTree -> bool := invariant_gen true.

(** The same with keys non-decreasing. *)
Definition invariant_weak : BTree -> bool := invariant_gen false.

(** ** Nodes for the examples (t = 3)

    A leaf with a repeated key; a node over a full leaf and a minimal one;
    a node over two minimal leaves; a node whose left leaf can lend; a node
    whose right leaf can lend. *)
Definition ex_leaf : BTreeNode := Node [5; 6; 6; 7] 3 [] true.
Definition ex_full_child : BTreeNode := Node [1; 2; 3; 4; 5] 3 [] true.
Definition ex_over_full : BTreeNode :=
  Node [10] 3 [ex_full_child; Node [12; 13] 3 [] true] false.
Definition ex_over_minimal : BTreeNode :=
  Node [10; 20] 3 [Node [1; 2] 3 [] true; Node [12; 13] 3 [] true;
                   Node [21; 22; 23] 3 [] true] false.
Definition ex_left_lends : BTreeNode :=
  Node [10] 3 [Node [1; 2; 3] 3 [] true; Node [12; 13] 3 [] true] false.
Definition ex_right_lends : BTreeNode :=
  Node [10] 3 [Node [1; 2] 3 [] true; Node [12; 13; 14] 3 [] true] false.

(** A root over two minimal leaves: a deletion below it merges them and
    leaves the root without a key. *)
Definition ex_two_minimal : BTreeNode :=
  Node [10] 3 [Node [1; 2] 3 [] true; Node [12; 13] 3 [] true] false.

(** ** Checks of one subtree

    [shaped_b] is [shaped] as a check, [subtree_ok] adds the order of the
    in-order list, [tree_wf] is the two for a tree with its root. *)

Fixpoint shaped_b (t : Z) (h : nat) (lo : Z) (n : BTreeNode) : bool :=
  (min_degree n =? t)
  && (lo <=? Py.len (keys n))
  && (Py.len (keys n) <=? 2 * t - 1)
  && match h with
     | O => is_leaf n && Py.is_empty (children n)
     | S h' =>
         negb (is_leaf n)
         && (Py.len (children n) =? Py.len (keys n) + 1)
         && forallb (shaped_b t h' (t - 1)) (children n)
     end.

Definition subtree_ok (t : Z) (h : nat) (lo : Z) (n : BTreeNode) : bool :=
  shaped_b t h lo n && ascending false (elems n).

Definition tree_wf (tr : BTree) : bool :=
  (2 <=? tree_min_degree tr)
  && subtree_ok (tree_min_degree tr) (pred (height (root tr)))
       (root_lo (pred (height (root tr)))) (root tr).

(** The nodes of a subtree, the top node first. *)
Fixpoint subnodes (n : BTreeNode) : list BTreeNode :=
  match n with
  | Node _ _ cs _ => n :: flat_map subnodes cs
  end.

(** Key [i] of a node separates child [i] from child [i+1]: no key below
    child [i] is above it, no key below child [i+1] is below it. *)
Fixpoint separated_at (ks : list Z) (cs : list BTreeNode) : bool :=
  match ks, cs with
  | k :: ks', c :: cs' =>
      forallb (fun v => v <=? k) (elems c)
      && match cs' with
         | [] => true
         | c' :: _ => forallb (fun v => k <=? v) (elems c')
         end
      && separated_at ks' cs'
  | _, _ => true
  end.

Fixpoint separated (n : BTreeNode) : bool :=
  match n with
  | Node ks _ cs lf => (lf || separated_at ks cs) && forallb separated cs
  end.

(** What a deleting method [del] does on a key that is not in the subtree:
    it raises IndexError. *)
Definition misses (t : Z) (h : nat)
  (del : BTreeNode -> Z -> result BTreeNode) : Prop :=
  forall n lo key,
    shaped t h lo n -> (h = O \/ 1 <= lo) ->
    StronglySorted Z.le (elems n) -> ~ In key (elems n) ->
    del n key = Raise IndexError.

(** Every delete of a sequence of calls names a key that is stored at that
    moment. *)
Fixpoint stored_deletes_from (l : list Z) (ops : list op) : bool :=
  match ops with
  | [] => true
  | o :: ops' =>
      match o with
      | Insert _ => true
      | Delete k => mem k l
      end && stored_deletes_from (model_step l o) ops'
  end.

Definition stored_deletes (ops : list op) : bool := stored_deletes_from [] ops.

(** Number of keys that a subtree of height [h] holds at the least, when
    its top node holds [lo] keys or more and every other node [t - 1]. *)
Definition least_count (t : Z) (h : nat) (lo : Z) : Z :=
  (lo + 1) * t ^ Z.of_nat h - 1.

(** ** Python list operations: facts *)

Lemma len_app {A} (l1 l2 : list A) : Py.len (l1 ++ l2) = Py.len l1 + Py.len l2.
Proof. unfold Py.len. rewrite length_app. lia. Qed.

Lemma len_cons {A} (x : A) (l : list A) : Py.len (x :: l) = Py.len l + 1.
Proof. unfold Py.len. simpl length. lia. Qed.

Lemma len_nonneg {A} (l : list A) : 0 <= Py.len l.
Proof. unfold Py.len. lia. Qed.

Lemma len_firstn {A} (n : nat) (l : list A) :
  Py.len (firstn n l) = Z.min (Z.of_nat n) (Py.len l).
Proof. unfold Py.len. rewrite length_firstn. lia. Qed.

Lemma len_skipn {A} (n : nat) (l : list A) :
  Py.len (skipn n l) = Z.max 0 (Py.len l - Z.of_nat n).
Proof. unfold Py.len. rewrite length_skipn. lia. Qed.

Lemma len_zero_nil {A} (l : list A) : Py.len l = 0 -> l = [].
Proof. destruct l; [reflexivity | rewrite len_cons; pose proof (len_nonneg l); lia]. Qed.

Lemma is_empty_len {A} (l : list A) : Py.is_empty l = (Py.len l =? 0).
Proof.
  destruct l; [reflexivity|]. rewrite len_cons. pose proof (len_nonneg l).
  simpl. symmetry. apply Z.eqb_neq. lia.
Qed.

Ltac len_simpl :=
  repeat (rewrite ?len_app, ?len_cons, ?len_firstn, ?len_skipn in *);
  repeat match goal with
    | |- context [Py.len (@nil ?A)] => change (Py.len (@nil A)) with 0
    | H : context [Py.len (@nil ?A)] |- _ =>
        change (Py.len (@nil A)) with 0 in H
    end.

Ltac len_lia := len_simpl; unfold Py.len in *; lia.

Lemma firstn_len_app {A} (l1 l2 : list A) (n : nat) :
  n = length l1 -> firstn n (l1 ++ l2) = l1.
Proof.
  intros ->. rewrite firstn_app, Nat.sub_diag, firstn_all. simpl.
  apply app_nil_r.
Qed.

Lemma skipn_len_app {A} (l1 l2 : list A) (n : nat) :
  n = length l1 -> skipn n (l1 ++ l2) = l2.
Proof.
  intros ->. rewrite skipn_app, Nat.sub_diag, skipn_all. reflexivity.
Qed.

Lemma nth_error_len_app {A} (l1 l2 : list A) (x : A) (n : nat) :
  n = length l1 -> nth_error (l1 ++ x :: l2) n = Some x.
Proof.
  intros ->. rewrite nth_error_app2 by lia. rewrite Nat.sub_diag. reflexivity.
Qed.

Section PyFacts.
Context {A : Type}.
Implicit Types (l : list A) (x y : A) (i : Z).

Lemma norm_nonneg l i : 0 <= i -> Py.norm l i = i.
Proof. intros H. unfold Py.norm. destruct (Z.ltb_spec i 0); lia. Qed.

Lemma in_range_app l1 x l2 i :
  i = Py.len l1 -> Py.in_range (l1 ++ x :: l2) i = true.
Proof.
  intros ->. unfold Py.in_range. apply andb_true_intro. split.
  - apply Z.leb_le. apply len_nonneg.
  - apply Z.ltb_lt. len_simpl. pose proof (len_nonneg l2). lia.
Qed.

Lemma getitem_app l1 x l2 i :
  i = Py.len l1 -> Py.getitem (l1 ++ x :: l2) i = Ret x.
Proof.
  intros H. unfold Py.getitem. rewrite norm_nonneg by (subst; apply len_nonneg).
  rewrite in_range_app by assumption.
  rewrite nth_error_len_app; [reflexivity|]. subst. unfold Py.len. lia.
Qed.

Lemma setitem_app l1 x l2 i y :
  i = Py.len l1 -> Py.setitem (l1 ++ x :: l2) i y = Ret (l1 ++ y :: l2).
Proof.
  intros H. unfold Py.setitem. rewrite norm_nonneg by (subst; apply len_nonneg).
  rewrite in_range_app by assumption.
  assert (E : Z.to_nat i = length l1) by (subst; unfold Py.len; lia).
  rewrite E. rewrite firstn_len_app by reflexivity.
  change (S (length l1)) with (1 + length l1)%nat.
  rewrite <- skipn_skipn. rewrite skipn_len_app by reflexivity. reflexivity.
Qed.

Lemma pop_app l1 x l2 i :
  i = Py.len l1 -> Py.pop (l1 ++ x :: l2) i = Ret (x, l1 ++ l2).
Proof.
  intros H. unfold Py.pop. rewrite norm_nonneg by (subst; apply len_nonneg).
  rewrite in_range_app by assumption.
  assert (E : Z.to_nat i = length l1) by (subst; unfold Py.len; lia).
  rewrite E. rewrite nth_error_len_app by reflexivity.
  rewrite firstn_len_app by reflexivity.
  change (S (length l1)) with (1 + length l1)%nat.
  rewrite <- skipn_skipn. rewrite skipn_len_app by reflexivity. reflexivity.
Qed.

Lemma clamp_app l1 l2 i :
  i = Py.len l1 -> Py.clamp (l1 ++ l2) i = length l1.
Proof.
  intros ->. unfold Py.clamp. rewrite norm_nonneg by apply len_nonneg.
  len_simpl. pose proof (len_nonneg l1). pose proof (len_nonneg l2).
  unfold Py.len in *. lia.
Qed.

Lemma insert_app l1 l2 i x :
  i = Py.len l1 -> Py.insert (l1 ++ l2) i x = l1 ++ x :: l2.
Proof.
  intros H. unfold Py.insert. rewrite clamp_app by assumption.
  rewrite firstn_len_app, skipn_len_app by reflexivity. reflexivity.
Qed.

Lemma slice_to_app l1 l2 i :
  i = Py.len l1 -> Py.slice_to (l1 ++ l2) i = l1.
Proof.
  intros H. unfold Py.slice_to. rewrite clamp_app by assumption.
  apply firstn_len_app. reflexivity.
Qed.

Lemma slice_from_app l1 l2 i :
  i = Py.len l1 -> Py.slice_from (l1 ++ l2) i = l2.
Proof.
  intros H. unfold Py.slice_from. rewrite clamp_app by assumption.
  apply skipn_len_app. reflexivity.
Qed.

Lemma norm_last l x : Py.norm (l ++ [x]) (-1) = Py.len l.
Proof. unfold Py.norm. change (-1 <? 0) with true. cbv iota. len_lia. Qed.

Lemma getitem_last l x : Py.getitem (l ++ [x]) (-1) = Ret x.
Proof.
  pose proof (getitem_app l x [] (Py.len l) eq_refl) as H.
  unfold Py.getitem in *. rewrite norm_last.
  rewrite norm_nonneg in H by apply len_nonneg. exact H.
Qed.

Lemma pop_last l x : Py.pop (l ++ [x]) (-1) = Ret (x, l).
Proof.
  pose proof (pop_app l x [] (Py.len l) eq_refl) as H.
  unfold Py.pop in *. rewrite norm_last.
  rewrite norm_nonneg in H by apply len_nonneg. rewrite H.
  rewrite app_nil_r. reflexivity.
Qed.

Lemma in_range_nil (j : Z) : Py.in_range (@nil A) j = false.
Proof.
  unfold Py.in_range. change (Py.len (@nil A)) with 0.
  destruct (Z.leb_spec 0 j), (Z.ltb_spec j 0); try reflexivity; lia.
Qed.

Lemma getitem_nil i : Py.getitem (@nil A) i = Raise IndexError.
Proof. unfold Py.getitem. rewrite in_range_nil. reflexivity. Qed.

(** A list splits at every position inside it. *)
Lemma split_at l (i : Z) :
  0 <= i < Py.len l ->
  exists l1 x l2, l = l1 ++ x :: l2 /\ Py.len l1 = i.
Proof.
  intros H. unfold Py.len in *.
  destruct (nth_error l (Z.to_nat i)) as [x|] eqn:E.
  - apply nth_error_split in E. destruct E as (l1 & l2 & -> & E).
    exists l1, x, l2. split; [reflexivity | lia].
  - apply nth_error_None in E. lia.
Qed.

Lemma split_at_le l (i : Z) :
  0 <= i <= Py.len l ->
  exists l1 l2, l = l1 ++ l2 /\ Py.len l1 = i.
Proof.
  intros H. exists (firstn (Z.to_nat i) l), (skipn (Z.to_nat i) l).
  split; [symmetry; apply firstn_skipn | len_lia].
Qed.
End PyFacts.

(** ** Binary search *)

Lemma lower_bound_le_length a x : (lower_bound a x <= length a)%nat.
Proof.
  induction a as [|v a IH]; simpl; [lia|]. destruct (v <? x); simpl; lia.
Qed.

Lemma lower_bound_nth a x :
  StronglySorted Z.le a ->
  forall i v, nth_error a i = Some v ->
              (v < x <-> (i < lower_bound a x)%nat).
Proof.
  induction 1 as [|w a Hs IH Hall]; intros i v E.
  - destruct i; discriminate.
  - simpl. destruct i as [|i]; simpl in E.
    + injection E as ->. destruct (Z.ltb_spec v x); split; intros; lia.
    + specialize (IH _ _ E).
      assert (w <= v).
      { rewrite Forall_forall in Hall. apply Hall.
        eapply nth_error_In; eassumption. }
      destruct (Z.ltb_spec w x).
      * rewrite IH. lia.
      * split; intros; lia.
Qed.

(** The number of turns does not matter once it covers the interval. *)
Lemma bisect_loop_turns a x :
  forall turns turns' lo hi,
    (hi - lo <= turns)%nat -> (hi - lo <= turns')%nat ->
    Py.bisect_loop turns a x lo hi = Py.bisect_loop turns' a x lo hi.
Proof.
  induction turns as [|turns IH]; intros turns' lo hi H H';
    destruct turns' as [|turns']; cbn [Py.bisect_loop]; try reflexivity.
  - destruct (Nat.ltb_spec lo hi); [lia | reflexivity].
  - destruct (Nat.ltb_spec lo hi); [lia | reflexivity].
  - destruct (Nat.ltb_spec lo hi); [|reflexivity].
    assert (Hmid : (lo <= (lo + hi) / 2 < hi)%nat).
    { split.
      - apply Nat.div_le_lower_bound; lia.
      - apply Nat.Div0.div_lt_upper_bound; lia. }
    destruct (nth ((lo + hi) / 2) a 0 <? x); apply IH; lia.
Qed.

Lemma bisect_loop_sorted a x :
  StronglySorted Z.le a ->
  forall turns lo hi,
    (lo <= lower_bound a x <= hi)%nat -> (hi <= length a)%nat ->
    (hi - lo <= turns)%nat ->
    Py.bisect_loop turns a x lo hi = lower_bound a x.
Proof.
  intros Hs. induction turns as [|turns IH]; intros lo hi Hb Hlen Hfuel;
    cbn [Py.bisect_loop].
  - lia.
  - destruct (Nat.ltb_spec lo hi); [|lia].
    set (mid := ((lo + hi) / 2)%nat).
    assert (Hmid : (lo <= mid < hi)%nat).
    { subst mid. split.
      - apply Nat.div_le_lower_bound; lia.
      - apply Nat.Div0.div_lt_upper_bound; lia. }
    assert (E : nth_error a mid = Some (nth mid a 0)).
    { apply nth_error_nth'. lia. }
    pose proof (lower_bound_nth a x Hs _ _ E) as Hv.
    destruct (Z.ltb_spec (nth mid a 0) x).
    + apply IH; lia.
    + apply IH; lia.
Qed.

Lemma bisect_left_sorted a x :
  StronglySorted Z.le a ->
  Py.bisect_left a x = Z.of_nat (lower_bound a x).
Proof.
  intros Hs. unfold Py.bisect_left. f_equal.
  apply bisect_loop_sorted; try assumption; try lia.
  pose proof (lower_bound_le_length a x). lia.
Qed.

(** The keys split at the lower bound: all before are below [x], the next
    one, if any, is not. *)
Lemma lower_bound_split a x :
  exists a1 a2,
    a = a1 ++ a2 /\ length a1 = lower_bound a x /\
    Forall (fun v => v < x) a1 /\ head_ge x a2.
Proof.
  induction a as [|v a IH]; simpl.
  - exists [], []. repeat split; constructor.
  - destruct (Z.ltb_spec v x).
    + destruct IH as (a1 & a2 & -> & E & F & G).
      exists (v :: a1), a2. simpl. repeat split; auto.
    + exists [], (v :: a). simpl. repeat split; auto.
Qed.

(** ** Sorted lists *)

Lemma sorted_app l1 l2 :
  StronglySorted Z.le (l1 ++ l2) <->
  StronglySorted Z.le l1 /\ StronglySorted Z.le l2 /\
  (forall x y, In x l1 -> In y l2 -> x <= y).
Proof.
  induction l1 as [|a l1 IH]; simpl.
  - split.
    + intros H. repeat split; [constructor | assumption | contradiction].
    + intros (_ & H & _). assumption.
  - split.
    + intros H. inversion H as [|? ? Hs Hall]; subst.
      apply IH in Hs. destruct Hs as (H1 & H2 & H3).
      rewrite Forall_app in Hall. destruct Hall as [Ha1 Ha2].
      repeat split; [constructor; assumption | assumption |].
      intros x y [->|Hx] Hy.
      * rewrite Forall_forall in Ha2. auto.
      * auto.
    + intros (H1 & H2 & H3). inversion H1 as [|? ? Hs Hall]; subst.
      constructor.
      * apply IH. repeat split; auto.
      * rewrite Forall_app. split; [assumption|].
        rewrite Forall_forall. intros y Hy. apply H3; auto.
Qed.

Lemma sorted_app_l l1 l2 :
  StronglySorted Z.le (l1 ++ l2) -> StronglySorted Z.le l1.
Proof. intros H. apply sorted_app in H. tauto. Qed.

Lemma sorted_app_r l1 l2 :
  StronglySorted Z.le (l1 ++ l2) -> StronglySorted Z.le l2.
Proof. intros H. apply sorted_app in H. tauto. Qed.

Lemma sorted_cons_inv a l :
  StronglySorted Z.le (a :: l) -> StronglySorted Z.le l.
Proof. intros H. inversion H; assumption. Qed.

Lemma in_ins x k l : In x (ins k l) <-> x = k \/ In x l.
Proof.
  induction l as [|y l IH]; simpl.
  - intuition.
  - destruct (y <? k); simpl; rewrite ?IH; intuition.
Qed.

Lemma ins_sorted k l :
  StronglySorted Z.le l -> StronglySorted Z.le (ins k l).
Proof.
  induction 1 as [|y l Hs IH Hall]; simpl.
  - repeat constructor.
  - destruct (Z.ltb_spec y k).
    + constructor; [assumption|].
      rewrite Forall_forall in *. intros x Hx. apply in_ins in Hx.
      destruct Hx as [->|Hx]; [lia | auto].
    + constructor; [constructor; assumption|].
      constructor; [assumption|].
      rewrite Forall_forall in *. intros x Hx. specialize (Hall _ Hx). lia.
Qed.

Lemma ins_app_l k p l :
  Forall (fun v => v < k) p -> ins k (p ++ l) = p ++ ins k l.
Proof.
  induction 1 as [|v p Hv _ IH]; simpl; [reflexivity|].
  destruct (Z.ltb_spec v k); [|lia]. rewrite IH. reflexivity.
Qed.

Lemma ins_app_r k c r :
  head_ge k r -> r <> [] -> ins k (c ++ r) = ins k c ++ r.
Proof.
  intros Hr Hne. induction c as [|v c IH]; simpl.
  - destruct r as [|x r]; [congruence|]. simpl in *.
    destruct (Z.ltb_spec x k); [lia | reflexivity].
  - destruct (v <? k); simpl; [rewrite IH|]; reflexivity.
Qed.

Lemma ins_middle k p c r :
  Forall (fun v => v < k) p -> head_ge k r ->
  ins k (p ++ c ++ r) = p ++ ins k c ++ r.
Proof.
  intros Hp Hr. rewrite ins_app_l by assumption. f_equal.
  destruct r as [|x r].
  - rewrite !app_nil_r. reflexivity.
  - apply ins_app_r; [assumption | discriminate].
Qed.

Lemma in_remove_one x k l : In x (remove_one k l) -> In x l.
Proof.
  induction l as [|y l IH]; simpl; [tauto|].
  destruct (y =? k); simpl; intuition.
Qed.

Lemma remove_one_sorted k l :
  StronglySorted Z.le l -> StronglySorted Z.le (remove_one k l).
Proof.
  induction 1 as [|y l Hs IH Hall]; simpl; [constructor|].
  destruct (y =? k); [assumption|].
  constructor; [assumption|].
  rewrite Forall_forall in *. intros x Hx. apply Hall.
  eapply in_remove_one; eassumption.
Qed.

Lemma remove_one_notin k l : ~ In k l -> remove_one k l = l.
Proof.
  induction l as [|y l IH]; simpl; [reflexivity|]. intros H.
  destruct (Z.eqb_spec y k); [tauto|]. rewrite IH; tauto.
Qed.

Lemma remove_one_app_l k p l :
  ~ In k p -> remove_one k (p ++ l) = p ++ remove_one k l.
Proof.
  induction p as [|y p IH]; simpl; [reflexivity|]. intros H.
  destruct (Z.eqb_spec y k); [tauto|]. rewrite IH; tauto.
Qed.

Lemma remove_one_app_r k c r :
  In k c -> remove_one k (c ++ r) = remove_one k c ++ r.
Proof.
  induction c as [|y c IH]; simpl; [tauto|]. intros H.
  destruct (Z.eqb_spec y k); [reflexivity|].
  rewrite IH; [reflexivity|]. destruct H; [contradiction | assumption].
Qed.

Lemma all_eq_shift (k : Z) (a b : list Z) :
  Forall (fun v => v = k) a -> a ++ k :: b = k :: a ++ b.
Proof.
  induction 1 as [|v a Hv _ IH]; simpl; [reflexivity|].
  subst v. rewrite IH. reflexivity.
Qed.

(** In a sorted list every occurrence of [k] is as good as the first. *)
Lemma remove_one_any k a b :
  StronglySorted Z.le (a ++ k :: b) -> remove_one k (a ++ k :: b) = a ++ b.
Proof.
  induction a as [|y a IH]; simpl; intros H.
  - rewrite Z.eqb_refl. reflexivity.
  - destruct (Z.eqb_spec y k) as [->|Hne].
    + inversion H as [|? ? Hs Hall]; subst.
      apply all_eq_shift. rewrite Forall_forall. intros v Hv.
      assert (k <= v).
      { rewrite Forall_forall in Hall. apply Hall. apply in_or_app. auto. }
      assert (v <= k).
      { apply sorted_app in Hs. destruct Hs as (_ & _ & Hs).
        apply Hs; simpl; auto. }
      lia.
    + rewrite IH; [reflexivity | eapply sorted_cons_inv; eassumption].
Qed.

Lemma remove_one_last k a :
  StronglySorted Z.le (a ++ [k]) -> remove_one k (a ++ [k]) = a.
Proof. intros H. rewrite remove_one_any by assumption. apply app_nil_r. Qed.

Lemma sorted_bounds_l p k r :
  StronglySorted Z.le (p ++ k :: r) -> Forall (fun v => v <= k) p.
Proof.
  intros H. apply sorted_app in H. destruct H as (_ & _ & H).
  rewrite Forall_forall. intros v Hv. apply H; simpl; auto.
Qed.

Lemma sorted_bounds_r k r :
  StronglySorted Z.le (k :: r) -> Forall (fun v => k <= v) r.
Proof. intros H. inversion H; assumption. Qed.

(** ** In-order lists of nodes *)

Lemma inter_app cs1 ks1 cs2 ks2 :
  length cs1 = length ks1 ->
  inter (cs1 ++ cs2) (ks1 ++ ks2) = pre cs1 ks1 ++ inter cs2 ks2.
Proof.
  revert ks1. induction cs1 as [|c cs1 IH]; intros [|k ks1] E;
    simpl in *; try discriminate; [reflexivity|].
  rewrite IH by lia. rewrite <- app_assoc. reflexivity.
Qed.

Lemma pre_app cs1 ks1 cs2 ks2 :
  length cs1 = length ks1 ->
  pre (cs1 ++ cs2) (ks1 ++ ks2) = pre cs1 ks1 ++ pre cs2 ks2.
Proof.
  revert ks1. induction cs1 as [|c cs1 IH]; intros [|k ks1] E;
    simpl in *; try discriminate; [reflexivity|].
  rewrite IH by lia. rewrite <- app_assoc. reflexivity.
Qed.

Lemma pre_below key cs ks :
  length cs = length ks ->
  StronglySorted Z.le (pre cs ks) ->
  Forall (fun v => v < key) ks ->
  Forall (fun v => v < key) (pre cs ks).
Proof.
  revert ks. induction cs as [|c cs IH]; intros [|k ks] E Hs Hk;
    simpl in *; try discriminate; [constructor|].
  inversion Hk as [|? ? Hk1 Hk2]; subst.
  pose proof (sorted_bounds_l _ _ _ Hs) as Hc.
  apply sorted_app_r in Hs. apply sorted_cons_inv in Hs.
  rewrite Forall_app. split.
  - rewrite Forall_forall in *. intros v Hv. specialize (Hc _ Hv). lia.
  - constructor; [assumption|]. apply IH; auto.
Qed.

Lemma post_head_ge key ks cs : head_ge key ks -> head_ge key (post ks cs).
Proof. destruct ks; simpl; auto. Qed.

Lemma in_keys_inter k cs ks :
  (length ks < length cs)%nat -> In k ks -> In k (inter cs ks).
Proof.
  revert ks. induction cs as [|c cs IH]; intros [|k' ks] E H;
    simpl in *; try lia; try contradiction.
  apply in_or_app. right. simpl. destruct H as [->|H]; [auto|].
  right. apply IH; [lia | assumption].
Qed.

Lemma inter_keys_sorted cs ks :
  (length ks < length cs)%nat ->
  StronglySorted Z.le (inter cs ks) -> StronglySorted Z.le ks.
Proof.
  revert ks. induction cs as [|c cs IH]; intros [|k ks] E Hs;
    simpl in *; try lia; try constructor.
  - apply sorted_app_r in Hs. apply sorted_cons_inv in Hs.
    apply IH; [lia | assumption].
  - apply sorted_app_r in Hs. apply sorted_bounds_r in Hs.
    rewrite Forall_forall in *. intros v Hv. apply Hs.
    apply in_keys_inter; [lia | assumption].
Qed.

(** The in-order list of an internal node seen from child [i]. *)
Lemma elems_zip ks1 ks2 t cs1 c cs2 :
  Py.len cs1 = Py.len ks1 ->
  elems (Node (ks1 ++ ks2) t (cs1 ++ c :: cs2) false) =
  pre (map elems cs1) ks1 ++ elems c ++ post ks2 (map elems cs2).
Proof.
  intros E. simpl. rewrite map_app. simpl map.
  rewrite inter_app; [reflexivity|]. rewrite length_map.
  unfold Py.len in E. lia.
Qed.

Lemma keys_sorted n t h lo :
  shaped t h lo n -> StronglySorted Z.le (elems n) ->
  StronglySorted Z.le (keys n).
Proof.
  destruct n as [ks t' cs lf]. destruct h; simpl.
  - intros (_ & _ & -> & _). auto.
  - intros (_ & _ & -> & E & _). simpl. apply inter_keys_sorted.
    rewrite length_map. unfold Py.len in E. lia.
Qed.

(** ** Shape facts *)

Lemma shaped_weaken t h lo lo' n :
  lo' <= lo -> shaped t h lo n -> shaped t h lo' n.
Proof.
  intros Hlo. destruct h; simpl; intros (H1 & H2 & H3);
    (split; [assumption | split; [lia | assumption]]).
Qed.

Lemma shaped_degree t h lo n : shaped t h lo n -> min_degree n = t.
Proof. destruct h; simpl; tauto. Qed.

Lemma shaped_count t h lo n :
  shaped t h lo n -> lo <= Py.len (keys n) <= 2 * t - 1.
Proof. destruct h; simpl; tauto. Qed.

Lemma max_height_all h cs :
  Forall (fun c => height c = h) cs -> cs <> [] ->
  fold_right (fun c m => Nat.max (height c) m) O cs = h.
Proof.
  induction 1 as [|c cs Hc Hcs IH]; intros Hne; [congruence|].
  simpl. rewrite Hc. destruct cs as [|c' cs].
  - simpl. lia.
  - rewrite IH by discriminate. lia.
Qed.

Lemma shaped_height t h : forall lo n, shaped t h lo n -> height n = S h.
Proof.
  induction h as [|h IH]; intros lo [ks t' cs lf]; simpl.
  - intros (_ & _ & _ & ->). reflexivity.
  - intros (_ & _ & _ & E & Hall). f_equal.
    apply max_height_all.
    + rewrite Forall_forall in *. intros c Hc. eapply IH. eauto.
    + intros ->. pose proof (len_nonneg ks). change (Py.len (@nil BTreeNode)) with 0 in E. lia.
Qed.

(** ** The node operations on a node seen from one child *)

Arguments Py.getitem : simpl never.
Arguments Py.setitem : simpl never.
Arguments Py.pop : simpl never.
Arguments Py.insert : simpl never.
Arguments Py.slice_from : simpl never.
Arguments Py.slice_to : simpl never.
Arguments Py.bisect_left : simpl never.
Arguments Py.len : simpl never.
Arguments Z.mul : simpl never.
Arguments Z.add : simpl never.
Arguments Z.sub : simpl never.

Import NodeOps.

Lemma len_snoc {A} (l : list A) (x : A) : Py.len (l ++ [x]) = Py.len l + 1.
Proof. len_lia. Qed.

Lemma split_child_zip ks1 ks2 t cs1 c cs2 lf a m b ca cb :
  Py.len cs1 = Py.len ks1 ->
  keys c = a ++ m :: b -> Py.len a = t - 1 ->
  children c = ca ++ cb ->
  (if is_leaf c then cb = [] else Py.len ca = t) ->
  split_child (Node (ks1 ++ ks2) t (cs1 ++ c :: cs2) lf) (Py.len ks1) =
  Ret (Node (ks1 ++ m :: ks2) t
         (cs1 ++ Node a (min_degree c) ca (is_leaf c)
              :: Node b t cb (is_leaf c) :: cs2) lf).
Proof.
  intros E Hk Ha Hc Hl. unfold split_child. cbn [keys children min_degree is_leaf].
  rewrite getitem_app by auto. cbn [bind].
  rewrite Hk, Hc. rewrite getitem_app by auto. cbn [bind].
  rewrite slice_to_app by auto.
  replace (a ++ m :: b) with ((a ++ [m]) ++ b) by (rewrite <- app_assoc; reflexivity).
  rewrite slice_from_app by (rewrite len_snoc; lia).
  rewrite setitem_app by auto. cbn [bind].
  rewrite insert_app by reflexivity.
  match goal with |- context [cs1 ++ ?x :: cs2] =>
    replace (cs1 ++ x :: cs2) with ((cs1 ++ [x]) ++ cs2)
      by (rewrite <- app_assoc; reflexivity) end.
  rewrite insert_app by (rewrite len_snoc; lia).
  rewrite <- app_assoc. cbn [app].
  destruct (is_leaf c); cbn [negb].
  - subst cb. rewrite app_nil_r. reflexivity.
  - rewrite slice_from_app, slice_to_app by auto. reflexivity.
Qed.

Lemma merge_zip ks1 k ks2 t cs1 c s cs2 lf :
  Py.len cs1 = Py.len ks1 ->
  merge (Node (ks1 ++ k :: ks2) t (cs1 ++ c :: s :: cs2) lf) (Py.len ks1) =
  Ret (Node (ks1 ++ ks2) t
         (cs1 ++ Node (keys c ++ k :: keys s) (min_degree c)
                   (if is_leaf c then children c
                    else children c ++ children s) (is_leaf c)
              :: cs2) lf).
Proof.
  intros E. unfold merge. cbn [keys children min_degree is_leaf].
  rewrite getitem_app by auto. cbn [bind].
  replace (cs1 ++ c :: s :: cs2) with ((cs1 ++ [c]) ++ s :: cs2)
    by (rewrite <- app_assoc; reflexivity).
  rewrite getitem_app by (rewrite len_snoc; lia). cbn [bind].
  rewrite pop_app by reflexivity. cbn [bind].
  rewrite <- app_assoc. cbn [app].
  rewrite setitem_app by auto. cbn [bind].
  match goal with |- context [cs1 ++ ?x :: s :: cs2] =>
    replace (cs1 ++ x :: s :: cs2) with ((cs1 ++ [x]) ++ s :: cs2)
      by (rewrite <- app_assoc; reflexivity) end.
  rewrite pop_app by (rewrite len_snoc; lia). cbn [bind].
  rewrite <- !app_assoc. cbn [app].
  unfold set_keys, set_children. cbn [keys children min_degree is_leaf].
  destruct (is_leaf c); reflexivity.
Qed.

Lemma borrow_from_prev_zip ks1 k ks2 t cs1 s c cs2 lf sks sk scs sc :
  Py.len cs1 = Py.len ks1 ->
  keys s = sks ++ [sk] ->
  (is_leaf c = false -> children s = scs ++ [sc]) ->
  borrow_from_prev (Node (ks1 ++ k :: ks2) t (cs1 ++ s :: c :: cs2) lf)
                   (Py.len ks1 + 1) =
  Ret (Node (ks1 ++ sk :: ks2) t
         (cs1 ++ Node sks (min_degree s)
                   (if is_leaf c then children s else scs) (is_leaf s)
              :: Node (k :: keys c) (min_degree c)
                   (if is_leaf c then children c else sc :: children c)
                   (is_leaf c)
              :: cs2) lf).
Proof.
  intros E Hk Hc. unfold borrow_from_prev.
  cbn [keys children min_degree is_leaf].
  replace (Py.len ks1 + 1 - 1) with (Py.len ks1) by lia.
  replace (cs1 ++ s :: c :: cs2) with ((cs1 ++ [s]) ++ c :: cs2)
    by (rewrite <- app_assoc; reflexivity).
  rewrite getitem_app by (rewrite len_snoc; lia). cbn [bind].
  rewrite <- app_assoc. cbn [app].
  rewrite getitem_app by auto. cbn [bind].
  rewrite getitem_app by auto. cbn [bind].
  unfold set_keys, set_children. cbn [keys children min_degree is_leaf].
  change (Py.insert (keys c) 0 k) with (Py.insert ([] ++ keys c) (Py.len (@nil Z)) k).
  rewrite insert_app by reflexivity. cbn [app].
  destruct (is_leaf c) eqn:Hlf; cbn [negb bind].
  - rewrite Hk, pop_last. cbn [bind].
    rewrite setitem_app by reflexivity. cbn [bind].
    replace (cs1 ++ s :: c :: cs2) with ((cs1 ++ [s]) ++ c :: cs2)
      by (rewrite <- app_assoc; reflexivity).
    rewrite setitem_app by (rewrite len_snoc; lia). cbn [bind].
    rewrite <- app_assoc. cbn [app].
    rewrite setitem_app by auto. cbn [bind]. reflexivity.
  - rewrite (Hc eq_refl), pop_last. cbn [bind keys].
    rewrite Hk, pop_last. cbn [bind].
    rewrite setitem_app by reflexivity. cbn [bind].
    replace (cs1 ++ s :: c :: cs2) with ((cs1 ++ [s]) ++ c :: cs2)
      by (rewrite <- app_assoc; reflexivity).
    rewrite setitem_app by (rewrite len_snoc; lia). cbn [bind].
    rewrite <- app_assoc. cbn [app].
    rewrite setitem_app by auto. cbn [bind].
    change (Py.insert (children c) 0 sc)
      with (Py.insert ([] ++ children c) (Py.len (@nil BTreeNode)) sc).
    rewrite insert_app by reflexivity. reflexivity.
Qed.

Lemma pop_head {A} (x : A) (l : list A) : Py.pop (x :: l) 0 = Ret (x, l).
Proof. apply (pop_app [] x l 0). reflexivity. Qed.

Lemma getitem_head {A} (x : A) (l : list A) : Py.getitem (x :: l) 0 = Ret x.
Proof. apply (getitem_app [] x l 0). reflexivity. Qed.

Lemma borrow_from_next_zip ks1 k ks2 t cs1 c s cs2 lf sks sk scs sc :
  Py.len cs1 = Py.len ks1 ->
  keys s = sk :: sks ->
  (is_leaf c = false -> children s = sc :: scs) ->
  borrow_from_next (Node (ks1 ++ k :: ks2) t (cs1 ++ c :: s :: cs2) lf)
                   (Py.len ks1) =
  Ret (Node (ks1 ++ sk :: ks2) t
         (cs1 ++ Node (keys c ++ [k]) (min_degree c)
                   (if is_leaf c then children c else children c ++ [sc])
                   (is_leaf c)
              :: Node sks (min_degree s)
                   (if is_leaf c then children s else scs) (is_leaf s)
              :: cs2) lf).
Proof.
  intros E Hk Hc. unfold borrow_from_next.
  cbn [keys children min_degree is_leaf].
  rewrite getitem_app by auto. cbn [bind].
  replace (cs1 ++ c :: s :: cs2) with ((cs1 ++ [c]) ++ s :: cs2)
    by (rewrite <- app_assoc; reflexivity).
  rewrite getitem_app by (rewrite len_snoc; lia). cbn [bind].
  rewrite <- app_assoc. cbn [app].
  rewrite getitem_app by reflexivity. cbn [bind].
  unfold set_keys, set_children. cbn [keys children min_degree is_leaf].
  destruct (is_leaf c) eqn:Hlf; cbn [negb bind].
  - rewrite Hk, pop_head. cbn [bind].
    rewrite setitem_app by reflexivity. cbn [bind].
    rewrite setitem_app by auto. cbn [bind].
    match goal with |- context [cs1 ++ ?x :: s :: cs2] =>
      replace (cs1 ++ x :: s :: cs2) with ((cs1 ++ [x]) ++ s :: cs2)
        by (rewrite <- app_assoc; reflexivity) end.
    rewrite setitem_app by (rewrite len_snoc; lia). cbn [bind].
    rewrite <- app_assoc. reflexivity.
  - rewrite (Hc eq_refl), pop_head. cbn [bind keys].
    rewrite Hk, pop_head. cbn [bind].
    rewrite setitem_app by reflexivity. cbn [bind].
    rewrite setitem_app by auto. cbn [bind].
    match goal with |- context [cs1 ++ ?x :: s :: cs2] =>
      replace (cs1 ++ x :: s :: cs2) with ((cs1 ++ [x]) ++ s :: cs2)
        by (rewrite <- app_assoc; reflexivity) end.
    rewrite setitem_app by (rewrite len_snoc; lia). cbn [bind].
    rewrite <- app_assoc. reflexivity.
Qed.

Lemma inter_join cs1 ks1 cs2 k ks2 :
  length cs1 = S (length ks1) ->
  inter (cs1 ++ cs2) (ks1 ++ k :: ks2) = inter cs1 ks1 ++ k :: inter cs2 ks2.
Proof.
  revert ks1. induction cs1 as [|c cs1 IH]; intros ks1 E; [discriminate|].
  destruct ks1 as [|k1 ks1]; simpl in *.
  - destruct cs1; [|discriminate]. simpl. rewrite app_nil_r. reflexivity.
  - rewrite IH by lia. rewrite <- app_assoc. reflexivity.
Qed.

(** A node that is two nodes joined around a key. *)
Lemma elems_join lf a m b cs ca cb t1 t2 t3 :
  (lf = false -> cs = ca ++ cb /\ Py.len ca = Py.len a + 1) ->
  elems (Node (a ++ m :: b) t1 cs lf) =
  elems (Node a t2 ca lf) ++ m :: elems (Node b t3 cb lf).
Proof.
  intros H. destruct lf; simpl; [reflexivity|].
  destruct (H eq_refl) as [-> E]. rewrite map_app.
  apply inter_join. rewrite length_map. unfold Py.len in E. lia.
Qed.

Lemma elems_zip2 ks1 k ks2 t cs1 x y cs2 :
  Py.len cs1 = Py.len ks1 ->
  elems (Node (ks1 ++ k :: ks2) t (cs1 ++ x :: y :: cs2) false) =
  pre (map elems cs1) ks1 ++ (elems x ++ k :: elems y)
      ++ post ks2 (map elems cs2).
Proof.
  intros E. rewrite elems_zip by assumption. simpl.
  rewrite <- !app_assoc. reflexivity.
Qed.

Section NodeFacts.
Variable t : Z.
Hypothesis Ht : 2 <= t.

(** Splitting a full node. *)
Lemma split_sem h c :
  shaped t h (t - 1) c -> Py.len (keys c) = 2 * t - 1 ->
  exists a m b ca cb,
    keys c = a ++ m :: b /\ Py.len a = t - 1 /\ Py.len b = t - 1 /\
    children c = ca ++ cb /\
    (if is_leaf c then cb = [] else Py.len ca = t) /\
    shaped t h (t - 1) (Node a (min_degree c) ca (is_leaf c)) /\
    shaped t h (t - 1) (Node b t cb (is_leaf c)) /\
    elems c = elems (Node a (min_degree c) ca (is_leaf c))
              ++ m :: elems (Node b t cb (is_leaf c)).
Proof.
  intros Hs Hfull. destruct c as [ks t' cs lf].
  cbn [keys children min_degree is_leaf] in *.
  destruct (split_at ks (t - 1)) as (a & m & b & -> & Ha); [lia|].
  assert (Hb : Py.len b = t - 1) by (len_simpl; lia).
  destruct h as [|h]; simpl in Hs.
  - destruct Hs as (-> & _ & -> & ->).
    exists a, m, b, [], []. simpl. repeat split; auto; try lia.
  - destruct Hs as (-> & _ & -> & Hc & Hall).
    destruct (split_at_le cs t) as (ca & cb & -> & Hca); [len_simpl; lia|].
    apply Forall_app in Hall. destruct Hall as [Hall1 Hall2].
    exists a, m, b, ca, cb.
    split; [reflexivity|]. split; [assumption|]. split; [assumption|].
    split; [reflexivity|]. split; [assumption|].
    split; [|split]; [| |apply elems_join; intros _; split; [reflexivity | lia]];
      simpl; repeat split; auto; len_simpl; lia.
Qed.

(** Merging two minimal siblings around their separator. *)
Lemma merge_sem h c s k :
  shaped t h (t - 1) c -> shaped t h (t - 1) s ->
  Py.len (keys c) < t -> Py.len (keys s) < t ->
  let m := Node (keys c ++ k :: keys s) (min_degree c)
             (if is_leaf c then children c else children c ++ children s)
             (is_leaf c) in
  shaped t h t m /\ elems m = elems c ++ k :: elems s.
Proof.
  intros Hc Hs Lc Ls m. subst m.
  destruct c as [kc tc cc lc], s as [ksb ts csb ls].
  cbn [keys children min_degree is_leaf] in *.
  destruct h as [|h]; simpl in Hc, Hs.
  - destruct Hc as (-> & Bc & -> & ->). destruct Hs as (-> & Bs & -> & ->).
    split; [|reflexivity].
    simpl. repeat split; auto; len_simpl; lia.
  - destruct Hc as (-> & Bc & -> & Ec & Ac).
    destruct Hs as (-> & Bs & -> & Es & As). split.
    + simpl. repeat split; auto; len_simpl; try lia.
      apply Forall_app. auto.
    + apply elems_join. intros _. auto.
Qed.

(** Moving the last key (and child) of the left sibling through the
    separator. *)
Lemma borrow_prev_sem h s c k :
  shaped t h (t - 1) s -> shaped t h (t - 1) c ->
  t <= Py.len (keys s) -> Py.len (keys c) < t ->
  exists sks sk scs sc,
    keys s = sks ++ [sk] /\
    (is_leaf c = false -> children s = scs ++ [sc]) /\
    let s' := Node sks (min_degree s)
                (if is_leaf c then children s else scs) (is_leaf s) in
    let c' := Node (k :: keys c) (min_degree c)
                (if is_leaf c then children c else sc :: children c)
                (is_leaf c) in
    shaped t h (t - 1) s' /\ shaped t h t c' /\
    elems s ++ k :: elems c = elems s' ++ sk :: elems c'.
Proof.
  intros Hs Hc Ls Lc.
  destruct c as [kc tc cc lc], s as [ksb ts csb ls].
  cbn [keys children min_degree is_leaf] in *.
  destruct (split_at ksb (Py.len ksb - 1)) as (sks & sk & r & -> & Hsk);
    [lia|].
  assert (r = []) by (apply len_zero_nil; len_simpl; lia). subst r.
  destruct h as [|h]; simpl in Hc, Hs.
  - destruct Hc as (-> & Bc & -> & ->). destruct Hs as (-> & Bs & -> & ->).
    exists sks, sk, [], (Node [] 0 [] true).
    split; [reflexivity|]. split; [discriminate|].
    simpl. rewrite <- app_assoc. len_simpl. repeat split; auto; lia.
  - destruct Hc as (-> & Bc & -> & Ec & Ac).
    destruct Hs as (-> & Bs & -> & Es & As).
    destruct (split_at csb (Py.len csb - 1)) as (scs & sc & r & -> & Hsc);
      [len_simpl; lia|].
    assert (r = []) by (apply len_zero_nil; len_simpl; lia). subst r.
    apply Forall_app in As. destruct As as [As1 As2].
    exists sks, sk, scs, sc.
    split; [reflexivity|]. split; [reflexivity|].
    cbn zeta. split; [|split];
      [simpl; repeat split; auto; len_simpl; try lia ..|].
    + inversion As2; subst. constructor; assumption.
    + rewrite (elems_join false sks sk [] (scs ++ [sc]) scs [sc] t t t)
        by (intros _; split; [reflexivity | len_simpl; lia]).
      simpl. rewrite <- !app_assoc. simpl. rewrite app_nil_r. reflexivity.
Qed.

(** Moving the first key (and child) of the right sibling through the
    separator. *)
Lemma borrow_next_sem h c s k :
  shaped t h (t - 1) c -> shaped t h (t - 1) s ->
  Py.len (keys c) < t -> t <= Py.len (keys s) ->
  exists sks sk scs sc,
    keys s = sk :: sks /\
    (is_leaf c = false -> children s = sc :: scs) /\
    let c' := Node (keys c ++ [k]) (min_degree c)
                (if is_leaf c then children c else children c ++ [sc])
                (is_leaf c) in
    let s' := Node sks (min_degree s)
                (if is_leaf c then children s else scs) (is_leaf s) in
    shaped t h t c' /\ shaped t h (t - 1) s' /\
    elems c ++ k :: elems s = elems c' ++ sk :: elems s'.
Proof.
  intros Hc Hs Lc Ls.
  destruct c as [kc tc cc lc], s as [ksb ts csb ls].
  cbn [keys children min_degree is_leaf] in *.
  destruct ksb as [|sk sks]; [change (Py.len (@nil Z)) with 0 in Ls; lia|].
  destruct h as [|h]; simpl in Hc, Hs.
  - destruct Hc as (-> & Bc & -> & ->). destruct Hs as (-> & Bs & -> & ->).
    exists sks, sk, [], (Node [] 0 [] true).
    split; [reflexivity|]. split; [discriminate|].
    simpl. rewrite <- app_assoc. len_simpl. repeat split; auto; lia.
  - destruct Hc as (-> & Bc & -> & Ec & Ac).
    destruct Hs as (-> & Bs & -> & Es & As).
    destruct csb as [|sc scs];
      [change (Py.len (@nil BTreeNode)) with 0 in Es; len_simpl; lia|].
    inversion As as [|? ? As1 As2]; subst.
    exists sks, sk, scs, sc.
    split; [reflexivity|]. split; [reflexivity|].
    cbn zeta. split; [|split];
      [simpl; repeat split; auto; len_simpl; try lia ..|].
    + apply Forall_app. split; [assumption | constructor; [assumption | constructor]].
    + rewrite (elems_join false kc k [] (cc ++ [sc]) cc [sc] t t t)
        by (intros _; split; [reflexivity | len_simpl; lia]).
      simpl. rewrite <- !app_assoc. simpl. rewrite app_nil_r. reflexivity.
Qed.
End NodeFacts.

(** ** Finding the child that covers a key *)

Lemma key_index_split n key :
  StronglySorted Z.le (keys n) ->
  exists ks1 ks2,
    keys n = ks1 ++ ks2 /\ get_key_index n key = Py.len ks1 /\
    Forall (fun v => v < key) ks1 /\ head_ge key ks2.
Proof.
  intros Hs. unfold get_key_index. rewrite bisect_left_sorted by assumption.
  destruct (lower_bound_split (keys n) key) as (a1 & a2 & E & L & F & G).
  exists a1, a2. repeat split; auto. unfold Py.len. rewrite L. reflexivity.
Qed.

Lemma key_at_split n ks1 ks2 key :
  keys n = ks1 ++ ks2 ->
  key_at n (Py.len ks1) key =
  Ret (match ks2 with [] => false | k :: _ => k =? key end).
Proof.
  intros E. unfold key_at. rewrite E. destruct ks2 as [|k ks2].
  - rewrite app_nil_r. rewrite Z.ltb_irrefl. reflexivity.
  - destruct (Z.ltb_spec (Py.len ks1) (Py.len (ks1 ++ k :: ks2)));
      [|len_simpl; pose proof (len_nonneg ks2); lia].
    rewrite getitem_app by reflexivity. reflexivity.
Qed.

Lemma head_ge_gt key ks2 :
  head_ge key ks2 ->
  match ks2 with [] => false | k :: _ => k =? key end = false ->
  head_gt key ks2.
Proof.
  destruct ks2 as [|k ks2]; simpl; [auto|]. intros H E.
  apply Z.eqb_neq in E. lia.
Qed.

Lemma head_gt_notin key l :
  StronglySorted Z.le l -> head_gt key l -> ~ In key l.
Proof.
  destruct l as [|v l]; simpl; [tauto|]. intros Hs Hv [E|Hin]; [lia|].
  apply sorted_bounds_r in Hs. rewrite Forall_forall in Hs.
  specialize (Hs _ Hin). lia.
Qed.

Lemma below_notin key l : Forall (fun v => v < key) l -> ~ In key l.
Proof.
  intros H Hin. rewrite Forall_forall in H. specialize (H _ Hin). lia.
Qed.

Section Zipper.
Variables (ks1 ks2 : list Z) (t : Z) (cs1 cs2 : list BTreeNode).
Variable c : BTreeNode.
Hypothesis Hlen : Py.len cs1 = Py.len ks1.

Let n := Node (ks1 ++ ks2) t (cs1 ++ c :: cs2) false.
Let P := pre (map elems cs1) ks1.
Let R := post ks2 (map elems cs2).

Hypothesis Hsorted : StronglySorted Z.le (elems n).

Lemma zip_parts :
  elems n = P ++ elems c ++ R /\
  StronglySorted Z.le P /\ StronglySorted Z.le (elems c) /\
  StronglySorted Z.le R.
Proof.
  assert (E : elems n = P ++ elems c ++ R) by (apply elems_zip; assumption).
  split; [assumption|]. rewrite E in Hsorted.
  pose proof (sorted_app_l _ _ Hsorted).
  pose proof (sorted_app_r _ _ Hsorted) as H2.
  pose proof (sorted_app_l _ _ H2). pose proof (sorted_app_r _ _ H2).
  auto.
Qed.

Lemma zip_child_sorted : StronglySorted Z.le (elems c).
Proof. apply zip_parts. Qed.

Lemma zip_replace c' :
  elems (Node (ks1 ++ ks2) t (cs1 ++ c' :: cs2) false) = P ++ elems c' ++ R.
Proof. apply elems_zip. assumption. Qed.

Variable key : Z.
Hypothesis Hbelow : Forall (fun v => v < key) ks1.

Lemma zip_below : Forall (fun v => v < key) P.
Proof.
  apply pre_below; [| apply zip_parts | assumption].
  rewrite length_map. unfold Py.len in Hlen. lia.
Qed.

Lemma zip_ins c' :
  head_ge key ks2 -> elems c' = ins key (elems c) ->
  elems (Node (ks1 ++ ks2) t (cs1 ++ c' :: cs2) false) = ins key (elems n).
Proof.
  intros Hge E. rewrite zip_replace, E.
  destruct zip_parts as (-> & _). symmetry.
  apply ins_middle; [apply zip_below | apply post_head_ge; assumption].
Qed.

Hypothesis Habove : head_gt key ks2.

Lemma zip_above : ~ In key R.
Proof.
  apply head_gt_notin; [apply zip_parts|].
  subst R. destruct ks2; simpl in *; auto.
Qed.

Lemma zip_in : In key (elems n) <-> In key (elems c).
Proof.
  destruct zip_parts as (-> & _). rewrite !in_app_iff.
  pose proof (below_notin _ _ zip_below). pose proof zip_above. tauto.
Qed.

Lemma zip_remove c' :
  elems c' = remove_one key (elems c) ->
  elems (Node (ks1 ++ ks2) t (cs1 ++ c' :: cs2) false) =
  remove_one key (elems n).
Proof.
  intros E. rewrite zip_replace, E.
  destruct zip_parts as (-> & _). symmetry.
  rewrite remove_one_app_l by (apply below_notin, zip_below). f_equal.
  destruct (in_dec Z.eq_dec key (elems c)) as [Hin|Hout].
  - apply remove_one_app_r. assumption.
  - rewrite !remove_one_notin; auto.
    rewrite in_app_iff. pose proof zip_above. tauto.
Qed.
End Zipper.

Lemma shaped_zip t h lo ks cs1 c cs2 lf :
  shaped t (S h) lo (Node ks t (cs1 ++ c :: cs2) lf) <->
  lf = false /\ lo <= Py.len ks <= 2 * t - 1 /\
  Py.len cs1 + Py.len cs2 = Py.len ks /\
  Forall (shaped t h (t - 1)) cs1 /\ shaped t h (t - 1) c /\
  Forall (shaped t h (t - 1)) cs2.
Proof.
  simpl. rewrite Forall_app, Forall_cons_iff. len_simpl.
  intuition lia.
Qed.

(** An internal node seen from the child that [get_key_index] selects. *)
Lemma locate t h lo n key :
  shaped t (S h) lo n -> StronglySorted Z.le (elems n) ->
  exists ks1 ks2 cs1 c cs2,
    n = Node (ks1 ++ ks2) t (cs1 ++ c :: cs2) false /\
    Py.len cs1 = Py.len ks1 /\
    get_key_index n key = Py.len ks1 /\
    Forall (fun v => v < key) ks1 /\ head_ge key ks2.
Proof.
  intros Hs Hsort.
  destruct (key_index_split n key) as (ks1 & ks2 & E & I & F & G).
  { eapply keys_sorted; eassumption. }
  destruct n as [ks t' cs lf]. simpl in Hs, E.
  destruct Hs as (-> & B & -> & Hc & Hall). subst ks.
  destruct (split_at cs (Py.len ks1)) as (cs1 & c & cs2 & -> & L).
  { pose proof (len_nonneg ks1). pose proof (len_nonneg ks2). len_simpl. lia. }
  exists ks1, ks2, cs1, c, cs2. repeat split; auto.
Qed.

(** ** search *)

Lemma leaf_key_notin key ks1 ks2 :
  StronglySorted Z.le (ks1 ++ ks2) ->
  Forall (fun v => v < key) ks1 -> head_gt key ks2 -> ~ In key (ks1 ++ ks2).
Proof.
  intros Hs Hb Ha Hin. apply in_app_or in Hin. destruct Hin as [Hin|Hin].
  - eapply below_notin; eassumption.
  - eapply head_gt_notin; [eapply sorted_app_r| |]; eassumption.
Qed.

Lemma search_spec t (Ht : 2 <= t) h :
  forall fuel n lo key,
    (h < fuel)%nat -> shaped t h lo n -> (h = O \/ 1 <= lo) ->
    StronglySorted Z.le (elems n) ->
    exists r, search_fuel fuel n key = Ret (r, n) /\
              (r <> None <-> In key (elems n)).
Proof.
  induction h as [|h IH]; intros fuel n lo key Hf Hs Hlo Hsort;
    (destruct fuel as [|fuel]; [lia|]); cbn [search_fuel].
  - (* leaf *)
    destruct (key_index_split n key) as (ks1 & ks2 & E & I & F & G).
    { eapply keys_sorted; eassumption. }
    destruct n as [ks t' cs lf]. simpl in Hs, E.
    destruct Hs as (-> & B & -> & ->). subst ks. simpl in Hsort.
    cbn [keys is_leaf].
    destruct (Py.is_empty (ks1 ++ ks2)) eqn:Hempty.
    { exists None. split; [reflexivity|]. simpl.
      destruct (ks1 ++ ks2); [simpl; tauto | discriminate]. }
    rewrite I. rewrite (key_at_split _ ks1 ks2) by reflexivity. cbn [bind].
    destruct (match ks2 with [] => false | k :: _ => k =? key end) eqn:Hfound.
    + eexists. split; [reflexivity|]. simpl.
      destruct ks2 as [|k ks2]; [discriminate|]. apply Z.eqb_eq in Hfound.
      subst k. split; [intros _; apply in_or_app; simpl; auto | discriminate].
    + exists None. split; [reflexivity|]. simpl.
      pose proof (head_ge_gt _ _ G Hfound) as G'.
      pose proof (leaf_key_notin _ _ _ Hsort F G'). tauto.
  - (* internal node *)
    destruct Hlo as [Hlo|Hlo]; [discriminate|].
    destruct (locate _ _ _ _ key Hs Hsort)
      as (ks1 & ks2 & cs1 & c & cs2 & -> & L & I & F & G).
    apply shaped_zip in Hs. destruct Hs as (_ & B & Hc & A1 & Sc & A2).
    cbn [keys is_leaf children].
    rewrite is_empty_len. destruct (Z.eqb_spec (Py.len (ks1 ++ ks2)) 0); [lia|].
    rewrite I. rewrite (key_at_split _ ks1 ks2) by reflexivity. cbn [bind].
    destruct (match ks2 with [] => false | k :: _ => k =? key end) eqn:Hfound.
    + eexists. split; [reflexivity|].
      destruct ks2 as [|k ks2]; [discriminate|]. apply Z.eqb_eq in Hfound.
      subst k. split; [intros _ | discriminate].
      rewrite elems_zip by assumption. simpl. rewrite !in_app_iff. simpl. auto.
    + pose proof (head_ge_gt _ _ G Hfound) as G'.
      rewrite getitem_app by auto. cbn [bind].
      destruct (IH fuel c (t - 1) key) as (r & E & Hr);
        [lia | assumption | right; lia | eapply zip_child_sorted; eassumption |].
      rewrite E. cbn [bind]. rewrite setitem_app by auto. cbn [bind].
      exists r. split; [reflexivity|]. rewrite Hr. symmetry.
      apply zip_in; assumption.
Qed.

(** ** insert_non_full *)

Lemma ins_head_ge key l : head_ge key l -> ins key l = key :: l.
Proof.
  destruct l as [|v l]; simpl; [reflexivity|]. intros H.
  destruct (Z.ltb_spec v key); [lia | reflexivity].
Qed.

Lemma snoc_below key ks k :
  Forall (fun v => v < key) ks -> k < key ->
  Forall (fun v => v < key) (ks ++ [k]).
Proof. intros. apply Forall_app. split; [assumption | repeat constructor; assumption]. Qed.

Lemma insert_non_full_spec t (Ht : 2 <= t) h :
  forall fuel n lo key,
    (h < fuel)%nat -> shaped t h lo n -> Py.len (keys n) < 2 * t - 1 ->
    StronglySorted Z.le (elems n) ->
    exists n', insert_non_full_fuel fuel n key = Ret n' /\
               shaped t h lo n' /\ elems n' = ins key (elems n).
Proof.
  induction h as [|h IH]; intros fuel n lo key Hf Hs Hroom Hsort;
    (destruct fuel as [|fuel]; [lia|]); cbn [insert_non_full_fuel].
  - (* leaf *)
    destruct (key_index_split n key) as (ks1 & ks2 & E & I & F & G).
    { eapply keys_sorted; eassumption. }
    destruct n as [ks t' cs lf]. simpl in Hs, E.
    destruct Hs as (-> & B & -> & ->). subst ks. cbn [keys is_leaf] in *.
    rewrite I. unfold set_keys. cbn [keys children min_degree is_leaf].
    rewrite insert_app by reflexivity.
    eexists. split; [reflexivity|]. split.
    + simpl. len_simpl. repeat split; auto; lia.
    + simpl. rewrite ins_app_l by assumption.
      rewrite ins_head_ge by assumption. reflexivity.
  - (* internal node *)
    destruct (locate _ _ _ _ key Hs Hsort)
      as (ks1 & ks2 & cs1 & c & cs2 & -> & L & I & F & G).
    pose proof Hs as Hs0.
    apply shaped_zip in Hs. destruct Hs as (_ & B & Hc & A1 & Sc & A2).
    cbn [keys is_leaf children] in *. rewrite I.
    rewrite getitem_app by auto. cbn [bind].
    unfold is_full. rewrite (shaped_degree _ _ _ _ Sc).
    destruct (Z.eqb_spec (Py.len (keys c)) (2 * t - 1)) as [Hfull|Hfull].
    + (* the child is full: split it and choose a side *)
      destruct (split_sem t Ht h c Sc Hfull)
        as (a & m & b & ca & cb & Ek & La & Lb & Ec & El & SL & SR & Ee).
      rewrite (split_child_zip ks1 ks2 t cs1 c cs2 false a m b ca cb)
        by assumption.
      cbn [bind keys]. rewrite getitem_app by reflexivity. cbn [bind children].
      set (cL := Node a (min_degree c) ca (is_leaf c)) in *.
      set (cR := Node b t cb (is_leaf c)) in *.
      assert (Esame : elems (Node (ks1 ++ m :: ks2) t
                               (cs1 ++ cL :: cR :: cs2) false)
                      = elems (Node (ks1 ++ ks2) t (cs1 ++ c :: cs2) false)).
      { rewrite elems_zip2, elems_zip by assumption. rewrite Ee.
        reflexivity. }
      destruct (Z.gtb_spec key m) as [Hgt|Hle].
      * (* right half *)
        replace (cs1 ++ cL :: cR :: cs2) with ((cs1 ++ [cL]) ++ cR :: cs2)
          in * by (rewrite <- app_assoc; reflexivity).
        replace (ks1 ++ m :: ks2) with ((ks1 ++ [m]) ++ ks2)
          in * by (rewrite <- app_assoc; reflexivity).
        assert (L' : Py.len (cs1 ++ [cL]) = Py.len (ks1 ++ [m]))
          by (rewrite !len_snoc; lia).
        rewrite getitem_app by (rewrite len_snoc; lia). cbn [bind].
        rewrite <- Esame in Hsort.
        destruct (IH fuel cR (t - 1) key) as (c' & E & Sc' & Ee');
          [lia | assumption | subst cR; cbn [keys]; lia
          | eapply zip_child_sorted; eassumption |].
        rewrite E. cbn [bind]. rewrite setitem_app by (rewrite len_snoc; lia).
        cbn [bind]. unfold set_children. cbn [keys min_degree is_leaf].
        eexists. split; [reflexivity|]. split.
        -- apply shaped_zip. len_simpl. repeat split; auto; try lia.
           apply Forall_app. split; [assumption | repeat constructor; assumption].
        -- rewrite <- Esame.
           apply zip_ins; auto. apply snoc_below; [assumption | lia].
      * (* left half *)
        rewrite getitem_app by auto. cbn [bind].
        rewrite <- Esame in Hsort.
        destruct (IH fuel cL (t - 1) key) as (c' & E & Sc' & Ee');
          [lia | assumption | subst cL; cbn [keys]; lia
          | eapply zip_child_sorted; eassumption |].
        rewrite E. cbn [bind]. rewrite setitem_app by auto.
        cbn [bind]. unfold set_children. cbn [keys min_degree is_leaf].
        eexists. split; [reflexivity|]. split.
        -- apply shaped_zip. len_simpl. repeat split; auto; lia.
        -- rewrite <- Esame. apply zip_ins; auto.
    + (* the child has room *)
      cbn [bind children]. rewrite getitem_app by auto. cbn [bind].
      pose proof (shaped_count _ _ _ _ Sc).
      destruct (IH fuel c (t - 1) key) as (c' & E & Sc' & Ee');
        [lia | assumption | lia | eapply zip_child_sorted; eassumption |].
      rewrite E. cbn [bind]. rewrite setitem_app by auto.
      cbn [bind]. unfold set_children. cbn [keys min_degree is_leaf].
      eexists. split; [reflexivity|]. split.
      * apply shaped_zip. repeat split; auto; lia.
      * apply zip_ins; auto.
Qed.

(** ** get_predecessor and get_successor *)

Lemma snoc_view {A} (l : list A) : l = [] \/ exists l' x, l = l' ++ [x].
Proof.
  destruct l as [|a l]; [left; reflexivity | right].
  exists (removelast (a :: l)), (last (a :: l) a).
  apply app_removelast_last. discriminate.
Qed.

Lemma split_last {A} (l : list A) :
  1 <= Py.len l -> exists l' x, l = l' ++ [x].
Proof.
  intros H. destruct (snoc_view l) as [->|E]; [|assumption].
  change (Py.len (@nil A)) with 0 in H. lia.
Qed.

Lemma get_predecessor_spec t (Ht : 2 <= t) h :
  forall fuel n lo,
    (h < fuel)%nat -> shaped t h lo n -> 1 <= lo ->
    exists p l, get_predecessor_loop fuel n = Ret p /\ elems n = l ++ [p].
Proof.
  induction h as [|h IH]; intros fuel n lo Hf Hs Hlo;
    (destruct fuel as [|fuel]; [lia|]); cbn [get_predecessor_loop];
    destruct n as [ks t' cs lf]; simpl in Hs; cbn [keys children is_leaf].
  - destruct Hs as (-> & B & -> & ->). cbn [negb].
    destruct (split_last ks) as (l & p & ->); [lia|].
    exists p, l. rewrite getitem_last. auto.
  - destruct Hs as (-> & B & -> & Hc & Hall). cbn [negb].
    destruct (split_last cs) as (cs' & c & ->);
      [pose proof (len_nonneg ks); lia|].
    rewrite getitem_last. cbn [bind].
    apply Forall_app in Hall. destruct Hall as [_ Hall].
    inversion Hall as [|? ? Sc _]; subst.
    destruct (IH fuel c (t - 1)) as (p & l & E & El); [lia | assumption | lia |].
    exists p, (pre (map elems cs') ks ++ l). split; [assumption|].
    assert (L : Py.len cs' = Py.len ks) by (rewrite len_snoc in Hc; lia).
    pose proof (elems_zip ks [] t cs' c [] L) as Ez.
    rewrite (app_nil_r ks) in Ez. rewrite Ez, El. simpl.
    rewrite app_nil_r, app_assoc. reflexivity.
Qed.

Lemma get_successor_spec t (Ht : 2 <= t) h :
  forall fuel n lo,
    (h < fuel)%nat -> shaped t h lo n -> 1 <= lo ->
    exists p l, get_successor_loop fuel n = Ret p /\ elems n = p :: l.
Proof.
  induction h as [|h IH]; intros fuel n lo Hf Hs Hlo;
    (destruct fuel as [|fuel]; [lia|]); cbn [get_successor_loop];
    destruct n as [ks t' cs lf]; simpl in Hs; cbn [keys children is_leaf].
  - destruct Hs as (-> & B & -> & ->). cbn [negb].
    destruct ks as [|p l]; [len_simpl; lia|].
    exists p, l. rewrite getitem_head. auto.
  - destruct Hs as (-> & B & -> & Hc & Hall). cbn [negb].
    destruct cs as [|c cs]; [len_simpl; pose proof (len_nonneg ks); lia|].
    rewrite getitem_head. cbn [bind].
    inversion Hall as [|? ? Sc _]; subst.
    destruct (IH fuel c (t - 1)) as (p & l & E & El); [lia | assumption | lia |].
    exists p, (l ++ post ks (map elems cs)). split; [assumption|].
    simpl. rewrite El. reflexivity.
Qed.

(** ** fill *)

Lemma in_keys_elems t h lo n k :
  shaped t h lo n -> In k (keys n) -> In k (elems n).
Proof.
  destruct n as [ks t' cs lf]. destruct h; simpl.
  - intros (_ & _ & -> & _) H. assumption.
  - intros (_ & _ & -> & E & _) H. apply in_keys_inter; [|assumption].
    rewrite length_map. unfold Py.len in E. lia.
Qed.

Lemma can_lend_zip ks t cs1 s cs2 lf i :
  i = Py.len cs1 ->
  can_lend (Node ks t (cs1 ++ s :: cs2) lf) true i =
  Ret (t <=? Py.len (keys s)).
Proof.
  intros E. unfold can_lend. cbn [children min_degree].
  rewrite getitem_app by assumption. reflexivity.
Qed.

Section Fill.
Variable t : Z.
Hypothesis Ht : 2 <= t.
Variables (h : nat) (lo : Z).

Lemma fill_prev ks1 k ks2 cs1 s c cs2 :
  let n := Node ((ks1 ++ [k]) ++ ks2) t ((cs1 ++ [s]) ++ c :: cs2) false in
  shaped t (S h) lo n -> Py.len cs1 = Py.len ks1 ->
  Py.len (keys c) < t -> t <= Py.len (keys s) ->
  StronglySorted Z.le (elems n) ->
  exists n', borrow_from_prev n (Py.len (ks1 ++ [k])) = Ret n' /\
             filled t h lo n (ks1 ++ [k]) ks2 n'.
Proof.
  intros n Hs L Lc Ls Hsort. subst n.
  assert (E1 : (ks1 ++ [k]) ++ ks2 = ks1 ++ k :: ks2)
    by (rewrite <- app_assoc; reflexivity).
  assert (E2 : (cs1 ++ [s]) ++ c :: cs2 = cs1 ++ s :: c :: cs2)
    by (rewrite <- app_assoc; reflexivity).
  rewrite E1, E2 in *.
  apply shaped_zip in Hs. destruct Hs as (_ & B & Hc & A1 & Ss & A2).
  inversion A2 as [|? ? Sc A3]; subst.
  destruct (borrow_prev_sem t Ht h s c k Ss Sc Ls Lc)
    as (sks & sk & scs & sc & Ek & Ech & Ss' & Sc' & Ee).
  rewrite len_snoc.
  rewrite (borrow_from_prev_zip ks1 k ks2 t cs1 s c cs2 false sks sk scs sc)
    by assumption.
  set (s' := Node sks (min_degree s)
               (if is_leaf c then children s else scs) (is_leaf s)) in *.
  set (c' := Node (k :: keys c) (min_degree c)
               (if is_leaf c then children c else sc :: children c)
               (is_leaf c)) in *.
  eexists. split; [reflexivity|].
  assert (Esame : elems (Node (ks1 ++ sk :: ks2) t
                           (cs1 ++ s' :: c' :: cs2) false)
                  = elems (Node (ks1 ++ k :: ks2) t
                             (cs1 ++ s :: c :: cs2) false)).
  { rewrite !elems_zip2 by assumption. rewrite Ee. reflexivity. }
  assert (Hle : sk <= k).
  { rewrite <- Esame in Hsort. rewrite elems_zip2 in Hsort by assumption.
    rewrite <- app_assoc in Hsort.
    assert (Hin : In k (elems c')).
    { eapply in_keys_elems; [eassumption|]. subst c'. simpl. auto. }
    apply sorted_app_r in Hsort. apply sorted_app_r in Hsort.
    simpl in Hsort. apply sorted_bounds_r in Hsort.
    rewrite Forall_forall in Hsort. apply Hsort.
    apply in_or_app. auto. }
  exists (ks1 ++ [sk]), ks2, (cs1 ++ [s']), c', cs2.
  rewrite <- !app_assoc. cbn [app].
  split; [reflexivity|]. split; [rewrite !len_snoc; lia|].
  split; [|split; [assumption|split; [assumption|split]]].
  - apply shaped_zip. len_simpl. repeat split; auto; try lia.
    constructor; [|assumption]. eapply shaped_weaken; [|eassumption]. lia.
  - rewrite !len_snoc.
    destruct (Z.gtb_spec (Py.len ks1 + 1) (Py.len (ks1 ++ sk :: ks2)));
      [len_simpl; pose proof (len_nonneg ks2); lia|].
    rewrite andb_false_r. reflexivity.
  - intros key F G. split; [|assumption].
    apply Forall_app in F. destruct F as [F1 F2].
    inversion F2; subst. apply snoc_below; [assumption | lia].
Qed.
Lemma fill_next ks1 k ks2 cs1 c s cs2 :
  let n := Node (ks1 ++ k :: ks2) t (cs1 ++ c :: s :: cs2) false in
  shaped t (S h) lo n -> Py.len cs1 = Py.len ks1 ->
  Py.len (keys c) < t -> t <= Py.len (keys s) ->
  StronglySorted Z.le (elems n) ->
  exists n', borrow_from_next n (Py.len ks1) = Ret n' /\
             filled t h lo n ks1 (k :: ks2) n'.
Proof.
  intros n Hs L Lc Ls Hsort. subst n.
  apply shaped_zip in Hs. destruct Hs as (_ & B & Hc & A1 & Sc & A2).
  inversion A2 as [|? ? Ss A3]; subst.
  destruct (borrow_next_sem t Ht h c s k Sc Ss Lc Ls)
    as (sks & sk & scs & sc & Ek & Ech & Sc' & Ss' & Ee).
  rewrite (borrow_from_next_zip ks1 k ks2 t cs1 c s cs2 false sks sk scs sc)
    by assumption.
  set (c' := Node (keys c ++ [k]) (min_degree c)
               (if is_leaf c then children c else children c ++ [sc])
               (is_leaf c)) in *.
  set (s' := Node sks (min_degree s)
               (if is_leaf c then children s else scs) (is_leaf s)) in *.
  eexists. split; [reflexivity|].
  assert (Esame : elems (Node (ks1 ++ sk :: ks2) t
                           (cs1 ++ c' :: s' :: cs2) false)
                  = elems (Node (ks1 ++ k :: ks2) t
                             (cs1 ++ c :: s :: cs2) false)).
  { rewrite !elems_zip2 by assumption. rewrite Ee. reflexivity. }
  assert (Hle : k <= sk).
  { rewrite <- Esame in Hsort. rewrite elems_zip2 in Hsort by assumption.
    assert (Hin : In k (elems c')).
    { eapply in_keys_elems; [eassumption|]. subst c'. simpl.
      apply in_or_app. simpl. auto. }
    apply sorted_app_r in Hsort. apply sorted_app_l in Hsort.
    apply sorted_app in Hsort. destruct Hsort as (_ & _ & Hsort).
    apply Hsort; simpl; auto. }
  exists ks1, (sk :: ks2), cs1, c', (s' :: cs2).
  split; [reflexivity|]. split; [assumption|].
  split; [|split; [assumption|split; [assumption|split]]].
  - apply shaped_zip. len_simpl. repeat split; auto; try lia;
      try (eapply shaped_weaken; [|eassumption]; lia).
  - destruct (Z.eqb_spec (Py.len ks1) (Py.len (ks1 ++ k :: ks2)));
      [len_simpl; pose proof (len_nonneg ks2); lia|].
    reflexivity.
  - intros key F G. split; [assumption|]. simpl in *. lia.
Qed.

Lemma fill_merge ks1 k ks2 cs1 c s cs2 :
  let n := Node (ks1 ++ k :: ks2) t (cs1 ++ c :: s :: cs2) false in
  shaped t (S h) lo n -> Py.len cs1 = Py.len ks1 ->
  Py.len (keys c) < t -> Py.len (keys s) < t ->
  StronglySorted Z.le (elems n) ->
  exists n', merge n (Py.len ks1) = Ret n' /\
             filled t h lo n ks1 (k :: ks2) n'.
Proof.
  intros n Hs L Lc Ls Hsort. subst n.
  pose proof (keys_sorted _ _ _ _ Hs Hsort) as Hks. cbn [keys] in Hks.
  apply shaped_zip in Hs. destruct Hs as (_ & B & Hc & A1 & Sc & A2).
  inversion A2 as [|? ? Ss A3]; subst.
  destruct (merge_sem t Ht h c s k Sc Ss Lc Ls) as (Sm & Em).
  rewrite merge_zip by assumption.
  set (m := Node (keys c ++ k :: keys s) (min_degree c)
              (if is_leaf c then children c else children c ++ children s)
              (is_leaf c)) in *.
  eexists. split; [reflexivity|].
  exists ks1, ks2, cs1, m, cs2.
  split; [reflexivity|]. split; [assumption|].
  split; [|split; [assumption|split; [|split]]].
  - apply shaped_zip. len_simpl. repeat split; auto; try lia;
      try (eapply shaped_weaken; [|eassumption]; lia).
  - rewrite elems_zip, elems_zip2 by assumption. rewrite Em. reflexivity.
  - destruct (Z.eqb_spec (Py.len ks1) (Py.len (ks1 ++ k :: ks2)));
      [len_simpl; pose proof (len_nonneg ks2); lia|].
    reflexivity.
  - intros key F G. split; [assumption|].
    apply sorted_app_r in Hks. apply sorted_bounds_r in Hks.
    destruct ks2 as [|k2 ks2]; simpl in *; [auto|].
    inversion Hks; subst. lia.
Qed.

Lemma fill_merge_last ks1 k cs1 s c :
  let n := Node ((ks1 ++ [k]) ++ []) t ((cs1 ++ [s]) ++ [c]) false in
  shaped t (S h) lo n -> Py.len cs1 = Py.len ks1 ->
  Py.len (keys c) < t -> Py.len (keys s) < t ->
  StronglySorted Z.le (elems n) ->
  exists n', merge n (Py.len (ks1 ++ [k]) - 1) = Ret n' /\
             filled t h lo n (ks1 ++ [k]) [] n'.
Proof.
  intros n Hs L Lc Ls Hsort. subst n.
  assert (E1 : (ks1 ++ [k]) ++ [] = ks1 ++ k :: [])
    by (rewrite <- app_assoc; reflexivity).
  assert (E2 : (cs1 ++ [s]) ++ [c] = cs1 ++ s :: c :: [])
    by (rewrite <- app_assoc; reflexivity).
  rewrite E1, E2 in *.
  apply shaped_zip in Hs. destruct Hs as (_ & B & Hc & A1 & Ss & A2).
  inversion A2 as [|? ? Sc A3]; subst.
  destruct (merge_sem t Ht h s c k Ss Sc Ls Lc) as (Sm & Em).
  replace (Py.len (ks1 ++ [k]) - 1) with (Py.len ks1)
    by (rewrite len_snoc; lia).
  rewrite merge_zip by assumption.
  set (m := Node (keys s ++ k :: keys c) (min_degree s)
              (if is_leaf s then children s else children s ++ children c)
              (is_leaf s)) in *.
  eexists. split; [reflexivity|].
  exists ks1, [], cs1, m, [].
  split; [reflexivity|]. split; [assumption|].
  split; [|split; [assumption|split; [|split]]].
  - apply shaped_zip. len_simpl. repeat split; auto; try lia;
      try (eapply shaped_weaken; [|eassumption]; lia).
  - rewrite elems_zip, elems_zip2 by assumption. rewrite Em. reflexivity.
  - rewrite !app_nil_r. rewrite Z.eqb_refl.
    destruct (Z.gtb_spec (Py.len (ks1 ++ [k])) (Py.len ks1));
      [|rewrite len_snoc in *; lia].
    rewrite len_snoc. simpl. lia.
  - intros key F G. split; [|exact I].
    apply Forall_app in F. tauto.
Qed.

(** [fill] on a child that is short of keys. *)
Lemma fill_spec ks1 ks2 cs1 c cs2 :
  let n := Node (ks1 ++ ks2) t (cs1 ++ c :: cs2) false in
  shaped t (S h) lo n -> 1 <= lo -> Py.len cs1 = Py.len ks1 ->
  Py.len (keys c) < t ->
  StronglySorted Z.le (elems n) ->
  exists n', fill n (Py.len ks1) = Ret n' /\ filled t h lo n ks1 ks2 n'.
Proof.
  intros n Hs Hlo L Lc Hsort. subst n. unfold fill.
  pose proof Hs as Hs0.
  apply shaped_zip in Hs. destruct Hs as (_ & B & Hc & A1 & Sc & A2).
  cbn [keys].
  (* the left sibling, if there is one *)
  destruct (snoc_view ks1) as [->|(ks1a & k & ->)].
  - (* no left sibling *)
    assert (cs1 = []) by (apply len_zero_nil; assumption). subst cs1.
    change (Py.len (@nil Z)) with 0. cbn [negb Z.eqb can_lend bind app].
    destruct ks2 as [|k ks2]; [len_simpl; lia|].
    destruct cs2 as [|s cs2]; [len_simpl; pose proof (len_nonneg ks2); lia|].
    destruct (Z.eqb_spec 0 (Py.len (k :: ks2)));
      [len_simpl; pose proof (len_nonneg ks2); lia|].
    cbn [negb].
    rewrite (can_lend_zip _ t [c] s cs2 false) by reflexivity.
    cbn [bind]. inversion A2 as [|? ? Ss A3]; subst.
    destruct (Z.leb_spec t (Py.len (keys s))).
    + apply (fill_next [] k ks2 [] c s cs2); auto.
    + apply (fill_merge [] k ks2 [] c s cs2); auto.
  - destruct (snoc_view cs1) as [->|(cs1a & s & ->)];
      [rewrite len_snoc in L; change (Py.len (@nil BTreeNode)) with 0 in L;
       pose proof (len_nonneg ks1a); lia|].
    assert (La : Py.len cs1a = Py.len ks1a) by (rewrite !len_snoc in L; lia).
    apply Forall_app in A1. destruct A1 as [A1 As].
    inversion As as [|? ? Ss _]; subst.
    destruct (Z.eqb_spec (Py.len (ks1a ++ [k])) 0);
      [rewrite len_snoc in *; pose proof (len_nonneg ks1a); lia|].
    cbn [negb].
    replace ((cs1a ++ [s]) ++ c :: cs2) with (cs1a ++ s :: c :: cs2)
      by (rewrite <- app_assoc; reflexivity).
    rewrite (can_lend_zip _ t cs1a s (c :: cs2) false)
      by (rewrite len_snoc; lia).
    replace (cs1a ++ s :: c :: cs2) with ((cs1a ++ [s]) ++ c :: cs2)
      by (rewrite <- app_assoc; reflexivity).
    cbn [bind].
    destruct (Z.leb_spec t (Py.len (keys s))).
    + apply fill_prev; auto.
    + (* the right sibling, if there is one *)
      destruct ks2 as [|k2 ks2].
      * assert (cs2 = []).
        { apply len_zero_nil. len_simpl. pose proof (len_nonneg cs2). lia. }
        subst cs2.
        destruct (Z.eqb_spec (Py.len (ks1a ++ [k]))
                    (Py.len ((ks1a ++ [k]) ++ [])));
          [|rewrite app_nil_r in *; lia].
        cbn [negb can_lend bind].
        apply fill_merge_last; auto.
      * destruct cs2 as [|s2 cs2];
          [len_simpl; pose proof (len_nonneg ks2); lia|].
        destruct (Z.eqb_spec (Py.len (ks1a ++ [k]))
                    (Py.len ((ks1a ++ [k]) ++ k2 :: ks2)));
          [len_simpl; pose proof (len_nonneg ks2); lia|].
        cbn [negb].
        replace ((cs1a ++ [s]) ++ c :: s2 :: cs2)
          with (((cs1a ++ [s]) ++ [c]) ++ s2 :: cs2)
          by (rewrite <- !app_assoc; reflexivity).
        rewrite (can_lend_zip _ t ((cs1a ++ [s]) ++ [c]) s2 cs2 false)
          by (rewrite !len_snoc; lia).
        replace (((cs1a ++ [s]) ++ [c]) ++ s2 :: cs2)
          with ((cs1a ++ [s]) ++ c :: s2 :: cs2)
          by (rewrite <- !app_assoc; reflexivity).
        cbn [bind]. inversion A2 as [|? ? Ss2 A3]; subst.
        destruct (Z.leb_spec t (Py.len (keys s2))).
        -- apply fill_next; auto.
        -- apply fill_merge; auto.
Qed.
End Fill.

(** ** Deletion below a node *)

Lemma shaped_strengthen t h lo lo' n :
  lo' <= Py.len (keys n) -> shaped t h lo n -> shaped t h lo' n.
Proof.
  intros Hlo. destruct h; simpl; intros (H1 & H2 & H3);
    (split; [assumption | split; [lia | assumption]]).
Qed.

Section Delete.
Variable t : Z.
Hypothesis Ht : 2 <= t.
Variables (strict : bool) (h : nat).
Variable del : BTreeNode -> Z -> result BTreeNode.
Hypothesis Hdel : deletes strict t h del.

Lemma descend_spec lo ks1 ks2 cs1 c cs2 key :
  let n := Node (ks1 ++ ks2) t (cs1 ++ c :: cs2) false in
  shaped t (S h) lo n -> 1 <= lo -> Py.len cs1 = Py.len ks1 ->
  StronglySorted Z.le (elems n) ->
  Forall (fun v => v < key) ks1 -> head_gt key ks2 ->
  (strict = true -> In key (elems n)) ->
  exists n', descend del n (Py.len ks1) key = Ret n' /\
             shaped t (S h) (lo - 1) n' /\
             elems n' = remove_one key (elems n).
Proof.
  intros n Hs Hlo L Hsort F G Hin.
  assert (Hfill : exists n1,
             (if Py.len (keys c) <? min_degree n
              then fill n (Py.len ks1) else Ret n) = Ret n1 /\
             filled t h lo n ks1 ks2 n1).
  { subst n. cbn [min_degree]. destruct (Z.ltb_spec (Py.len (keys c)) t).
    - apply fill_spec; assumption.
    - eexists. split; [reflexivity|].
      pose proof Hs as Hs0. apply shaped_zip in Hs.
      destruct Hs as (_ & B & Hc & A1 & Sc & A2).
      exists ks1, ks2, cs1, c, cs2.
      split; [reflexivity|]. split; [assumption|].
      split; [eapply shaped_weaken; [|eassumption]; lia|].
      split; [eapply shaped_strengthen; eassumption|].
      split; [reflexivity|]. split; [|auto].
      destruct (Z.gtb_spec (Py.len ks1) (Py.len (ks1 ++ ks2)));
        [len_simpl; pose proof (len_nonneg ks2); lia|].
      rewrite andb_false_r. reflexivity. }
  destruct Hfill as (n1 & E1 & ks1' & ks2' & cs1' & c' & cs2'
                     & -> & L' & S1 & Sc' & Esame & Eidx & Hkey).
  destruct (Hkey key F G) as [F' G'].
  unfold descend. subst n. cbn [keys children].
  rewrite getitem_app by auto. cbn [bind]. rewrite E1. cbn [bind keys children].
  rewrite Eidx. rewrite getitem_app by auto. cbn [bind].
  rewrite <- Esame in Hsort, Hin |- *.
  destruct (Hdel c' t key) as (c'' & E & Sc'' & Ee).
  { assumption. }
  { right. lia. }
  { eapply zip_child_sorted; eassumption. }
  { intros Hst. eapply zip_in; eauto. }
  rewrite E. cbn [bind]. rewrite setitem_app by auto. cbn [bind].
  unfold set_children. cbn [keys min_degree is_leaf].
  eexists. split; [reflexivity|]. split.
  - apply shaped_zip in S1. apply shaped_zip. tauto.
  - apply zip_remove; assumption.
Qed.

Lemma remove_from_non_leaf_spec lo ks1 key ks2 cs1 c cs2 :
  let n := Node (ks1 ++ key :: ks2) t (cs1 ++ c :: cs2) false in
  shaped t (S h) lo n -> 1 <= lo -> Py.len cs1 = Py.len ks1 ->
  StronglySorted Z.le (elems n) ->
  exists n', remove_from_non_leaf del n (Py.len ks1) = Ret n' /\
             shaped t (S h) (lo - 1) n' /\
             elems n' = remove_one key (elems n).
Proof.
  intros n Hs Hlo L Hsort. subst n.
  pose proof Hs as Hs0. apply shaped_zip in Hs.
  destruct Hs as (_ & B & Hc & A1 & Sc & A2).
  destruct cs2 as [|s cs2]; [len_simpl; pose proof (len_nonneg ks2); lia|].
  inversion A2 as [|? ? Ss A3]; subst.
  pose proof Hsort as Hsort0.
  rewrite elems_zip2 in Hsort by assumption.
  set (P := pre (map elems cs1) ks1) in *.
  set (R := post ks2 (map elems cs2)) in *.
  assert (Erem : remove_one key (P ++ (elems c ++ key :: elems s) ++ R)
                 = P ++ (elems c ++ elems s) ++ R).
  { replace (P ++ (elems c ++ key :: elems s) ++ R)
      with ((P ++ elems c) ++ key :: (elems s ++ R)) in *
      by (rewrite <- !app_assoc; reflexivity).
    rewrite remove_one_any by assumption.
    rewrite <- !app_assoc. reflexivity. }
  pose proof (sorted_app_l _ _ (sorted_app_r _ _ Hsort)) as Hmid.
  pose proof (sorted_app_l _ _ Hmid) as Hsc.
  pose proof (sorted_cons_inv _ _ (sorted_app_r _ _ Hmid)) as Hss.
  unfold remove_from_non_leaf. cbn [keys children min_degree is_leaf].
  rewrite getitem_app by reflexivity. cbn [bind].
  rewrite getitem_app by auto. cbn [bind].
  destruct (Z.leb_spec t (Py.len (keys c))) as [Lc|Lc].
  - (* the predecessor replaces the key *)
    destruct (get_predecessor_spec t Ht h (height c) c t)
      as (p & l & Ep & El);
      [rewrite (shaped_height _ _ _ _ Sc); lia
      | eapply shaped_strengthen; eassumption | lia |].
    unfold get_predecessor. rewrite Ep. cbn [bind].
    rewrite setitem_app by reflexivity. cbn [bind].
    destruct (Hdel c t p) as (c' & E & Sc' & Ee).
    { eapply shaped_strengthen; eassumption. }
    { right. lia. }
    { assumption. }
    { intros _. rewrite El. apply in_or_app. simpl. auto. }
    rewrite E. cbn [bind]. rewrite setitem_app by auto. cbn [bind].
    eexists. split; [reflexivity|]. split.
    + apply shaped_zip. len_simpl. repeat split; auto; lia.
    + rewrite !elems_zip2 by assumption. fold P R. rewrite Erem, Ee.
      rewrite El in *. rewrite remove_one_last by assumption.
      rewrite <- !app_assoc. reflexivity.
  - replace (cs1 ++ c :: s :: cs2) with ((cs1 ++ [c]) ++ s :: cs2)
      by (rewrite <- app_assoc; reflexivity).
    rewrite getitem_app by (rewrite len_snoc; lia). cbn [bind].
    destruct (Z.leb_spec t (Py.len (keys s))) as [Ls|Ls].
    + (* the successor replaces the key *)
      destruct (get_successor_spec t Ht h (height s) s t)
        as (p & l & Ep & El);
        [rewrite (shaped_height _ _ _ _ Ss); lia
        | eapply shaped_strengthen; eassumption | lia |].
      unfold get_successor. rewrite Ep. cbn [bind].
      rewrite setitem_app by reflexivity. cbn [bind].
      destruct (Hdel s t p) as (s' & E & Ss' & Ee).
      { eapply shaped_strengthen; eassumption. }
      { right. lia. }
      { assumption. }
      { intros _. rewrite El. simpl. auto. }
      rewrite E. cbn [bind].
      rewrite setitem_app by (rewrite len_snoc; lia). cbn [bind].
      rewrite <- !app_assoc. cbn [app].
      eexists. split; [reflexivity|]. split.
      * apply shaped_zip. len_simpl. repeat split; auto; lia.
      * rewrite !elems_zip2 by assumption. fold P R. rewrite Erem, Ee.
        rewrite El. simpl. rewrite Z.eqb_refl. reflexivity.
    + (* both children are minimal: merge and go down *)
      rewrite <- !app_assoc. cbn [app].
      destruct (merge_sem t Ht h c s key Sc Ss Lc Ls) as (Sm & Em).
      rewrite merge_zip by assumption. cbn [bind children].
      set (m := Node (keys c ++ key :: keys s) (min_degree c)
                  (if is_leaf c then children c
                   else children c ++ children s) (is_leaf c)) in *.
      rewrite getitem_app by auto. cbn [bind].
      destruct (Hdel m t key) as (m' & E & Sm' & Ee).
      { assumption. }
      { right. lia. }
      { rewrite Em. assumption. }
      { intros _. rewrite Em. apply in_or_app. simpl. auto. }
      rewrite E. cbn [bind]. rewrite setitem_app by auto. cbn [bind].
      unfold set_children. cbn [keys min_degree is_leaf].
      eexists. split; [reflexivity|]. split.
      * apply shaped_zip. len_simpl. repeat split; auto; lia.
      * rewrite elems_zip, elems_zip2 by assumption. fold P R.
        rewrite Erem, Ee, Em. rewrite remove_one_any by exact Hmid.
        reflexivity.
Qed.
End Delete.

(** ** The deleting methods of the two files *)

Lemma remove_from_leaf_spec t lo ks1 key ks2 :
  let n := Node (ks1 ++ key :: ks2) t [] true in
  shaped t 0 lo n -> StronglySorted Z.le (elems n) ->
  exists n', remove_from_leaf n (Py.len ks1) = Ret n' /\
             shaped t 0 (lo - 1) n' /\ elems n' = remove_one key (elems n).
Proof.
  intros n Hs Hsort. subst n. unfold remove_from_leaf. cbn [keys].
  rewrite pop_app by reflexivity. cbn [bind]. unfold set_keys.
  cbn [keys children min_degree is_leaf].
  eexists. split; [reflexivity|]. simpl in *. split.
  - destruct Hs as (_ & B & _). len_simpl. repeat split; auto; lia.
  - symmetry. apply remove_one_any. assumption.
Qed.

Lemma pkg_delete_internal_spec t (Ht : 2 <= t) h :
  forall fuel, (h < fuel)%nat -> deletes true t h (Pkg._delete_internal fuel).
Proof.
  induction h as [|h IH]; intros fuel Hf n lo key Hs Hlo Hsort Hin;
    (destruct fuel as [|fuel]; [lia|]); cbn [Pkg._delete_internal].
  - destruct (key_index_split n key) as (ks1 & ks2 & E & I & F & G).
    { eapply keys_sorted; eassumption. }
    destruct n as [ks t' cs lf]. pose proof Hs as Hs0. simpl in Hs, E.
    destruct Hs as (-> & B & -> & ->). subst ks.
    rewrite I, (key_at_split _ ks1 ks2) by reflexivity. cbn [bind is_leaf].
    destruct (match ks2 with [] => false | k :: _ => k =? key end) eqn:Hfound.
    + destruct ks2 as [|k ks2]; [discriminate|]. apply Z.eqb_eq in Hfound.
      subst k. apply remove_from_leaf_spec; assumption.
    + exfalso. simpl in Hsort, Hin.
      eapply leaf_key_notin; eauto using head_ge_gt.
  - destruct Hlo as [Hlo|Hlo]; [discriminate|].
    destruct (locate _ _ _ _ key Hs Hsort)
      as (ks1 & ks2 & cs1 & c & cs2 & -> & L & I & F & G).
    rewrite I, (key_at_split _ ks1 ks2) by reflexivity. cbn [bind is_leaf].
    destruct (match ks2 with [] => false | k :: _ => k =? key end) eqn:Hfound.
    + destruct ks2 as [|k ks2]; [discriminate|]. apply Z.eqb_eq in Hfound.
      subst k. eapply remove_from_non_leaf_spec; eauto. apply IH. lia.
    + eapply descend_spec; eauto using head_ge_gt. apply IH. lia.
Qed.

(** Without the search up front, a key that is not in a leaf makes
    [_delete_internal] read a child of the leaf: IndexError. *)
Lemma pkg_delete_internal_leaf_miss fuel ks t key :
  StronglySorted Z.le ks -> ~ In key ks ->
  Pkg._delete_internal (S fuel) (Node ks t [] true) key = Raise IndexError.
Proof.
  intros Hs Hout. cbn [Pkg._delete_internal].
  destruct (key_index_split (Node ks t [] true) key Hs)
    as (ks1 & ks2 & E & I & F & G).
  cbn [keys] in E. subst ks.
  rewrite I, (key_at_split _ ks1 ks2) by reflexivity. cbn [bind].
  destruct ks2 as [|k ks2].
  - unfold descend. cbn [children]. rewrite getitem_nil. reflexivity.
  - destruct (Z.eqb_spec k key) as [->|Hne].
    + exfalso. apply Hout. apply in_or_app. simpl. auto.
    + unfold descend. cbn [children]. rewrite getitem_nil. reflexivity.
Qed.

Lemma script_node_delete_spec t (Ht : 2 <= t) h :
  forall fuel,
    (h < fuel)%nat -> deletes false t h (Script.node_delete_fuel fuel).
Proof.
  induction h as [|h IH]; intros fuel Hf n lo key Hs Hlo Hsort Hin;
    (destruct fuel as [|fuel]; [lia|]); cbn [Script.node_delete_fuel].
  - destruct (key_index_split n key) as (ks1 & ks2 & E & I & F & G).
    { eapply keys_sorted; eassumption. }
    destruct n as [ks t' cs lf]. pose proof Hs as Hs0. simpl in Hs, E.
    destruct Hs as (-> & B & -> & ->). subst ks.
    rewrite I, (key_at_split _ ks1 ks2) by reflexivity. cbn [bind is_leaf].
    destruct (match ks2 with [] => false | k :: _ => k =? key end) eqn:Hfound.
    + destruct ks2 as [|k ks2]; [discriminate|]. apply Z.eqb_eq in Hfound.
      subst k. apply remove_from_leaf_spec; assumption.
    + eexists. split; [reflexivity|]. split.
      * eapply shaped_weaken; [|eassumption]. lia.
      * simpl in *. symmetry. apply remove_one_notin.
        eapply leaf_key_notin; eauto using head_ge_gt.
  - destruct Hlo as [Hlo|Hlo]; [discriminate|].
    destruct (locate _ _ _ _ key Hs Hsort)
      as (ks1 & ks2 & cs1 & c & cs2 & -> & L & I & F & G).
    rewrite I, (key_at_split _ ks1 ks2) by reflexivity. cbn [bind is_leaf].
    destruct (match ks2 with [] => false | k :: _ => k =? key end) eqn:Hfound.
    + destruct ks2 as [|k ks2]; [discriminate|]. apply Z.eqb_eq in Hfound.
      subst k. eapply remove_from_non_leaf_spec; eauto. apply IH. lia.
    + eapply descend_spec; eauto using head_ge_gt. apply IH. lia.
Qed.

(** ** traverse *)

Lemma traverse_children_spec cs :
  Forall (fun c => traverse c = Ret (elems c, c)) cs ->
  forall ks, length cs = S (length ks) ->
    traverse_children traverse ks cs = Ret (inter (map elems cs) ks, cs).
Proof.
  induction 1 as [|c cs Hc Hcs IH]; intros ks E; [discriminate|].
  cbn [traverse_children]. rewrite Hc. cbn [bind].
  destruct ks as [|k ks].
  - destruct cs; [|discriminate]. simpl. rewrite app_nil_r. reflexivity.
  - fold (traverse_children traverse). rewrite IH by (simpl in E; lia).
    reflexivity.
Qed.

Lemma traverse_spec t h :
  forall lo n, shaped t h lo n -> traverse n = Ret (elems n, n).
Proof.
  induction h as [|h IH]; intros lo [ks t' cs lf] Hs; simpl in Hs.
  - destruct Hs as (_ & _ & -> & _). reflexivity.
  - destruct Hs as (_ & _ & -> & E & Hall). cbn [traverse].
    rewrite traverse_children_spec.
    + reflexivity.
    + rewrite Forall_forall in *. intros c Hc. eapply IH. eauto.
    + unfold Py.len in E. lia.
Qed.

(** ** The root *)

Lemma root_lo_bounds h : 0 <= root_lo h <= 1.
Proof. destruct h; simpl; lia. Qed.

Lemma root_child_ok t (Ht : 2 <= t) h c :
  shaped t h (t - 1) c -> shaped t h (root_lo h) c.
Proof.
  intros H. eapply shaped_weaken; [|eassumption].
  pose proof (root_lo_bounds h). lia.
Qed.

(** Splitting a full root under a new, empty internal root. *)
Lemma root_split_spec t (Ht : 2 <= t) h r :
  shaped t h (root_lo h) r -> Py.len (keys r) = 2 * t - 1 ->
  exists m cL cR,
    split_child (Node [] t [r] false) 0 = Ret (Node [m] t [cL; cR] false) /\
    Py.len (keys cL) = t - 1 /\ Py.len (keys cR) = t - 1 /\
    shaped t h (t - 1) cL /\ shaped t h (t - 1) cR /\
    shaped t (S h) 1 (Node [m] t [cL; cR] false) /\
    elems (Node [m] t [cL; cR] false) = elems r.
Proof.
  intros Hs Hfull.
  assert (Hs' : shaped t h (t - 1) r)
    by (eapply shaped_strengthen; [|eassumption]; lia).
  destruct (split_sem t Ht h r Hs' Hfull)
    as (a & m & b & ca & cb & Ek & La & Lb & Ec & El & SL & SR & Ee).
  set (cL := Node a (min_degree r) ca (is_leaf r)) in *.
  set (cR := Node b t cb (is_leaf r)) in *.
  exists m, cL, cR. split.
  - apply (split_child_zip [] [] t [] r [] false a m b ca cb); auto.
  - split; [exact La|]. split; [exact Lb|].
    split; [assumption|]. split; [assumption|]. split.
    + apply (shaped_zip t h 1 [m] [] cL [cR] false). len_simpl.
      repeat split; auto; try lia.
    + cbn [elems map inter]. rewrite app_nil_r. symmetry. assumption.
Qed.

Lemma insert_non_full_ok t (Ht : 2 <= t) h lo n key :
  shaped t h lo n -> Py.len (keys n) < 2 * t - 1 ->
  StronglySorted Z.le (elems n) ->
  exists n', insert_non_full n key = Ret n' /\ shaped t h lo n' /\
             elems n' = ins key (elems n).
Proof.
  intros Hs Hroom Hsort. unfold insert_non_full.
  apply (insert_non_full_spec t Ht h); auto.
  rewrite (shaped_height _ _ _ _ Hs). lia.
Qed.

Lemma is_full_shaped t h lo n :
  shaped t h lo n -> is_full n = (Py.len (keys n) =? 2 * t - 1).
Proof. intros Hs. unfold is_full. rewrite (shaped_degree _ _ _ _ Hs). reflexivity. Qed.

Lemma pkg_init_ok t :
  2 <= t ->
  exists tr, Pkg.init t = Ret tr /\ tree_ok tr /\ tree_min_degree tr = t /\
             elems (root tr) = [].
Proof.
  intros Ht. unfold Pkg.init. destruct (Z.ltb_spec t 2); [lia|].
  eexists. split; [reflexivity|]. unfold tree_ok. simpl.
  repeat split; auto; try constructor.
  exists O. simpl. len_simpl. repeat split; auto; lia.
Qed.

Lemma script_init_eq t : Script.init t = Pkg.init t.
Proof. reflexivity. Qed.

Lemma pkg_insert_ok tr key :
  tree_ok tr ->
  exists tr', Pkg.insert tr key = Ret tr' /\ tree_ok tr' /\
              tree_min_degree tr' = tree_min_degree tr /\
              elems (root tr') = ins key (elems (root tr)).
Proof.
  destruct tr as [r t]. unfold tree_ok. cbn [root tree_min_degree].
  intros (Ht & Hsort & h & Hs). unfold Pkg.insert. cbn [root tree_min_degree].
  rewrite (is_full_shaped _ _ _ _ Hs).
  destruct (Z.eqb_spec (Py.len (keys r)) (2 * t - 1)) as [Hfull|Hfull].
  - destruct (root_split_spec t Ht h r Hs Hfull)
      as (m & cL & cR & E & _ & _ & _ & _ & Snr & Enr).
    rewrite E. cbn [bind root tree_min_degree].
    destruct (insert_non_full_ok t Ht (S h) 1 (Node [m] t [cL; cR] false) key)
      as (n' & E' & Sn' & En'); auto.
    { cbn [keys]. len_simpl. lia. }
    { rewrite Enr. assumption. }
    rewrite E'. cbn [bind]. eexists. split; [reflexivity|].
    cbn [root tree_min_degree]. repeat split; auto.
    + rewrite En'. apply ins_sorted. rewrite Enr. assumption.
    + exists (S h). assumption.
    + rewrite En', Enr. reflexivity.
  - cbn [bind root tree_min_degree].
    pose proof (shaped_count _ _ _ _ Hs).
    destruct (insert_non_full_ok t Ht h (root_lo h) r key)
      as (n' & E' & Sn' & En'); auto; [lia|].
    rewrite E'. cbn [bind]. eexists. split; [reflexivity|].
    cbn [root tree_min_degree]. repeat split; auto.
    + rewrite En'. apply ins_sorted. assumption.
    + exists h. assumption.
Qed.

Lemma script_insert_eq tr key :
  tree_ok tr -> Script.insert tr key = Pkg.insert tr key.
Proof.
  destruct tr as [r t]. unfold tree_ok. cbn [root tree_min_degree].
  intros (Ht & Hsort & h & Hs). unfold Script.insert, Pkg.insert.
  cbn [root tree_min_degree].
  destruct (is_full r); cbn [bind root tree_min_degree]; [|reflexivity].
  destruct (split_child (Node [] t [r] false) 0); reflexivity.
Qed.

(** The root after the deleting method has run on it. *)
Lemma shrink_ok t (Ht : 2 <= t) h lo n :
  shaped t h lo n -> -1 <= lo ->
  (h <> O -> Py.len (keys n) = 0 \/ 1 <= Py.len (keys n)) ->
  exists r,
    (if (Py.len (keys n) =? 0) && negb (is_leaf n)
     then c <- Py.getitem (children n) 0 ;; Ret (Tree c t)
     else Ret (Tree n t)) = Ret (Tree r t) /\
    (exists h', shaped t h' (root_lo h') r) /\ elems r = elems n /\
    ((Py.len (keys n) =? 0) && negb (is_leaf n) = false -> r = n).
Proof.
  intros Hs Hlo _. destruct n as [ks t' cs lf]. cbn [keys children is_leaf].
  destruct h as [|h]; simpl in Hs.
  - destruct Hs as (-> & B & -> & ->). cbn [negb]. rewrite andb_false_r.
    eexists. split; [reflexivity|]. split; [|auto].
    exists O. simpl. pose proof (len_nonneg ks). repeat split; auto; lia.
  - destruct Hs as (-> & B & -> & Hc & Hall). cbn [negb]. rewrite andb_true_r.
    destruct (Z.eqb_spec (Py.len ks) 0) as [Hz|Hnz].
    + apply len_zero_nil in Hz. subst ks.
      destruct cs as [|c cs]; [len_simpl; lia|].
      assert (cs = []) by (apply len_zero_nil; len_simpl; lia). subst cs.
      rewrite getitem_head. cbn [bind].
      exists c. split; [reflexivity|]. inversion Hall; subst. split.
      * exists h. apply root_child_ok; assumption.
      * split; [simpl; rewrite app_nil_r; reflexivity | discriminate].
    + eexists. split; [reflexivity|]. split; [|auto].
      exists (S h). simpl. pose proof (len_nonneg ks).
      repeat split; auto; lia.
Qed.

Lemma root_no_shrink t h r :
  shaped t h (root_lo h) r ->
  (Py.len (keys r) =? 0) && negb (is_leaf r) = false.
Proof.
  destruct h; simpl; intros (_ & B & -> & _); cbn [negb].
  - apply andb_false_r.
  - destruct (Z.eqb_spec (Py.len (keys r)) 0); [lia | reflexivity].
Qed.

Lemma search_ok t (Ht : 2 <= t) h r key :
  shaped t h (root_lo h) r -> StronglySorted Z.le (elems r) ->
  exists o, search r key = Ret (o, r) /\ (o <> None <-> In key (elems r)).
Proof.
  intros Hs Hsort. unfold search.
  apply (search_spec t Ht h _ _ (root_lo h)); auto.
  - rewrite (shaped_height _ _ _ _ Hs). lia.
  - destruct h; simpl; [left; reflexivity | right; lia].
Qed.

Lemma pkg_node_delete_ok t (Ht : 2 <= t) h r key :
  shaped t h (root_lo h) r -> StronglySorted Z.le (elems r) ->
  exists n', Pkg.node_delete r key = Ret n' /\
             shaped t h (root_lo h - 1) n' /\
             elems n' = remove_one key (elems r) /\
             (~ In key (elems r) -> n' = r).
Proof.
  intros Hs Hsort. unfold Pkg.node_delete.
  destruct (search_ok t Ht h r key Hs Hsort) as (o & E & Ho).
  rewrite E. cbn [bind].
  assert (Hlo : h = O \/ 1 <= root_lo h)
    by (destruct h; simpl; [left; reflexivity | right; lia]).
  destruct o as [found|].
  - assert (Hin : In key (elems r)) by (apply Ho; discriminate).
    destruct (pkg_delete_internal_spec t Ht h (height r)
                ltac:(rewrite (shaped_height _ _ _ _ Hs); lia)
                r (root_lo h) key Hs Hlo Hsort (fun _ => Hin))
      as (n' & E' & Sn' & En').
    exists n'. repeat split; auto. tauto.
  - assert (Hout : ~ In key (elems r)) by (intros Hin; apply Ho in Hin; congruence).
    exists r. repeat split; auto.
    + eapply shaped_weaken; [|eassumption]. lia.
    + symmetry. apply remove_one_notin. assumption.
Qed.

Lemma script_node_delete_ok t (Ht : 2 <= t) h r key :
  shaped t h (root_lo h) r -> StronglySorted Z.le (elems r) ->
  exists n', Script.node_delete r key = Ret n' /\
             shaped t h (root_lo h - 1) n' /\
             elems n' = remove_one key (elems r).
Proof.
  intros Hs Hsort. unfold Script.node_delete.
  assert (Hlo : h = O \/ 1 <= root_lo h)
    by (destruct h; simpl; [left; reflexivity | right; lia]).
  apply (script_node_delete_spec t Ht h (height r)
           ltac:(rewrite (shaped_height _ _ _ _ Hs); lia)
           r (root_lo h) key Hs Hlo Hsort).
  discriminate.
Qed.

Lemma pkg_delete_ok tr key :
  tree_ok tr ->
  exists tr', Pkg.delete tr key = Ret tr' /\ tree_ok tr' /\
              tree_min_degree tr' = tree_min_degree tr /\
              elems (root tr') = remove_one key (elems (root tr)) /\
              (~ In key (elems (root tr)) -> tr' = tr).
Proof.
  destruct tr as [r t]. unfold tree_ok. cbn [root tree_min_degree].
  intros (Ht & Hsort & h & Hs). unfold Pkg.delete. cbn [root tree_min_degree].
  destruct (pkg_node_delete_ok t Ht h r key Hs Hsort)
    as (n' & E & Sn' & En' & Hsame).
  rewrite E. cbn [bind].
  destruct (shrink_ok t Ht h _ n' Sn') as (r' & E' & (h' & Sr') & Er' & Hr');
    [pose proof (root_lo_bounds h); lia | intros; pose proof (len_nonneg (keys n')); lia |].
  rewrite E'. exists (Tree r' t). cbn [root tree_min_degree].
  split; [reflexivity|]. split; [|split; [reflexivity|split]].
  - split; [assumption|]. split; [|exists h'; assumption].
    rewrite Er', En'. apply remove_one_sorted. assumption.
  - rewrite Er', En'. reflexivity.
  - intros Hout. specialize (Hsame Hout). subst n'.
    rewrite Hr'; [reflexivity|]. eapply root_no_shrink; eassumption.
Qed.

Lemma script_delete_ok tr key :
  tree_ok tr ->
  exists tr', Script.delete tr key = Ret tr' /\ tree_ok tr' /\
              tree_min_degree tr' = tree_min_degree tr /\
              elems (root tr') = remove_one key (elems (root tr)).
Proof.
  destruct tr as [r t]. unfold tree_ok. cbn [root tree_min_degree].
  intros (Ht & Hsort & h & Hs). unfold Script.delete. cbn [root tree_min_degree].
  destruct (script_node_delete_ok t Ht h r key Hs Hsort)
    as (n' & E & Sn' & En').
  rewrite E. cbn [bind].
  destruct (shrink_ok t Ht h _ n' Sn') as (r' & E' & (h' & Sr') & Er' & Hr');
    [pose proof (root_lo_bounds h); lia | intros; pose proof (len_nonneg (keys n')); lia |].
  rewrite E'. exists (Tree r' t). cbn [root tree_min_degree].
  split; [reflexivity|]. split; [|split; [reflexivity|]].
  - split; [assumption|]. split; [|exists h'; assumption].
    rewrite Er', En'. apply remove_one_sorted. assumption.
  - rewrite Er', En'. reflexivity.
Qed.

Lemma pkg_search_ok tr key :
  tree_ok tr ->
  exists o, Pkg.search tr key = Ret (o, tr) /\
            (o <> None <-> In key (elems (root tr))).
Proof.
  destruct tr as [r t]. unfold tree_ok. cbn [root tree_min_degree].
  intros (Ht & Hsort & h & Hs). unfold Pkg.search. cbn [root tree_min_degree].
  destruct (search_ok t Ht h r key Hs Hsort) as (o & E & Ho).
  destruct (Py.is_empty (keys r)) eqn:Hempty.
  - exists None. split; [reflexivity|].
    unfold search in E. rewrite (shaped_height _ _ _ _ Hs) in E.
    cbn [search_fuel] in E. rewrite Hempty in E. injection E as <-.
    assumption.
  - rewrite E. cbn [bind]. exists o. auto.
Qed.

Lemma script_search_ok tr key :
  tree_ok tr ->
  exists o, Script.search tr key = Ret (o, tr) /\
            (o <> None <-> In key (elems (root tr))).
Proof.
  destruct tr as [r t]. unfold tree_ok. cbn [root tree_min_degree].
  intros (Ht & Hsort & h & Hs). unfold Script.search. cbn [root tree_min_degree].
  destruct (search_ok t Ht h r key Hs Hsort) as (o & E & Ho).
  rewrite E. cbn [bind]. exists o. auto.
Qed.

Lemma pkg_traverse_ok tr :
  tree_ok tr -> Pkg.traverse tr = Ret (elems (root tr), tr).
Proof.
  destruct tr as [r t]. unfold tree_ok. cbn [root tree_min_degree].
  intros (Ht & Hsort & h & Hs). unfold Pkg.traverse. cbn [root tree_min_degree].
  rewrite (traverse_spec _ _ _ _ Hs). reflexivity.
Qed.

Lemma script_traverse_eq tr : Script.traverse tr = Pkg.traverse tr.
Proof. reflexivity. Qed.

(** ** Sequences of calls *)

Section RunFacts.
Variable init : Z -> result BTree.
Variables insert delete : BTree -> Z -> result BTree.

Hypothesis init_ok : forall t,
  2 <= t ->
  exists tr, init t = Ret tr /\ tree_ok tr /\ tree_min_degree tr = t /\
             elems (root tr) = [].
Hypothesis insert_ok : forall tr key,
  tree_ok tr ->
  exists tr', insert tr key = Ret tr' /\ tree_ok tr' /\
              tree_min_degree tr' = tree_min_degree tr /\
              elems (root tr') = ins key (elems (root tr)).
Hypothesis delete_ok : forall tr key,
  tree_ok tr ->
  exists tr', delete tr key = Ret tr' /\ tree_ok tr' /\
              tree_min_degree tr' = tree_min_degree tr /\
              elems (root tr') = remove_one key (elems (root tr)).

Lemma apply_op_ok tr o :
  tree_ok tr ->
  exists tr', apply_op insert delete tr o = Ret tr' /\ tree_ok tr' /\
              tree_min_degree tr' = tree_min_degree tr /\
              elems (root tr') = model_step (elems (root tr)) o.
Proof. destruct o; simpl; auto. Qed.

Lemma run_from_ok ops :
  forall tr, tree_ok tr ->
  exists tr', run_from insert delete tr ops = Ret tr' /\ tree_ok tr' /\
              tree_min_degree tr' = tree_min_degree tr /\
              elems (root tr') = model_from (elems (root tr)) ops.
Proof.
  induction ops as [|o ops IH]; intros tr Hok.
  - exists tr. simpl. auto.
  - destruct (apply_op_ok tr o Hok) as (tr1 & E1 & Hok1 & Ht1 & Ee1).
    destruct (IH tr1 Hok1) as (tr2 & E2 & Hok2 & Ht2 & Ee2).
    exists tr2. cbn [run_from]. rewrite E1. cbn [bind].
    split; [assumption|]. split; [assumption|]. split; [congruence|].
    rewrite Ee2, Ee1. reflexivity.
Qed.

Lemma run_ops_ok t ops :
  2 <= t ->
  exists tr, run_ops init insert delete t ops = Ret tr /\ tree_ok tr /\
             tree_min_degree tr = t /\ elems (root tr) = model ops.
Proof.
  intros Ht. destruct (init_ok t Ht) as (tr0 & E0 & Hok0 & Ht0 & Ee0).
  destruct (run_from_ok ops tr0 Hok0) as (tr & E & Hok & Ht' & Ee).
  exists tr. unfold run_ops. rewrite E0. cbn [bind].
  split; [assumption|]. split; [assumption|]. split; [congruence|].
  rewrite Ee, Ee0. reflexivity.
Qed.
End RunFacts.

Lemma pkg_run_ok t ops :
  2 <= t ->
  exists tr, pkg_run t ops = Ret tr /\ tree_ok tr /\
             tree_min_degree tr = t /\ elems (root tr) = model ops.
Proof.
  apply run_ops_ok.
  - apply pkg_init_ok.
  - apply pkg_insert_ok.
  - intros tr key Hok.
    destruct (pkg_delete_ok tr key Hok) as (tr' & H1 & H2 & H3 & H4 & _).
    eauto.
Qed.

Lemma script_run_ok t ops :
  2 <= t ->
  exists tr, script_run t ops = Ret tr /\ tree_ok tr /\
             tree_min_degree tr = t /\ elems (root tr) = model ops.
Proof.
  apply run_ops_ok.
  - apply pkg_init_ok.
  - intros tr key Hok. rewrite script_insert_eq by assumption.
    apply pkg_insert_ok. assumption.
  - apply script_delete_ok.
Qed.

(** ** The class invariant from the shape and the order *)

Section AnyOrder.
Variable R : Z -> Z -> Prop.

Lemma ordered_app l1 l2 :
  StronglySorted R (l1 ++ l2) ->
  StronglySorted R l1 /\ StronglySorted R l2.
Proof.
  induction l1 as [|a l1 IH]; simpl; intros H.
  - split; [constructor | assumption].
  - inversion H as [|? ? Hs Hall]; subst. destruct (IH Hs) as [H1 H2].
    split; [|assumption]. constructor; [assumption|].
    apply Forall_app in Hall. tauto.
Qed.

Lemma inter_ordered cs ks :
  length cs = S (length ks) ->
  StronglySorted R (inter cs ks) ->
  StronglySorted R ks /\ Forall (StronglySorted R) cs.
Proof.
  revert ks. induction cs as [|c cs IH]; intros ks E Hs; [discriminate|].
  destruct ks as [|k ks]; simpl in *.
  - destruct cs; [|discriminate]. rewrite app_nil_r in Hs.
    split; repeat constructor; assumption.
  - apply ordered_app in Hs. destruct Hs as [Hc Hs].
    inversion Hs as [|? ? Hs' Hall]; subst.
    destruct (IH ks ltac:(lia) Hs') as [Hks Hcs].
    split; [|constructor; assumption].
    constructor; [assumption|].
    rewrite Forall_forall in *. intros v Hv. apply Hall.
    apply in_keys_inter; [lia | assumption].
Qed.
End AnyOrder.

Lemma ascending_cons strict x y l :
  ascending strict (x :: y :: l) =
  (if strict then x <? y else x <=? y) && ascending strict (y :: l).
Proof. reflexivity. Qed.

Lemma ascending_le l : StronglySorted Z.le l -> ascending false l = true.
Proof.
  induction 1 as [|x l Hs IH Hall]; [reflexivity|].
  destruct l as [|y l]; [reflexivity|]. rewrite ascending_cons.
  rewrite IH, andb_true_r. apply Z.leb_le. inversion Hall; assumption.
Qed.

Lemma ascending_lt l : StronglySorted Z.lt l -> ascending true l = true.
Proof.
  induction 1 as [|x l Hs IH Hall]; [reflexivity|].
  destruct l as [|y l]; [reflexivity|]. rewrite ascending_cons.
  rewrite IH, andb_true_r. apply Z.ltb_lt. inversion Hall; assumption.
Qed.

Lemma nodes_ok_shaped strict (R : Z -> Z -> Prop) t h :
  (forall l, StronglySorted R l -> ascending strict l = true) ->
  forall lo n (is_root : bool),
    shaped t h lo n -> (if is_root then 0 else t - 1) <= lo ->
    StronglySorted R (elems n) ->
    nodes_ok strict t is_root n = true.
Proof.
  intros HR. induction h as [|h IH]; intros lo [ks t' cs lf] is_root Hs Hlo Hsort;
    simpl in Hs; cbn [nodes_ok].
  - destruct Hs as (-> & B & -> & ->). simpl in Hsort.
    rewrite (HR _ Hsort). simpl.
    rewrite !andb_true_r. apply andb_true_intro.
    split; [apply Z.leb_le | apply Z.leb_le]; lia.
  - destruct Hs as (-> & B & -> & E & Hall). simpl in Hsort.
    apply inter_ordered in Hsort;
      [|rewrite length_map; unfold Py.len in E; lia].
    destruct Hsort as [Hks Hcs]. rewrite (HR _ Hks).
    rewrite (proj2 (Z.eqb_eq _ _) E). simpl. rewrite !andb_true_r.
    apply andb_true_intro. split.
    + apply andb_true_intro. split; apply Z.leb_le; lia.
    + apply forallb_forall. intros c Hc.
      rewrite Forall_forall in Hall, Hcs.
      apply (IH (t - 1)); [auto | simpl; lia |].
      apply Hcs. apply in_map. assumption.
Qed.

Lemma leaf_depths_shaped t h :
  forall lo n d,
    shaped t h lo n -> Forall (fun x => x = (d + h)%nat) (leaf_depths d n).
Proof.
  induction h as [|h IH]; intros lo [ks t' cs lf] d Hs; simpl in Hs;
    cbn [leaf_depths].
  - destruct Hs as (_ & _ & -> & _). repeat constructor. lia.
  - destruct Hs as (_ & _ & -> & _ & Hall). apply Forall_flat_map.
    rewrite Forall_forall in *. intros c Hc.
    specialize (IH _ c (S d) (Hall c Hc)).
    rewrite Forall_forall in *. intros x Hx. specialize (IH x Hx). lia.
Qed.

Lemma all_equal_const v l :
  Forall (fun x => x = v) l -> all_equal l = true.
Proof.
  intros H. destruct l as [|x l]; [reflexivity|]. simpl.
  inversion H as [|? ? -> Hl]; subst. apply forallb_forall. intros y Hy.
  rewrite Forall_forall in Hl. apply Nat.eqb_eq. symmetry. auto.
Qed.

Lemma invariant_gen_ok strict (R : Z -> Z -> Prop) tr :
  (forall l, StronglySorted R l -> ascending strict l = true) ->
  tree_ok tr -> StronglySorted R (elems (root tr)) ->
  invariant_gen strict tr = true.
Proof.
  intros HR (Ht & _ & h & Hs) Hsort. unfold invariant_gen.
  apply andb_true_intro. split.
  - eapply nodes_ok_shaped; eauto. apply root_lo_bounds.
  - eapply all_equal_const. eapply leaf_depths_shaped. eassumption.
Qed.

Lemma invariant_weak_ok tr : tree_ok tr -> invariant_weak tr = true.
Proof.
  intros H. apply (invariant_gen_ok false Z.le); auto using ascending_le.
  apply H.
Qed.

(** ** Strict order when no stored key is inserted again *)

Lemma mem_in k l : mem k l = true <-> In k l.
Proof.
  unfold mem. rewrite existsb_exists. split.
  - intros (x & Hx & E). apply Z.eqb_eq in E. subst. assumption.
  - intros H. exists k. split; [assumption | apply Z.eqb_refl].
Qed.

Lemma mem_not_in k l : mem k l = false <-> ~ In k l.
Proof.
  rewrite <- mem_in. destruct (mem k l); split; intros; congruence.
Qed.

Lemma ins_strict k l :
  StronglySorted Z.lt l -> ~ In k l -> StronglySorted Z.lt (ins k l).
Proof.
  induction 1 as [|y l Hs IH Hall]; simpl; intros Hout.
  - repeat constructor.
  - destruct (Z.ltb_spec y k).
    + constructor; [apply IH; tauto|].
      rewrite Forall_forall in *. intros x Hx. apply in_ins in Hx.
      destruct Hx as [->|Hx]; [lia | auto].
    + constructor; [constructor; assumption|].
      constructor; [lia|].
      rewrite Forall_forall in *. intros x Hx. specialize (Hall _ Hx). lia.
Qed.

Lemma remove_one_strict k l :
  StronglySorted Z.lt l -> StronglySorted Z.lt (remove_one k l).
Proof.
  induction 1 as [|y l Hs IH Hall]; simpl; [constructor|].
  destruct (y =? k); [assumption|].
  constructor; [assumption|].
  rewrite Forall_forall in *. intros x Hx. apply Hall.
  eapply in_remove_one; eassumption.
Qed.

Lemma model_strict ops :
  forall l, StronglySorted Z.lt l -> fresh_inserts_from l ops = true ->
            StronglySorted Z.lt (model_from l ops).
Proof.
  induction ops as [|o ops IH]; intros l Hs Hf; [assumption|].
  cbn [fresh_inserts_from] in Hf. apply andb_true_iff in Hf.
  destruct Hf as [Ho Hf]. unfold model_from. cbn [fold_left].
  apply IH; [|assumption]. destruct o as [k|k]; cbn [model_step].
  - apply ins_strict; [assumption|]. apply mem_not_in.
    apply negb_true_iff. assumption.
  - apply remove_one_strict. assumption.
Qed.

Lemma fresh_prefix n ops :
  forall l, fresh_inserts_from l ops = true ->
            fresh_inserts_from l (firstn n ops) = true.
Proof.
  revert ops. induction n as [|n IH]; intros [|o ops] l H; try reflexivity.
  cbn [firstn fresh_inserts_from] in *. apply andb_true_iff in H.
  destruct H as [H1 H2]. rewrite H1. cbn [andb]. apply IH. assumption.
Qed.

(** ** search and traverse leave their receiver as it is *)

Lemma getitem_setitem_same {A} (l : list A) i x :
  Py.getitem l i = Ret x -> Py.setitem l i x = Ret l.
Proof.
  unfold Py.getitem, Py.setitem. destruct (Py.in_range l (Py.norm l i)); [|discriminate].
  destruct (nth_error l (Z.to_nat (Py.norm l i))) as [y|] eqn:E; [|discriminate].
  intros H. injection H as ->. f_equal.
  apply nth_error_split in E. destruct E as (l1 & l2 & -> & <-).
  rewrite firstn_len_app by reflexivity.
  change (S (length l1)) with (1 + length l1)%nat.
  rewrite <- skipn_skipn. rewrite skipn_len_app by reflexivity. reflexivity.
Qed.

Lemma set_children_same n : set_children n (children n) = n.
Proof. destruct n; reflexivity. Qed.

Lemma search_fuel_frame fuel :
  forall n k r n', search_fuel fuel n k = Ret (r, n') -> n' = n.
Proof.
  induction fuel as [|fuel IH]; intros n k r n' H; [discriminate|].
  cbn [search_fuel] in H.
  destruct (Py.is_empty (keys n)); [congruence|].
  destruct (key_at n (get_key_index n k) k) as [found| |]; try discriminate.
  cbn [bind] in H. destruct found; [congruence|].
  destruct (is_leaf n); [congruence|].
  destruct (Py.getitem (children n) (get_key_index n k)) as [c| |] eqn:Ec;
    try discriminate.
  cbn [bind] in H.
  destruct (search_fuel fuel c k) as [[r1 c1]| |] eqn:Es; try discriminate.
  cbn [bind] in H. apply IH in Es. subst c1.
  rewrite (getitem_setitem_same _ _ _ Ec) in H. cbn [bind] in H.
  rewrite set_children_same in H. congruence.
Qed.

Lemma traverse_children_frame trav cs :
  (forall c, In c cs -> forall out c', trav c = Ret (out, c') -> c' = c) ->
  forall ks out cs',
    traverse_children trav ks cs = Ret (out, cs') -> cs' = cs.
Proof.
  induction cs as [|c cs IH]; intros Hc ks out cs' H; [discriminate|].
  cbn [traverse_children] in H.
  destruct (trav c) as [[o1 c1]| |] eqn:E; try discriminate.
  cbn [bind] in H. apply Hc in E; [|simpl; auto]. subst c1.
  destruct ks as [|k ks]; [congruence|].
  fold (traverse_children trav) in H.
  destruct (traverse_children trav ks cs) as [[o2 cs2]| |] eqn:E2;
    try discriminate.
  cbn [bind] in H. apply IH in E2; [|intros; eapply Hc; simpl; eauto].
  congruence.
Qed.

Lemma height_child c cs :
  In c cs ->
  (height c <= fold_right (fun c m => Nat.max (height c) m) O cs)%nat.
Proof.
  induction cs as [|c' cs IH]; simpl; [tauto|].
  intros [->|H]; [lia|]. specialize (IH H). lia.
Qed.

Lemma traverse_frame_bounded m :
  forall n out n',
    (height n <= m)%nat -> traverse n = Ret (out, n') -> n' = n.
Proof.
  induction m as [|m IH]; intros [ks t cs lf] out n' Hh H.
  - simpl in Hh. lia.
  - cbn [traverse] in H. destruct lf; [congruence|].
    destruct (traverse_children traverse ks cs) as [[o cs']| |] eqn:E;
      try discriminate.
    cbn [bind] in H. apply traverse_children_frame in E; [congruence|].
    intros c Hc o1 c1 Hc1. eapply IH; [|eassumption].
    pose proof (height_child c cs Hc). simpl in Hh. lia.
Qed.

Lemma traverse_frame n out n' : traverse n = Ret (out, n') -> n' = n.
Proof. apply (traverse_frame_bounded (height n)). lia. Qed.

(** ** Counting and membership in the model *)

Lemma count_ins_same k l :
  count_occ Z.eq_dec (ins k l) k = S (count_occ Z.eq_dec l k).
Proof.
  induction l as [|x l IH]; simpl.
  - destruct (Z.eq_dec k k); congruence.
  - destruct (x <? k); simpl.
    + destruct (Z.eq_dec x k); rewrite IH; reflexivity.
    + destruct (Z.eq_dec k k); [|congruence].
      destruct (Z.eq_dec x k); reflexivity.
Qed.

Lemma count_ins_other k x l :
  x <> k -> count_occ Z.eq_dec (ins k l) x = count_occ Z.eq_dec l x.
Proof.
  intros Hne. induction l as [|y l IH]; simpl.
  - destruct (Z.eq_dec k x); congruence.
  - destruct (y <? k); simpl.
    + destruct (Z.eq_dec y x); rewrite IH; reflexivity.
    + destruct (Z.eq_dec k x); [congruence|]. reflexivity.
Qed.

Lemma count_remove_one k l :
  count_occ Z.eq_dec (remove_one k l) k = pred (count_occ Z.eq_dec l k).
Proof.
  induction l as [|x l IH]; simpl; [reflexivity|].
  destruct (Z.eqb_spec x k) as [->|Hne].
  - destruct (Z.eq_dec k k); [reflexivity | congruence].
  - simpl. destruct (Z.eq_dec x k); [congruence | assumption].
Qed.

Lemma remove_one_last_copy k l :
  (count_occ Z.eq_dec l k <= 1)%nat -> ~ In k (remove_one k l).
Proof.
  intros H. apply (count_occ_not_In Z.eq_dec). rewrite count_remove_one. lia.
Qed.

Lemma in_model_from k ops :
  forall l, In k (model_from l ops) -> In k l \/ In (Insert k) ops.
Proof.
  induction ops as [|o ops IH]; intros l H; [auto|].
  unfold model_from in H. cbn [fold_left] in H. apply IH in H.
  destruct H as [H|H]; [|simpl; auto].
  destruct o as [x|x]; cbn [model_step] in H.
  - apply in_ins in H. destruct H as [->|H]; simpl; auto.
  - apply in_remove_one in H. auto.
Qed.

Lemma model_sorted ops :
  forall l, StronglySorted Z.le l -> StronglySorted Z.le (model_from l ops).
Proof.
  induction ops as [|o ops IH]; intros l H; [assumption|].
  unfold model_from. cbn [fold_left]. apply IH.
  destruct o; cbn [model_step]; auto using ins_sorted, remove_one_sorted.
Qed.

Lemma model_inserts ks :
  forall l, model_from l (map Insert ks) = fold_left (fun acc k => ins k acc) ks l.
Proof. induction ks as [|k ks IH]; intros l; [reflexivity | apply IH]. Qed.

Lemma ins_perm k l : Permutation (ins k l) (k :: l).
Proof.
  induction l as [|x l IH]; simpl; [reflexivity|].
  destruct (x <? k); [|reflexivity].
  rewrite IH. apply perm_swap.
Qed.

Lemma sort_perm ks :
  forall l, Permutation (fold_left (fun acc k => ins k acc) ks l) (ks ++ l).
Proof.
  induction ks as [|k ks IH]; intros l; [reflexivity|].
  cbn [fold_left]. rewrite IH, ins_perm. simpl.
  symmetry. apply Permutation_middle.
Qed.

Lemma sort_strict ks :
  forall l, StronglySorted Z.lt l -> NoDup ks ->
            (forall x, In x ks -> ~ In x l) ->
            StronglySorted Z.lt (fold_left (fun acc k => ins k acc) ks l).
Proof.
  induction ks as [|k ks IH]; intros l Hs Hnd Hdis; [assumption|].
  cbn [fold_left]. inversion Hnd as [|? ? Hk Hnd']; subst.
  apply IH; [apply ins_strict; [assumption | apply Hdis; simpl; auto]
            | assumption |].
  intros x Hx Hin. apply in_ins in Hin. destruct Hin as [->|Hin].
  - contradiction.
  - apply (Hdis x); simpl; auto.
Qed.

Lemma run_from_app insert delete tr ops1 ops2 :
  run_from insert delete tr (ops1 ++ ops2) =
  (tr1 <- run_from insert delete tr ops1 ;; run_from insert delete tr1 ops2).
Proof.
  revert tr. induction ops1 as [|o ops1 IH]; intros tr; [reflexivity|].
  cbn [app run_from]. destruct (apply_op insert delete tr o); cbn [bind]; auto.
Qed.

(** ** The root keeps its keys when no child is full *)

Lemma insert_keeps_root_keys t (Ht : 2 <= t) h lo n key :
  shaped t (S h) lo n -> StronglySorted Z.le (elems n) ->
  Forall (fun c => Py.len (keys c) < 2 * t - 1) (children n) ->
  exists n', insert_non_full n key = Ret n' /\ keys n' = keys n /\
             Py.len (children n') = Py.len (children n) /\
             is_leaf n' = false.
Proof.
  intros Hs Hsort Hroom. unfold insert_non_full.
  rewrite (shaped_height _ _ _ _ Hs).
  remember (S h) as f eqn:Ef in |- *. cbn [insert_non_full_fuel].
  destruct (locate _ _ _ _ key Hs Hsort)
    as (ks1 & ks2 & cs1 & c & cs2 & -> & L & I & F & G).
  apply shaped_zip in Hs. destruct Hs as (_ & B & Hc & A1 & Sc & A2).
  cbn [keys is_leaf children] in *. rewrite I.
  rewrite getitem_app by auto. cbn [bind].
  apply Forall_app in Hroom. destruct Hroom as [_ Hroom].
  apply Forall_cons_iff in Hroom. destruct Hroom as [Hcroom _].
  rewrite (is_full_shaped _ _ _ _ Sc).
  destruct (Z.eqb_spec (Py.len (keys c)) (2 * t - 1)); [lia|].
  cbn [bind children]. rewrite getitem_app by auto. cbn [bind].
  destruct (insert_non_full_spec t Ht h f c (t - 1) key)
    as (c' & E & _ & _); auto; [lia| |].
  { eapply zip_child_sorted; eassumption. }
  rewrite E. cbn [bind]. rewrite setitem_app by auto. cbn [bind].
  eexists. split; [reflexivity|]. unfold set_children.
  cbn [keys children is_leaf]. len_simpl. auto.
Qed.

(** ** Trees reached by calls *)

Lemma pkg_run_inv t ops tr :
  2 <= t -> pkg_run t ops = Ret tr ->
  tree_ok tr /\ tree_min_degree tr = t /\ elems (root tr) = model ops.
Proof.
  intros Ht E. destruct (pkg_run_ok t ops Ht) as (tr' & E' & H).
  rewrite E in E'. injection E' as <-. assumption.
Qed.

Lemma pkg_run_snoc t ops o :
  pkg_run t (ops ++ [o]) =
  (tr <- pkg_run t ops ;; apply_op Pkg.insert Pkg.delete tr o).
Proof.
  unfold pkg_run, run_ops. destruct (Pkg.init t); cbn [bind]; auto.
  rewrite run_from_app.
  destruct (run_from Pkg.insert Pkg.delete a ops); cbn [bind run_from]; auto.
  destruct (apply_op Pkg.insert Pkg.delete a0 o); reflexivity.
Qed.

Lemma model_nil_sorted ops : StronglySorted Z.le (model ops).
Proof. apply model_sorted. constructor. Qed.

(** The scenario of [src/examples/demo.py] and of the tests, in the
    package and in the script: t = 3, the keys 10, 20, 5, 6, 12, 30, 7, 17,
    the searches for 6 and 15, then the deletion of 6. *)
Example demo_scenario :
  pkg_run 3 (map Insert demo_keys) = Ret demo_tree /\
  script_run 3 (map Insert demo_keys) = Ret demo_tree /\
  Pkg.traverse demo_tree = Ret ([5; 6; 7; 10; 12; 17; 20; 30], demo_tree) /\
  Pkg.search demo_tree 6 = Ret (Some (Node [5; 6; 7] 3 [] true), demo_tree) /\
  Pkg.search demo_tree 15 = Ret (None, demo_tree) /\
  Pkg.delete demo_tree 6 = Ret demo_tree_without_6 /\
  Script.delete demo_tree 6 = Ret demo_tree_without_6 /\
  Pkg.traverse demo_tree_without_6
  = Ret ([5; 7; 10; 12; 17; 20; 30], demo_tree_without_6).
Proof. repeat split; vm_compute; reflexivity. Qed.

(** Deleting every key leaves an empty leaf as the root
    ([test_delete_root]). *)
Example delete_all_scenario :
  pkg_run 3 (map Insert demo_keys ++ map Delete [5; 6; 7; 10; 12; 17; 20; 30])
  = Ret (Tree (Node [] 3 [] true) 3).
Proof. vm_compute. reflexivity. Qed.

(** * The claims *)

(** C1 (amended).  For every sequence of insert and delete calls on a tree
    built with min_degree t >= 2, after each call no exception was raised
    and: every node but the root has between t-1 and 2t-1 keys, the root
    between 0 and 2t-1, every internal node with k keys has k+1 children,
    all leaves are at one depth, and the keys of each node are
    non-decreasing; they are strictly increasing when no call inserts a key
    that is stored at that moment. *)
Theorem C1_invariant_after_each_call :
  forall t ops n,
    2 <= t ->
    exists tr,
      pkg_run t (firstn n ops) = Ret tr /\
      invariant_weak tr = true /\
      (fresh_inserts ops = true -> invariant tr = true).
Proof.
  intros t ops n Ht.
  destruct (pkg_run_ok t (firstn n ops) Ht) as (tr & E & Hok & _ & Ee).
  exists tr. split; [assumption|]. split; [apply invariant_weak_ok; assumption|].
  intros Hfresh. unfold invariant.
  apply (invariant_gen_ok true Z.lt); auto using ascending_lt.
  rewrite Ee. apply model_strict; [constructor|].
  apply fresh_prefix. assumption.
Qed.

Lemma C1_invariant_after_each_call_witness :
  2 <= 3 /\
  exists tr,
    pkg_run 3 (firstn 4 [Insert 10; Insert 20; Insert 5; Delete 20; Insert 6])
    = Ret tr /\
    invariant_weak tr = true /\
    (fresh_inserts [Insert 10; Insert 20; Insert 5; Delete 20; Insert 6] = true
     -> invariant tr = true).
Proof.
  split; [lia|].
  apply (C1_invariant_after_each_call 3
           [Insert 10; Insert 20; Insert 5; Delete 20; Insert 6] 4%nat).
  lia.
Defined.

(** C1, as stated, fails: with t = 2, insert 1 twice; the root holds
    [1; 1], which is not strictly increasing. *)
Lemma C1_counterexample_duplicate_key :
  pkg_run 2 [Insert 1; Insert 1] = Ret (Tree (Node [1; 1] 2 [] true) 2) /\
  invariant (Tree (Node [1; 1] 2 [] true) 2) = false.
Proof. split; vm_compute; reflexivity. Qed.

(** C2 (amended).  On every tree reached by inserts and deletes, traverse
    gives the stored keys, search(k) answers with a node exactly when k is
    among them, and with None for a key that was never inserted; delete(k)
    followed by search(k) answers None when k was stored at most once
    before the delete. *)
Theorem C2_search_finds_stored_keys :
  forall t ops k,
    2 <= t ->
    exists tr o tr1 o1,
      pkg_run t ops = Ret tr /\
      Pkg.traverse tr = Ret (model ops, tr) /\
      Pkg.search tr k = Ret (o, tr) /\
      (present o = true <-> In k (model ops)) /\
      (~ In (Insert k) ops -> present o = false) /\
      Pkg.delete tr k = Ret tr1 /\
      Pkg.search tr1 k = Ret (o1, tr1) /\
      ((count_occ Z.eq_dec (model ops) k <= 1)%nat -> present o1 = false).
Proof.
  intros t ops k Ht.
  destruct (pkg_run_ok t ops Ht) as (tr & E & Hok & _ & Ee).
  destruct (pkg_search_ok tr k Hok) as (o & Es & Ho).
  destruct (pkg_delete_ok tr k Hok) as (tr1 & Ed & Hok1 & _ & Ee1 & _).
  destruct (pkg_search_ok tr1 k Hok1) as (o1 & Es1 & Ho1).
  exists tr, o, tr1, o1. rewrite Ee in *.
  assert (Hp : forall x : option BTreeNode, present x = true <-> x <> None).
  { intros [x|]; simpl; split; congruence. }
  split; [assumption|].
  split; [rewrite pkg_traverse_ok, Ee by assumption; reflexivity|].
  split; [assumption|]. split; [rewrite Hp; assumption|].
  split.
  { intros Hnever. apply not_true_is_false. rewrite Hp, Ho. intros Hin.
    apply in_model_from in Hin. simpl in Hin. tauto. }
  split; [assumption|]. split; [assumption|].
  intros Hcount. apply not_true_is_false. rewrite Hp, Ho1, Ee1.
  apply remove_one_last_copy. assumption.
Qed.

Lemma C2_search_finds_stored_keys_witness :
  2 <= 3 /\
  exists tr o tr1 o1,
    pkg_run 3 (map Insert demo_keys) = Ret tr /\
    Pkg.traverse tr = Ret (model (map Insert demo_keys), tr) /\
    Pkg.search tr 6 = Ret (o, tr) /\
    (present o = true <->
     In 6 (model (map Insert demo_keys))) /\
    (~ In (Insert 6) (map Insert demo_keys) ->
     present o = false) /\
    Pkg.delete tr 6 = Ret tr1 /\
    Pkg.search tr1 6 = Ret (o1, tr1) /\
    ((count_occ Z.eq_dec (model (map Insert demo_keys)) 6%Z
      <= 1)%nat -> present o1 = false).
Proof.
  split; [lia|].
  apply (C2_search_finds_stored_keys 3
           (map Insert demo_keys) 6).
  lia.
Defined.

(** C2, as stated, fails: with t = 2, insert 1 twice and delete 1; the
    search for 1 right after the delete still answers with a node. *)
Lemma C2_counterexample_delete_then_search :
  pkg_run 2 [Insert 1; Insert 1] = Ret (Tree (Node [1; 1] 2 [] true) 2) /\
  Pkg.delete (Tree (Node [1; 1] 2 [] true) 2) 1
  = Ret (Tree (Node [1] 2 [] true) 2) /\
  Pkg.search (Tree (Node [1] 2 [] true) 2) 1
  = Ret (Some (Node [1] 2 [] true), Tree (Node [1] 2 [] true) 2).
Proof. repeat split; vm_compute; reflexivity. Qed.

(** C3 (amended).  For every sequence of inserts into a fresh tree,
    traverse gives the ascending sort of the inserted keys: a permutation
    of them in non-decreasing order, a key inserted several times appearing
    that many times; the order is strictly ascending when the inserted keys
    are pairwise distinct. *)
Theorem C3_traverse_sorts_inserted_keys :
  forall t ks,
    2 <= t ->
    exists tr,
      pkg_run t (map Insert ks) = Ret tr /\
      Pkg.traverse tr = Ret (insertion_sort ks, tr) /\
      Permutation (insertion_sort ks) ks /\
      StronglySorted Z.le (insertion_sort ks) /\
      (NoDup ks -> StronglySorted Z.lt (insertion_sort ks)).
Proof.
  intros t ks Ht.
  destruct (pkg_run_ok t (map Insert ks) Ht) as (tr & E & Hok & _ & Ee).
  assert (Em : model (map Insert ks) = insertion_sort ks)
    by apply model_inserts.
  exists tr. split; [assumption|].
  split; [rewrite pkg_traverse_ok, Ee, Em by assumption; reflexivity|].
  split.
  { unfold insertion_sort. rewrite sort_perm, app_nil_r. reflexivity. }
  split; [rewrite <- Em; apply model_nil_sorted|].
  intros Hnd. apply sort_strict; [constructor | assumption | auto].
Qed.

Lemma C3_traverse_sorts_inserted_keys_witness :
  2 <= 3 /\
  exists tr,
    pkg_run 3 (map Insert demo_keys) = Ret tr /\
    Pkg.traverse tr = Ret (insertion_sort demo_keys, tr) /\
    Permutation (insertion_sort demo_keys)
                demo_keys /\
    StronglySorted Z.le (insertion_sort demo_keys) /\
    (NoDup demo_keys ->
     StronglySorted Z.lt (insertion_sort demo_keys)).
Proof.
  split; [lia|].
  apply (C3_traverse_sorts_inserted_keys 3 demo_keys).
  lia.
Defined.

(** C3, as stated, fails: with t = 2, insert 1 twice; traverse gives
    [1; 1], which is not strictly ascending. *)
Lemma C3_counterexample_not_strict :
  pkg_run 2 (map Insert [1; 1]) = Ret (Tree (Node [1; 1] 2 [] true) 2) /\
  Pkg.traverse (Tree (Node [1; 1] 2 [] true) 2)
  = Ret ([1; 1], Tree (Node [1; 1] 2 [] true) 2) /\
  ~ StronglySorted Z.lt [1; 1].
Proof.
  split; [vm_compute; reflexivity|]. split; [vm_compute; reflexivity|].
  intros H. inversion H as [|? ? _ Hall]; subst.
  inversion Hall; subst. lia.
Qed.

Lemma present_iff o1 o2 (P : Prop) :
  (o1 <> None <-> P) -> (o2 <> None <-> P) -> present o1 = present o2.
Proof.
  destruct o1, o2; simpl; intros H1 H2; try reflexivity; exfalso.
  - apply (proj2 H2); [|reflexivity]. apply H1. discriminate.
  - apply (proj2 H1); [|reflexivity]. apply H2. discriminate.
Qed.

(** C4 (amended).  For every tree reached by calls and every key k that is
    not stored, delete(k) raises no error; in the package
    ([src/btree/__init__.py]) it leaves every node as it was; in the script
    ([src/main.py]) it leaves the traverse sequence, the invariant and every
    search answer as they were, while nodes on the way down may be refilled
    by a borrow or a merge. *)
Theorem C4_delete_of_absent_key :
  forall t ops k,
    2 <= t -> mem k (model ops) = false ->
    (exists tr, pkg_run t ops = Ret tr /\ Pkg.delete tr k = Ret tr) /\
    (exists tr tr',
        script_run t ops = Ret tr /\ Script.delete tr k = Ret tr' /\
        Script.traverse tr = Ret (model ops, tr) /\
        Script.traverse tr' = Ret (model ops, tr') /\
        invariant_weak tr' = true /\
        forall k', exists o o',
            Script.search tr k' = Ret (o, tr) /\
            Script.search tr' k' = Ret (o', tr') /\
            present o = present o').
Proof.
  intros t ops k Ht Hout. apply mem_not_in in Hout. split.
  - destruct (pkg_run_ok t ops Ht) as (tr & E & Hok & _ & Ee).
    destruct (pkg_delete_ok tr k Hok) as (tr1 & Ed & _ & _ & _ & Hsame).
    exists tr. split; [assumption|]. rewrite Ed. f_equal. apply Hsame.
    rewrite Ee. assumption.
  - destruct (script_run_ok t ops Ht) as (tr & E & Hok & _ & Ee).
    destruct (script_delete_ok tr k Hok) as (tr' & Ed & Hok' & _ & Ee').
    rewrite Ee in Ee'. rewrite remove_one_notin in Ee' by assumption.
    exists tr, tr'. split; [assumption|]. split; [assumption|].
    rewrite !script_traverse_eq, !pkg_traverse_ok, Ee, Ee' by assumption.
    split; [reflexivity|]. split; [reflexivity|].
    split; [apply invariant_weak_ok; assumption|].
    intros k'.
    destruct (script_search_ok tr k' Hok) as (o & Es & Ho).
    destruct (script_search_ok tr' k' Hok') as (o' & Es' & Ho').
    exists o, o'. split; [assumption|]. split; [assumption|].
    rewrite Ee in Ho. rewrite Ee' in Ho'. eapply present_iff; eassumption.
Qed.

Lemma C4_delete_of_absent_key_witness :
  2 <= 3 /\ mem 999 (model (map Insert demo_keys)) = false /\
  (exists tr, pkg_run 3 (map Insert demo_keys) = Ret tr /\
              Pkg.delete tr 999 = Ret tr) /\
  (exists tr tr',
      script_run 3 (map Insert demo_keys) = Ret tr /\
      Script.delete tr 999 = Ret tr' /\
      Script.traverse tr = Ret (model (map Insert demo_keys), tr) /\
      Script.traverse tr' = Ret (model (map Insert demo_keys), tr') /\
      invariant_weak tr' = true /\
      forall k', exists o o',
          Script.search tr k' = Ret (o, tr) /\
          Script.search tr' k' = Ret (o', tr') /\
          present o = present o').
Proof.
  split; [lia|]. split; [reflexivity|].
  apply (C4_delete_of_absent_key 3 (map Insert demo_keys) 999);
    [lia | reflexivity].
Defined.

(** C4, as stated, fails in the script: with t = 2 and 1, 2, 3, 4 stored,
    delete(0) borrows key 2 into the first leaf and moves 3 up, although 0
    is not stored. *)
Lemma C4_counterexample_script_refills :
  script_run 2 (map Insert [1; 2; 3; 4])
  = Ret (Tree (Node [2] 2 [Node [1] 2 [] true; Node [3; 4] 2 [] true] false) 2)
  /\
  mem 0 (model (map Insert [1; 2; 3; 4])) = false /\
  Script.delete
    (Tree (Node [2] 2 [Node [1] 2 [] true; Node [3; 4] 2 [] true] false) 2) 0
  = Ret (Tree (Node [3] 2 [Node [1; 2] 2 [] true; Node [4] 2 [] true] false) 2)
  /\
  Tree (Node [3] 2 [Node [1; 2] 2 [] true; Node [4] 2 [] true] false) 2
  <> Tree (Node [2] 2 [Node [1] 2 [] true; Node [3; 4] 2 [] true] false) 2.
Proof.
  split; [vm_compute; reflexivity|]. split; [reflexivity|].
  split; [vm_compute; reflexivity | discriminate].
Qed.

(** C5.  Inserting a key k that is already stored stores it once more: the
    call raises nothing, the new traverse sequence is the old one with k
    put before the first key that is not below k, so k occurs one more time
    and every other key as often as before. *)
Theorem C5_insert_of_stored_key_duplicates :
  forall t ops k,
    2 <= t -> mem k (model ops) = true ->
    exists tr tr',
      pkg_run t ops = Ret tr /\
      Pkg.traverse tr = Ret (model ops, tr) /\
      Pkg.insert tr k = Ret tr' /\
      Pkg.traverse tr' = Ret (ins k (model ops), tr') /\
      count_occ Z.eq_dec (ins k (model ops)) k
      = S (count_occ Z.eq_dec (model ops) k) /\
      (forall x, x <> k ->
                 count_occ Z.eq_dec (ins k (model ops)) x
                 = count_occ Z.eq_dec (model ops) x).
Proof.
  intros t ops k Ht _.
  destruct (pkg_run_ok t ops Ht) as (tr & E & Hok & _ & Ee).
  destruct (pkg_insert_ok tr k Hok) as (tr' & Ei & Hok' & _ & Ee').
  exists tr, tr'. split; [assumption|].
  rewrite !pkg_traverse_ok, Ee', Ee by assumption.
  split; [reflexivity|]. split; [assumption|]. split; [reflexivity|].
  split; [apply count_ins_same | intros; apply count_ins_other; assumption].
Qed.

Lemma C5_insert_of_stored_key_duplicates_witness :
  2 <= 3 /\ mem 6 (model (map Insert demo_keys)) = true /\
  exists tr tr',
    pkg_run 3 (map Insert demo_keys) = Ret tr /\
    Pkg.traverse tr = Ret (model (map Insert demo_keys), tr) /\
    Pkg.insert tr 6 = Ret tr' /\
    Pkg.traverse tr' = Ret (ins 6 (model (map Insert demo_keys)), tr') /\
    count_occ Z.eq_dec (ins 6 (model (map Insert demo_keys))) 6
    = S (count_occ Z.eq_dec (model (map Insert demo_keys)) 6) /\
    (forall x, x <> 6 ->
               count_occ Z.eq_dec (ins 6 (model (map Insert demo_keys))) x
               = count_occ Z.eq_dec (model (map Insert demo_keys)) x).
Proof.
  split; [lia|]. split; [reflexivity|].
  apply (C5_insert_of_stored_key_duplicates 3 (map Insert demo_keys) 6);
    [lia | reflexivity].
Defined.

(** C6.  When insert(key) is called on a reached tree whose root is full,
    the root is first split under a new internal root: right after the
    split the new root has exactly one key and two children with exactly
    t-1 keys each; the key then goes down from that root, which is the root
    after the call, internal, still with that one key and two children.
    For t = 2, inserting 1, 2, 3, 4 gives the root [2] over the leaves [1]
    and [3, 4], and traverse gives 1 2 3 4. *)
Theorem C6_full_root_is_split_first :
  (forall t ops key tr,
      2 <= t -> pkg_run t ops = Ret tr -> is_full (root tr) = true ->
      exists m cL cR r',
        split_child (Node [] t [root tr] false) 0
        = Ret (Node [m] t [cL; cR] false) /\
        Py.len (keys cL) = t - 1 /\ Py.len (keys cR) = t - 1 /\
        insert_non_full (Node [m] t [cL; cR] false) key = Ret r' /\
        Pkg.insert tr key = Ret (Tree r' t) /\
        is_leaf r' = false /\ keys r' = [m] /\ Py.len (children r') = 2) /\
  pkg_run 2 (map Insert [1; 2; 3; 4])
  = Ret (Tree (Node [2] 2 [Node [1] 2 [] true; Node [3; 4] 2 [] true] false) 2)
  /\
  Pkg.traverse
    (Tree (Node [2] 2 [Node [1] 2 [] true; Node [3; 4] 2 [] true] false) 2)
  = Ret ([1; 2; 3; 4],
         Tree (Node [2] 2 [Node [1] 2 [] true; Node [3; 4] 2 [] true] false) 2).
Proof.
  split; [|split; vm_compute; reflexivity].
  intros t ops key [r t'] Ht E Hfull.
  destruct (pkg_run_inv t ops _ Ht E) as ((_ & Hsort & h & Hs) & Et & _).
  cbn [root tree_min_degree] in *. subst t'.
  rewrite (is_full_shaped _ _ _ _ Hs) in Hfull. apply Z.eqb_eq in Hfull.
  destruct (root_split_spec t Ht h r Hs Hfull)
    as (m & cL & cR & Esplit & LL & LR & _ & _ & Snr & Enr).
  destruct (insert_keeps_root_keys t Ht h 1 (Node [m] t [cL; cR] false) key)
    as (r' & Ei & Ek & Ec & El); auto.
  { rewrite Enr. assumption. }
  { cbn [children]. repeat constructor; lia. }
  exists m, cL, cR, r'. repeat split; auto.
  unfold Pkg.insert. cbn [root tree_min_degree].
  rewrite (is_full_shaped _ _ _ _ Hs), (proj2 (Z.eqb_eq _ _) Hfull).
  rewrite Esplit. cbn [bind root tree_min_degree]. rewrite Ei. reflexivity.
Qed.

Lemma C6_full_root_is_split_first_witness :
  2 <= 2 /\
  pkg_run 2 (map Insert [1; 2; 3]) = Ret (Tree (Node [1; 2; 3] 2 [] true) 2) /\
  is_full (Node [1; 2; 3] 2 [] true) = true /\
  exists m cL cR r',
    split_child (Node [] 2 [Node [1; 2; 3] 2 [] true] false) 0
    = Ret (Node [m] 2 [cL; cR] false) /\
    Py.len (keys cL) = 2 - 1 /\ Py.len (keys cR) = 2 - 1 /\
    insert_non_full (Node [m] 2 [cL; cR] false) 4 = Ret r' /\
    Pkg.insert (Tree (Node [1; 2; 3] 2 [] true) 2) 4 = Ret (Tree r' 2) /\
    is_leaf r' = false /\ keys r' = [m] /\ Py.len (children r') = 2.
Proof.
  split; [lia|]. split; [reflexivity|]. split; [reflexivity|].
  apply (proj1 C6_full_root_is_split_first 2 (map Insert [1; 2; 3]) 4
           (Tree (Node [1; 2; 3] 2 [] true) 2));
    [lia | reflexivity | reflexivity].
Defined.

(** C7.  Constructing a tree raises ValueError exactly when min_degree is
    below 2; from 2 on it gives a tree whose root is a leaf without keys
    and without children. *)
Theorem C7_constructor_checks_min_degree :
  forall t,
    (Pkg.init t = Raise ValueError <-> t < 2) /\
    (2 <= t -> Pkg.init t = Ret (Tree (Node [] t [] true) t)).
Proof.
  intros t. unfold Pkg.init. destruct (Z.ltb_spec t 2).
  - split; [split; [lia | reflexivity] | lia].
  - split; [split; [discriminate | lia] | reflexivity].
Qed.

Lemma C7_constructor_checks_min_degree_witness :
  2 <= 3 /\ Pkg.init 3 = Ret (Tree (Node [] 3 [] true) 3).
Proof.
  split; [lia|]. apply (proj2 (C7_constructor_checks_min_degree 3)). lia.
Defined.

(** C8 (amended).  For every reached tree and every key k stored at most
    once, a second delete(k) right after the first is a no-op: both runs
    end in the same tree, so in the same traverse sequence and the same
    search answers. *)
Theorem C8_second_delete_changes_nothing :
  forall t ops k,
    2 <= t -> (count_occ Z.eq_dec (model ops) k <= 1)%nat ->
    exists tr1,
      pkg_run t (ops ++ [Delete k]) = Ret tr1 /\
      pkg_run t ((ops ++ [Delete k]) ++ [Delete k]) = Ret tr1 /\
      Pkg.delete tr1 k = Ret tr1 /\
      Pkg.traverse tr1 = Ret (remove_one k (model ops), tr1).
Proof.
  intros t ops k Ht Hcount.
  destruct (pkg_run_ok t ops Ht) as (tr & E & Hok & _ & Ee).
  destruct (pkg_delete_ok tr k Hok) as (tr1 & Ed & Hok1 & _ & Ee1 & _).
  destruct (pkg_delete_ok tr1 k Hok1) as (tr2 & Ed2 & _ & _ & _ & Hsame).
  assert (tr2 = tr1).
  { apply Hsame. rewrite Ee1, Ee. apply remove_one_last_copy. assumption. }
  subst tr2.
  assert (E1 : pkg_run t (ops ++ [Delete k]) = Ret tr1).
  { rewrite pkg_run_snoc, E. exact Ed. }
  exists tr1. split; [assumption|]. split.
  { rewrite pkg_run_snoc, E1. exact Ed2. }
  split; [assumption|].
  rewrite pkg_traverse_ok, Ee1, Ee by assumption. reflexivity.
Qed.

Lemma C8_second_delete_changes_nothing_witness :
  2 <= 3 /\
  (count_occ Z.eq_dec (model (map Insert demo_keys)) 10%Z <= 1)%nat /\
  exists tr1,
    pkg_run 3 (map Insert demo_keys ++ [Delete 10]) = Ret tr1 /\
    pkg_run 3 ((map Insert demo_keys ++ [Delete 10]) ++ [Delete 10])
    = Ret tr1 /\
    Pkg.delete tr1 10 = Ret tr1 /\
    Pkg.traverse tr1
    = Ret (remove_one 10 (model (map Insert demo_keys)), tr1).
Proof.
  split; [lia|]. split; [vm_compute; lia|].
  apply (C8_second_delete_changes_nothing 3 (map Insert demo_keys) 10);
    [lia | vm_compute; lia].
Defined.

(** C8, as stated, fails: with t = 2 and 1 inserted twice, one delete(1)
    leaves the traverse sequence [1], two leave it empty. *)
Lemma C8_counterexample_two_copies :
  pkg_run 2 [Insert 1; Insert 1; Delete 1]
  = Ret (Tree (Node [1] 2 [] true) 2) /\
  pkg_run 2 [Insert 1; Insert 1; Delete 1; Delete 1]
  = Ret (Tree (Node [] 2 [] true) 2) /\
  Pkg.traverse (Tree (Node [1] 2 [] true) 2)
  = Ret ([1], Tree (Node [1] 2 [] true) 2) /\
  Pkg.traverse (Tree (Node [] 2 [] true) 2)
  = Ret ([], Tree (Node [] 2 [] true) 2).
Proof. repeat split; vm_compute; reflexivity. Qed.

(** C9.  The package and the script agree on what can be observed: for
    every min_degree >= 2 and every sequence of insert and delete calls,
    both end without an exception, traverse gives the same key sequence in
    both, and every search is answered present in both or absent in
    both. *)
Theorem C9_package_and_script_agree :
  forall t ops,
    2 <= t ->
    exists tr1 tr2 out,
      pkg_run t ops = Ret tr1 /\ script_run t ops = Ret tr2 /\
      Pkg.traverse tr1 = Ret (out, tr1) /\
      Script.traverse tr2 = Ret (out, tr2) /\
      forall k, exists o1 o2,
          Pkg.search tr1 k = Ret (o1, tr1) /\
          Script.search tr2 k = Ret (o2, tr2) /\
          present o1 = present o2.
Proof.
  intros t ops Ht.
  destruct (pkg_run_ok t ops Ht) as (tr1 & E1 & Hok1 & _ & Ee1).
  destruct (script_run_ok t ops Ht) as (tr2 & E2 & Hok2 & _ & Ee2).
  exists tr1, tr2, (model ops). split; [assumption|]. split; [assumption|].
  rewrite (script_traverse_eq tr2), !pkg_traverse_ok, Ee1, Ee2 by assumption.
  split; [reflexivity|]. split; [reflexivity|]. intros k.
  destruct (pkg_search_ok tr1 k Hok1) as (o1 & Es1 & Ho1).
  destruct (script_search_ok tr2 k Hok2) as (o2 & Es2 & Ho2).
  exists o1, o2. split; [assumption|]. split; [assumption|].
  rewrite Ee1 in Ho1. rewrite Ee2 in Ho2. eapply present_iff; eassumption.
Qed.

Lemma C9_package_and_script_agree_witness :
  2 <= 2 /\
  exists tr1 tr2 out,
    pkg_run 2 (map Insert [1; 2; 3; 4] ++ [Delete 0; Delete 3]) = Ret tr1 /\
    script_run 2 (map Insert [1; 2; 3; 4] ++ [Delete 0; Delete 3]) = Ret tr2 /\
    Pkg.traverse tr1 = Ret (out, tr1) /\
    Script.traverse tr2 = Ret (out, tr2) /\
    forall k, exists o1 o2,
        Pkg.search tr1 k = Ret (o1, tr1) /\
        Script.search tr2 k = Ret (o2, tr2) /\
        present o1 = present o2.
Proof.
  split; [lia|].
  apply (C9_package_and_script_agree 2
           (map Insert [1; 2; 3; 4] ++ [Delete 0; Delete 3])).
  lia.
Defined.

(** C10.  search and traverse only observe: whenever a call of search(k) or
    of traverse() returns, on a node or on a tree, the receiver is the
    value it was before the call, with the same keys, children and is_leaf
    flag in every node. *)
Theorem C10_search_and_traverse_only_observe :
  (forall n k r n', NodeOps.search n k = Ret (r, n') -> n' = n) /\
  (forall n out n', NodeOps.traverse n = Ret (out, n') -> n' = n) /\
  (forall tr k r tr', Pkg.search tr k = Ret (r, tr') -> tr' = tr) /\
  (forall tr out tr', Pkg.traverse tr = Ret (out, tr') -> tr' = tr).
Proof.
  split; [intros n k r n'; apply search_fuel_frame|].
  split; [exact traverse_frame|]. split.
  - intros [rt t] k r tr'. unfold Pkg.search. cbn [root tree_min_degree].
    destruct (Py.is_empty (keys rt)); [congruence|].
    destruct (search rt k) as [[o rt']| |] eqn:E; try discriminate.
    cbn [bind]. apply search_fuel_frame in E. congruence.
  - intros [rt t] out tr'. unfold Pkg.traverse. cbn [root tree_min_degree].
    destruct (traverse rt) as [[o rt']| |] eqn:E; try discriminate.
    cbn [bind]. apply traverse_frame in E. congruence.
Qed.

Lemma C10_search_and_traverse_only_observe_witness :
  (NodeOps.search split_root 4 = Ret (Some split_leaf_right, split_root) /\
   split_root = split_root) /\
  (NodeOps.traverse split_root = Ret ([1; 2; 3; 4], split_root) /\
   split_root = split_root) /\
  (Pkg.search (Tree split_root 2) 4
   = Ret (Some split_leaf_right, Tree split_root 2) /\
   Tree split_root 2 = Tree split_root 2) /\
  (Pkg.traverse (Tree split_root 2) = Ret ([1; 2; 3; 4], Tree split_root 2) /\
   Tree split_root 2 = Tree split_root 2).
Proof.
  destruct C10_search_and_traverse_only_observe as (H1 & H2 & H3 & H4).
  split; [split; [reflexivity|]|].
  { apply (H1 split_root 4 (Some split_leaf_right) split_root). reflexivity. }
  split; [split; [reflexivity|]|].
  { apply (H2 split_root [1; 2; 3; 4] split_root). reflexivity. }
  split; [split; [reflexivity|]|].
  { apply (H3 (Tree split_root 2) 4 (Some split_leaf_right)
             (Tree split_root 2)). reflexivity. }
  split; [reflexivity|].
  apply (H4 (Tree split_root 2) [1; 2; 3; 4] (Tree split_root 2)).
  reflexivity.
Defined.

(** * Further properties of the node and tree operations *)

(** ** The checks and the predicates *)

Lemma shaped_b_iff t h :
  forall lo n, shaped_b t h lo n = true <-> shaped t h lo n.
Proof.
  induction h as [|h IH]; intros lo n; cbn [shaped_b shaped];
    rewrite !andb_true_iff, Z.eqb_eq, !Z.leb_le.
  - rewrite is_empty_len, Z.eqb_eq. split.
    + intros (((H1 & H2) & H3) & H4 & H5). repeat split; auto.
      apply len_zero_nil. assumption.
    + intros (H1 & (H2 & H3) & H4 & H5). rewrite H5. repeat split; auto.
  - rewrite negb_true_iff, Z.eqb_eq, forallb_forall, Forall_forall. split.
    + intros (((H1 & H2) & H3) & (H4 & H5) & H6). repeat split; auto.
      intros c Hc. apply IH. auto.
    + intros (H1 & (H2 & H3) & H4 & H5 & H6). repeat split; auto.
      intros c Hc. apply IH. auto.
Qed.

Lemma ascending_sorted l : ascending false l = true -> StronglySorted Z.le l.
Proof.
  induction l as [|x l IH]; intros H; [constructor|].
  destruct l as [|y l]; [repeat constructor|].
  rewrite ascending_cons in H. apply andb_true_iff in H.
  destruct H as [Hxy Hl]. apply Z.leb_le in Hxy. specialize (IH Hl).
  constructor; [assumption|]. constructor; [assumption|].
  apply sorted_bounds_r in IH. rewrite Forall_forall in *.
  intros v Hv. specialize (IH v Hv). lia.
Qed.

Lemma subtree_ok_iff t h lo n :
  subtree_ok t h lo n = true <->
  shaped t h lo n /\ StronglySorted Z.le (elems n).
Proof.
  unfold subtree_ok. rewrite andb_true_iff, shaped_b_iff. split.
  - intros [H1 H2]. auto using ascending_sorted.
  - intros [H1 H2]. auto using ascending_le.
Qed.

Lemma tree_wf_iff tr : tree_wf tr = true <-> tree_ok tr.
Proof.
  unfold tree_wf, tree_ok. rewrite andb_true_iff, Z.leb_le, subtree_ok_iff.
  split.
  - intros (H1 & H2 & H3). eauto.
  - intros (H1 & H2 & h & H3). rewrite (shaped_height _ _ _ _ H3). simpl.
    auto.
Qed.

Lemma getitem_inv {A} (l : list A) i x :
  0 <= i -> Py.getitem l i = Ret x ->
  exists l1 l2, l = l1 ++ x :: l2 /\ Py.len l1 = i.
Proof.
  intros Hi. unfold Py.getitem. rewrite norm_nonneg by assumption.
  destruct (Py.in_range l i); [|discriminate].
  destruct (nth_error l (Z.to_nat i)) as [y|] eqn:E; [|discriminate].
  intros H. injection H as ->. apply nth_error_split in E.
  destruct E as (l1 & l2 & -> & E). exists l1, l2. split; [reflexivity|].
  unfold Py.len. lia.
Qed.

Lemma getitem_in {A} (l : list A) i x : Py.getitem l i = Ret x -> In x l.
Proof.
  unfold Py.getitem. destruct (Py.in_range l (Py.norm l i)); [|discriminate].
  destruct (nth_error l (Z.to_nat (Py.norm l i))) as [y|] eqn:E;
    [|discriminate].
  intros H. injection H as ->. eapply nth_error_In. eassumption.
Qed.

(** An internal node seen from child [i]. *)
Lemma zipper_at t h lo p i c :
  shaped t (S h) lo p -> 0 <= i -> Py.getitem (children p) i = Ret c ->
  exists ks1 ks2 cs1 cs2,
    p = Node (ks1 ++ ks2) t (cs1 ++ c :: cs2) false /\
    Py.len cs1 = Py.len ks1 /\ Py.len ks1 = i.
Proof.
  intros Hs Hi Hc. destruct p as [ks t' cs lf]. simpl in Hs.
  destruct Hs as (-> & B & -> & E & Hall). cbn [children] in Hc.
  destruct (getitem_inv _ _ _ Hi Hc) as (cs1 & cs2 & -> & L).
  destruct (split_at_le ks i) as (ks1 & ks2 & -> & L').
  { pose proof (len_nonneg cs2). len_simpl. lia. }
  exists ks1, ks2, cs1, cs2. split; [reflexivity|]. lia.
Qed.

Lemma node_eta n : Node (keys n) (min_degree n) (children n) (is_leaf n) = n.
Proof. destruct n; reflexivity. Qed.

Lemma head_ge_all key l :
  StronglySorted Z.le l -> head_ge key l -> Forall (fun v => key <= v) l.
Proof.
  destruct l as [|x l]; intros Hs Hh; [constructor|]. simpl in Hh.
  constructor; [assumption|]. apply sorted_bounds_r in Hs.
  rewrite Forall_forall in *. intros v Hv. specialize (Hs v Hv). lia.
Qed.

(** X1.  On keys in non-decreasing order, get_key_index gives the leftmost
    position of the key: an index between 0 and len(keys) with every key
    before it below the key and every key from it on at least the key. *)
Theorem X1_get_key_index_leftmost_position :
  forall n key,
    ascending false (keys n) = true ->
    exists i : nat,
      get_key_index n key = Z.of_nat i /\
      (i <= length (keys n))%nat /\
      Forall (fun v => v < key) (firstn i (keys n)) /\
      Forall (fun v => key <= v) (skipn i (keys n)).
Proof.
  intros n key Hs. apply ascending_sorted in Hs.
  destruct (key_index_split n key Hs) as (ks1 & ks2 & E & I & F & G).
  exists (length ks1). rewrite E in *. split; [exact I|].
  split; [rewrite length_app; lia|].
  rewrite firstn_len_app, skipn_len_app by reflexivity.
  split; [assumption|]. apply head_ge_all; [|assumption].
  eapply sorted_app_r. eassumption.
Qed.

Lemma X1_get_key_index_leftmost_position_witness :
  ascending false (keys ex_leaf) = true /\
  exists i : nat,
    get_key_index ex_leaf 6 = Z.of_nat i /\
    (i <= length (keys ex_leaf))%nat /\
    Forall (fun v => v < 6) (firstn i (keys ex_leaf)) /\
    Forall (fun v => 6 <= v) (skipn i (keys ex_leaf)).
Proof.
  split; [reflexivity|].
  apply (X1_get_key_index_leftmost_position ex_leaf 6).
  reflexivity.
Defined.

(** ** split_child and merge *)

Lemma subtree_ok_same_elems t h lo p p' :
  StronglySorted Z.le (elems p) -> elems p' = elems p ->
  shaped t h lo p' -> subtree_ok t h lo p' = true.
Proof.
  intros Hsort E Hs. apply subtree_ok_iff. rewrite E. auto.
Qed.

Lemma full_child_count t h lo c :
  shaped t h lo c -> is_full c = true -> Py.len (keys c) = 2 * t - 1.
Proof.
  intros Hs H. rewrite (is_full_shaped _ _ _ _ Hs) in H.
  apply Z.eqb_eq. assumption.
Qed.

Section SplitMerge.
Variable t : Z.
Hypothesis Ht : 2 <= t.
Variables (h : nat) (lo : Z).

(** [split_child] on a node given from the child to split. *)
Lemma split_child_at ks1 ks2 cs1 c cs2 :
  let p := Node (ks1 ++ ks2) t (cs1 ++ c :: cs2) false in
  shaped t (S h) lo p -> Py.len cs1 = Py.len ks1 ->
  Py.len (keys c) = 2 * t - 1 -> Py.len (ks1 ++ ks2) < 2 * t - 1 ->
  exists m cl cr,
    split_child p (Py.len ks1)
    = Ret (Node (ks1 ++ m :: ks2) t (cs1 ++ cl :: cr :: cs2) false) /\
    Py.getitem (keys c) (t - 1) = Ret m /\
    keys c = keys cl ++ m :: keys cr /\
    Py.len (keys cl) = t - 1 /\ Py.len (keys cr) = t - 1 /\
    shaped t (S h) lo (Node (ks1 ++ m :: ks2) t (cs1 ++ cl :: cr :: cs2) false)
    /\
    elems (Node (ks1 ++ m :: ks2) t (cs1 ++ cl :: cr :: cs2) false) = elems p
    /\
    merge (Node (ks1 ++ m :: ks2) t (cs1 ++ cl :: cr :: cs2) false)
          (Py.len ks1) = Ret p.
Proof.
  intros p Hs L Hfull Hroom. subst p.
  apply shaped_zip in Hs. destruct Hs as (_ & B & Hc & A1 & Sc & A2).
  destruct (split_sem t Ht h c Sc Hfull)
    as (a & m & b & ca & cb & Ek & La & Lb & Ec & El & SL & SR & Ee).
  exists m, (Node a (min_degree c) ca (is_leaf c)), (Node b t cb (is_leaf c)).
  split; [apply split_child_zip; assumption|].
  split; [rewrite Ek; apply getitem_app; lia|].
  split; [exact Ek|]. split; [exact La|]. split; [exact Lb|].
  split; [apply shaped_zip; len_simpl; repeat split; auto; lia|].
  split; [rewrite elems_zip2, elems_zip by assumption; rewrite Ee; reflexivity|].
  rewrite merge_zip by assumption. cbn [keys children min_degree is_leaf].
  do 3 f_equal. rewrite <- Ek.
  replace (if is_leaf c then ca else ca ++ cb) with (children c).
  - rewrite node_eta. reflexivity.
  - rewrite Ec. destruct (is_leaf c); [subst cb; apply app_nil_r | reflexivity].
Qed.

(** [merge] on a node given from the left one of two minimal children. *)
Lemma merge_at ks1 k ks2 cs1 c s cs2 :
  let p := Node (ks1 ++ k :: ks2) t (cs1 ++ c :: s :: cs2) false in
  shaped t (S h) lo p -> Py.len cs1 = Py.len ks1 ->
  Py.len (keys c) < t -> Py.len (keys s) < t ->
  exists m,
    merge p (Py.len ks1) = Ret (Node (ks1 ++ ks2) t (cs1 ++ m :: cs2) false) /\
    keys m = keys c ++ k :: keys s /\
    shaped t (S h) (lo - 1) (Node (ks1 ++ ks2) t (cs1 ++ m :: cs2) false) /\
    elems (Node (ks1 ++ ks2) t (cs1 ++ m :: cs2) false) = elems p /\
    split_child (Node (ks1 ++ ks2) t (cs1 ++ m :: cs2) false) (Py.len ks1)
    = Ret p.
Proof.
  intros p Hs L Lc Ls. subst p.
  apply shaped_zip in Hs. destruct Hs as (_ & B & Hc & A1 & Sc & A2).
  inversion A2 as [|? ? Ss A3]; subst.
  destruct (merge_sem t Ht h c s k Sc Ss Lc Ls) as (Sm & Em).
  set (m := Node (keys c ++ k :: keys s) (min_degree c)
              (if is_leaf c then children c else children c ++ children s)
              (is_leaf c)) in *.
  exists m. split; [apply merge_zip; assumption|]. split; [reflexivity|].
  split.
  { apply shaped_zip. len_simpl. repeat split; auto; try lia.
    eapply shaped_weaken; [|eassumption]. lia. }
  split; [rewrite elems_zip, elems_zip2 by assumption; rewrite Em; reflexivity|].
  pose proof (shaped_count _ _ _ _ Sc) as Bc.
  pose proof (shaped_count _ _ _ _ Ss) as Bs.
  assert (Els : is_leaf s = is_leaf c /\ min_degree s = t /\
                (if is_leaf c then children c = [] /\ children s = []
                 else Py.len (children c) = t)).
  { destruct h; simpl in Sc, Ss.
    - destruct Sc as (_ & _ & -> & ->). destruct Ss as (-> & _ & -> & ->).
      auto.
    - destruct Sc as (_ & _ & -> & E & _). destruct Ss as (-> & _ & -> & _).
      repeat split; auto. lia. }
  destruct Els as (El & Ed & Ech).
  assert (Es : Node (keys s) t (if is_leaf c then [] else children s)
                    (is_leaf c) = s).
  { clear - El Ed Ech. destruct s as [ks' ts css ls].
    cbn [keys children min_degree is_leaf] in *. subst ts ls.
    destruct (is_leaf c); [|reflexivity].
    destruct Ech as [_ ->]. reflexivity. }
  rewrite (split_child_zip ks1 ks2 t cs1 m cs2 false (keys c) k (keys s)
             (children c) (if is_leaf c then [] else children s)).
  - cbn [min_degree is_leaf m]. rewrite node_eta, Es. reflexivity.
  - assumption.
  - reflexivity.
  - lia.
  - cbn [children m]. destruct (is_leaf c); [symmetry; apply app_nil_r | reflexivity].
  - cbn [is_leaf m]. destruct (is_leaf c); [reflexivity | assumption].
Qed.
End SplitMerge.

Lemma app_same_length {A} (l1 l2 r1 r2 : list A) :
  l1 ++ r1 = l2 ++ r2 -> length l1 = length l2 -> l1 = l2 /\ r1 = r2.
Proof.
  revert l2. induction l1 as [|a l1 IH]; intros [|b l2] E L;
    simpl in *; try discriminate; [auto|].
  injection E as -> E. destruct (IH l2 E) as [-> ->]; [lia | auto].
Qed.

(** An internal node seen from two neighbouring children. *)
Lemma zipper2_at t h lo p i c s :
  shaped t (S h) lo p -> 0 <= i ->
  Py.getitem (children p) i = Ret c ->
  Py.getitem (children p) (i + 1) = Ret s ->
  exists ks1 k ks2 cs1 cs2,
    p = Node (ks1 ++ k :: ks2) t (cs1 ++ c :: s :: cs2) false /\
    Py.len cs1 = Py.len ks1 /\ Py.len ks1 = i.
Proof.
  intros Hs Hi Hc Hsib.
  destruct (zipper_at _ _ _ _ _ _ Hs Hi Hc)
    as (ks1 & ks2 & cs1 & cs2 & -> & L & Li).
  cbn [children] in Hsib.
  assert (Hi' : 0 <= i + 1) by lia.
  destruct (getitem_inv _ _ _ Hi' Hsib) as (l1 & l2 & E & L1).
  replace (cs1 ++ c :: cs2) with ((cs1 ++ [c]) ++ cs2) in E
    by (rewrite <- app_assoc; reflexivity).
  apply app_same_length in E;
    [|rewrite length_app; simpl; unfold Py.len in *; lia].
  destruct E as [_ ->].
  apply shaped_zip in Hs. destruct Hs as (_ & _ & Hc' & _).
  destruct ks2 as [|k ks2];
    [len_simpl; pose proof (len_nonneg l2); lia|].
  exists ks1, k, ks2, cs1, l2. auto.
Qed.

(** X2.  split_child on a well-formed internal node that is not full, at a
    full child: the call returns; the child's key t-1 moves up to position
    i of the node, the child keeps the t-1 keys before it, a new sibling at
    i+1 takes the t-1 keys after it; the node stays well-formed and its
    in-order key sequence is the same. *)
Theorem X2_split_child_moves_middle_key_up :
  forall t h lo p i c,
    2 <= t -> subtree_ok t (S h) lo p = true -> 0 <= i ->
    Py.getitem (children p) i = Ret c -> is_full c = true ->
    Py.len (keys p) < 2 * t - 1 ->
    exists p' m cl cr,
      split_child p i = Ret p' /\
      Py.getitem (keys c) (t - 1) = Ret m /\
      keys c = keys cl ++ m :: keys cr /\
      Py.len (keys cl) = t - 1 /\ Py.len (keys cr) = t - 1 /\
      Py.getitem (keys p') i = Ret m /\
      Py.getitem (children p') i = Ret cl /\
      Py.getitem (children p') (i + 1) = Ret cr /\
      Py.len (keys p') = Py.len (keys p) + 1 /\
      subtree_ok t (S h) lo p' = true /\
      elems p' = elems p.
Proof.
  intros t h lo p i c Ht Hok Hi Hc Hfull Hroom.
  apply subtree_ok_iff in Hok. destruct Hok as [Hs Hsort].
  destruct (zipper_at _ _ _ _ _ _ Hs Hi Hc)
    as (ks1 & ks2 & cs1 & cs2 & -> & L & Li).
  pose proof Hs as Hs0. apply shaped_zip in Hs0.
  destruct Hs0 as (_ & _ & _ & _ & Sc & _).
  pose proof (full_child_count _ _ _ _ Sc Hfull) as Hcount.
  cbn [keys] in Hroom.
  destruct (split_child_at t Ht h lo ks1 ks2 cs1 c cs2 Hs L Hcount Hroom)
    as (m & cl & cr & E & Em & Ek & Ll & Lr & Sp' & Ee & _).
  subst i. eexists. exists m, cl, cr.
  split; [exact E|]. split; [exact Em|]. split; [exact Ek|].
  split; [exact Ll|]. split; [exact Lr|]. cbn [keys children].
  split; [apply getitem_app; reflexivity|].
  split; [apply getitem_app; auto|].
  split.
  { replace (cs1 ++ cl :: cr :: cs2) with ((cs1 ++ [cl]) ++ cr :: cs2)
      by (rewrite <- app_assoc; reflexivity).
    apply getitem_app. rewrite len_snoc. lia. }
  split; [len_simpl; lia|].
  split; [eapply subtree_ok_same_elems; eassumption | exact Ee].
Qed.

Lemma X2_split_child_moves_middle_key_up_witness :
  exists p' m cl cr,
    split_child ex_over_full 0 = Ret p' /\
    Py.getitem (keys ex_full_child) (3 - 1) = Ret m /\
    keys ex_full_child = keys cl ++ m :: keys cr /\
    Py.len (keys cl) = 3 - 1 /\ Py.len (keys cr) = 3 - 1 /\
    Py.getitem (keys p') 0 = Ret m /\
    Py.getitem (children p') 0 = Ret cl /\
    Py.getitem (children p') (0 + 1) = Ret cr /\
    Py.len (keys p') = Py.len (keys ex_over_full) + 1 /\
    subtree_ok 3 1 1 p' = true /\
    elems p' = elems ex_over_full.
Proof.
  apply (X2_split_child_moves_middle_key_up 3 0 1 ex_over_full 0
           ex_full_child); try reflexivity; lia.
Defined.

(** X3.  merge on a well-formed internal node, at two neighbouring children
    that both hold fewer than t keys: the call returns; key i leaves the
    node and joins the keys of the two children in one child at position i,
    the right one leaves the children; every node stays within its bounds
    (the node itself with one key less) and the in-order key sequence is
    the same. *)
Theorem X3_merge_joins_two_minimal_children :
  forall t h lo p i c s,
    2 <= t -> subtree_ok t (S h) lo p = true -> 0 <= i ->
    Py.getitem (children p) i = Ret c ->
    Py.getitem (children p) (i + 1) = Ret s ->
    Py.len (keys c) < t -> Py.len (keys s) < t ->
    exists p' k m,
      Py.getitem (keys p) i = Ret k /\
      merge p i = Ret p' /\
      Py.getitem (children p') i = Ret m /\
      keys m = keys c ++ k :: keys s /\
      Py.len (keys p') = Py.len (keys p) - 1 /\
      Py.len (children p') = Py.len (children p) - 1 /\
      subtree_ok t (S h) (lo - 1) p' = true /\
      elems p' = elems p.
Proof.
  intros t h lo p i c s Ht Hok Hi Hc Hsib Lc Ls.
  apply subtree_ok_iff in Hok. destruct Hok as [Hs Hsort].
  destruct (zipper2_at _ _ _ _ _ _ _ Hs Hi Hc Hsib)
    as (ks1 & k & ks2 & cs1 & cs2 & -> & L & Li).
  destruct (merge_at t Ht h lo ks1 k ks2 cs1 c s cs2 Hs L Lc Ls)
    as (m & E & Ek & Sp' & Ee & _).
  subst i. eexists. exists k, m. cbn [keys children].
  split; [apply getitem_app; reflexivity|].
  split; [exact E|]. cbn [keys children].
  split; [apply getitem_app; auto|]. split; [exact Ek|].
  split; [len_simpl; lia|]. split; [len_simpl; lia|].
  split; [eapply subtree_ok_same_elems; eassumption | exact Ee].
Qed.

Lemma X3_merge_joins_two_minimal_children_witness :
  exists p' k m,
    Py.getitem (keys ex_over_minimal) 0 = Ret k /\
    merge ex_over_minimal 0 = Ret p' /\
    Py.getitem (children p') 0 = Ret m /\
    keys m = keys (Node [1; 2] 3 [] true) ++ k :: keys (Node [12; 13] 3 [] true)
    /\
    Py.len (keys p') = Py.len (keys ex_over_minimal) - 1 /\
    Py.len (children p') = Py.len (children ex_over_minimal) - 1 /\
    subtree_ok 3 1 (2 - 1) p' = true /\
    elems p' = elems ex_over_minimal.
Proof.
  apply (X3_merge_joins_two_minimal_children 3 0 2 ex_over_minimal 0
           (Node [1; 2] 3 [] true) (Node [12; 13] 3 [] true));
    try reflexivity; lia.
Defined.

(** X4.  merge undoes split_child: on a well-formed internal node that is
    not full, splitting the full child i and then merging at i gives back
    the node as it was. *)
Theorem X4_merge_undoes_split_child :
  forall t h lo p i c,
    2 <= t -> subtree_ok t (S h) lo p = true -> 0 <= i ->
    Py.getitem (children p) i = Ret c -> is_full c = true ->
    Py.len (keys p) < 2 * t - 1 ->
    exists p', split_child p i = Ret p' /\ merge p' i = Ret p.
Proof.
  intros t h lo p i c Ht Hok Hi Hc Hfull Hroom.
  apply subtree_ok_iff in Hok. destruct Hok as [Hs Hsort].
  destruct (zipper_at _ _ _ _ _ _ Hs Hi Hc)
    as (ks1 & ks2 & cs1 & cs2 & -> & L & Li).
  pose proof Hs as Hs0. apply shaped_zip in Hs0.
  destruct Hs0 as (_ & _ & _ & _ & Sc & _).
  pose proof (full_child_count _ _ _ _ Sc Hfull) as Hcount.
  cbn [keys] in Hroom.
  destruct (split_child_at t Ht h lo ks1 ks2 cs1 c cs2 Hs L Hcount Hroom)
    as (m & cl & cr & E & _ & _ & _ & _ & _ & _ & Em).
  subst i. eexists. split; [exact E | exact Em].
Qed.

Lemma X4_merge_undoes_split_child_witness :
  exists p', split_child ex_over_full 0 = Ret p' /\ merge p' 0 = Ret ex_over_full.
Proof.
  apply (X4_merge_undoes_split_child 3 0 1 ex_over_full 0 ex_full_child);
    try reflexivity; lia.
Defined.

(** X5.  split_child undoes merge: on a well-formed internal node, merging
    two neighbouring children that both hold fewer than t keys and then
    splitting the merged child gives back the node as it was. *)
Theorem X5_split_child_undoes_merge :
  forall t h lo p i c s,
    2 <= t -> subtree_ok t (S h) lo p = true -> 0 <= i ->
    Py.getitem (children p) i = Ret c ->
    Py.getitem (children p) (i + 1) = Ret s ->
    Py.len (keys c) < t -> Py.len (keys s) < t ->
    exists p', merge p i = Ret p' /\ split_child p' i = Ret p.
Proof.
  intros t h lo p i c s Ht Hok Hi Hc Hsib Lc Ls.
  apply subtree_ok_iff in Hok. destruct Hok as [Hs Hsort].
  destruct (zipper2_at _ _ _ _ _ _ _ Hs Hi Hc Hsib)
    as (ks1 & k & ks2 & cs1 & cs2 & -> & L & Li).
  destruct (merge_at t Ht h lo ks1 k ks2 cs1 c s cs2 Hs L Lc Ls)
    as (m & E & _ & _ & _ & Es).
  subst i. eexists. split; [exact E | exact Es].
Qed.

Lemma X5_split_child_undoes_merge_witness :
  exists p',
    merge ex_over_minimal 0 = Ret p' /\ split_child p' 0 = Ret ex_over_minimal.
Proof.
  apply (X5_split_child_undoes_merge 3 0 2 ex_over_minimal 0
           (Node [1; 2] 3 [] true) (Node [12; 13] 3 [] true));
    try reflexivity; lia.
Defined.

(** Two subtrees of one height agree on the leaf flag and the degree. *)
Lemma shaped_siblings t h lo1 lo2 c s :
  shaped t h lo1 c -> shaped t h lo2 s ->
  is_leaf s = is_leaf c /\ min_degree c = t /\ min_degree s = t /\
  (is_leaf c = true -> children c = [] /\ children s = []).
Proof.
  destruct h; simpl.
  - intros (-> & _ & -> & ->) (-> & _ & -> & ->). auto.
  - intros (-> & _ & -> & _) (-> & _ & -> & _).
    repeat split; auto; discriminate.
Qed.

Section Borrow.
Variable t : Z.
Hypothesis Ht : 2 <= t.
Variables (h : nat) (lo : Z).

(** [borrow_from_prev] on a node given from the lending left sibling. *)
Lemma borrow_prev_at ks1 k ks2 cs1 s c cs2 :
  let p := Node (ks1 ++ k :: ks2) t (cs1 ++ s :: c :: cs2) false in
  shaped t (S h) lo p -> Py.len cs1 = Py.len ks1 ->
  t <= Py.len (keys s) -> Py.len (keys c) < t ->
  exists sk s' c',
    borrow_from_prev p (Py.len ks1 + 1)
    = Ret (Node (ks1 ++ sk :: ks2) t (cs1 ++ s' :: c' :: cs2) false) /\
    keys s = keys s' ++ [sk] /\ keys c' = k :: keys c /\
    shaped t (S h) lo (Node (ks1 ++ sk :: ks2) t (cs1 ++ s' :: c' :: cs2) false)
    /\
    elems (Node (ks1 ++ sk :: ks2) t (cs1 ++ s' :: c' :: cs2) false) = elems p
    /\
    borrow_from_next (Node (ks1 ++ sk :: ks2) t (cs1 ++ s' :: c' :: cs2) false)
                     (Py.len ks1) = Ret p.
Proof.
  intros p Hs L Ls Lc. subst p.
  apply shaped_zip in Hs. destruct Hs as (_ & B & Hc & A1 & Ss & A2).
  inversion A2 as [|? ? Sc A3]; subst.
  destruct (borrow_prev_sem t Ht h s c k Ss Sc Ls Lc)
    as (sks & sk & scs & sc & Ek & Ech & Ss' & Sc' & Ee).
  destruct (shaped_siblings _ _ _ _ _ _ Sc Ss) as (El & Dc & Ds & Hlf).
  eexists sk, _, _.
  split; [apply (borrow_from_prev_zip ks1 k ks2 t cs1 s c cs2 false
                   sks sk scs sc); assumption|].
  split; [exact Ek|]. split; [reflexivity|].
  split.
  { apply shaped_zip. len_simpl. repeat split; auto; try lia.
    constructor; [|assumption].
    eapply shaped_weaken; [|eassumption]. lia. }
  split.
  { rewrite !elems_zip2 by assumption. rewrite Ee. reflexivity. }
  rewrite (borrow_from_next_zip ks1 sk ks2 t cs1 _ _ cs2 false
             (keys c) k (children c) sc).
  - clear - Ek Ech El Hlf. destruct s as [ksS tS csS lS], c as [ksC tC csC lC].
    cbn [keys children min_degree is_leaf] in *. subst ksS lS.
    destruct lC.
    + destruct (Hlf eq_refl) as [-> ->]. reflexivity.
    + rewrite (Ech eq_refl). reflexivity.
  - assumption.
  - reflexivity.
  - cbn [is_leaf children]. rewrite El. intros ->. reflexivity.
Qed.

(** [borrow_from_next] on a node given from the child that is short. *)
Lemma borrow_next_at ks1 k ks2 cs1 c s cs2 :
  let p := Node (ks1 ++ k :: ks2) t (cs1 ++ c :: s :: cs2) false in
  shaped t (S h) lo p -> Py.len cs1 = Py.len ks1 ->
  Py.len (keys c) < t -> t <= Py.len (keys s) ->
  exists sk c' s',
    borrow_from_next p (Py.len ks1)
    = Ret (Node (ks1 ++ sk :: ks2) t (cs1 ++ c' :: s' :: cs2) false) /\
    keys s = sk :: keys s' /\ keys c' = keys c ++ [k] /\
    shaped t (S h) lo (Node (ks1 ++ sk :: ks2) t (cs1 ++ c' :: s' :: cs2) false)
    /\
    elems (Node (ks1 ++ sk :: ks2) t (cs1 ++ c' :: s' :: cs2) false) = elems p
    /\
    borrow_from_prev (Node (ks1 ++ sk :: ks2) t (cs1 ++ c' :: s' :: cs2) false)
                     (Py.len ks1 + 1) = Ret p.
Proof.
  intros p Hs L Lc Ls. subst p.
  apply shaped_zip in Hs. destruct Hs as (_ & B & Hc & A1 & Sc & A2).
  inversion A2 as [|? ? Ss A3]; subst.
  destruct (borrow_next_sem t Ht h c s k Sc Ss Lc Ls)
    as (sks & sk & scs & sc & Ek & Ech & Sc' & Ss' & Ee).
  destruct (shaped_siblings _ _ _ _ _ _ Sc Ss) as (El & Dc & Ds & Hlf).
  eexists sk, _, _.
  split; [apply (borrow_from_next_zip ks1 k ks2 t cs1 c s cs2 false
                   sks sk scs sc); assumption|].
  split; [exact Ek|]. split; [reflexivity|].
  split.
  { apply shaped_zip. len_simpl. repeat split; auto; try lia.
    eapply shaped_weaken; [|eassumption]. lia. }
  split.
  { rewrite !elems_zip2 by assumption. rewrite Ee. reflexivity. }
  rewrite (borrow_from_prev_zip ks1 sk ks2 t cs1 _ _ cs2 false
             (keys c) k (children c) sc).
  - clear - Ek Ech El Hlf. destruct s as [ksS tS csS lS], c as [ksC tC csC lC].
    cbn [keys children min_degree is_leaf] in *. subst ksS lS.
    destruct lC.
    + destruct (Hlf eq_refl) as [-> ->]. reflexivity.
    + rewrite (Ech eq_refl). reflexivity.
  - assumption.
  - reflexivity.
  - cbn [is_leaf children]. rewrite El. intros ->. reflexivity.
Qed.
End Borrow.

(** X6.  borrow_from_prev on a well-formed internal node, at a child i >= 1
    with fewer than t keys whose left sibling holds at least t: the call
    returns; the last key of the sibling replaces key i-1 of the node, the
    old key i-1 becomes the first key of the child; the node stays
    well-formed with the same bounds and its in-order key sequence is the
    same. *)
Theorem X6_borrow_from_prev_rotates_right :
  forall t h lo p i s c,
    2 <= t -> subtree_ok t (S h) lo p = true -> 1 <= i ->
    Py.getitem (children p) (i - 1) = Ret s ->
    Py.getitem (children p) i = Ret c ->
    t <= Py.len (keys s) -> Py.len (keys c) < t ->
    exists p' k sk s' c',
      Py.getitem (keys p) (i - 1) = Ret k /\
      borrow_from_prev p i = Ret p' /\
      Py.getitem (keys p') (i - 1) = Ret sk /\
      Py.getitem (children p') (i - 1) = Ret s' /\
      Py.getitem (children p') i = Ret c' /\
      keys s = keys s' ++ [sk] /\ keys c' = k :: keys c /\
      Py.len (keys p') = Py.len (keys p) /\
      subtree_ok t (S h) lo p' = true /\
      elems p' = elems p.
Proof.
  intros t h lo p i s c Ht Hok Hi Hsib Hc Ls Lc.
  apply subtree_ok_iff in Hok. destruct Hok as [Hs Hsort].
  replace i with (i - 1 + 1) in Hc by lia.
  assert (Hi' : 0 <= i - 1) by lia.
  destruct (zipper2_at _ _ _ _ _ _ _ Hs Hi' Hsib Hc)
    as (ks1 & k & ks2 & cs1 & cs2 & -> & L & Li).
  destruct (borrow_prev_at t Ht h lo ks1 k ks2 cs1 s c cs2 Hs L Ls Lc)
    as (sk & s' & c' & E & Ek & Ek' & Sp' & Ee & _).
  replace i with (Py.len ks1 + 1) by lia.
  replace (Py.len ks1 + 1 - 1) with (Py.len ks1) by lia.
  eexists. exists k, sk, s', c'. cbn [keys children].
  split; [apply getitem_app; reflexivity|].
  split; [exact E|]. cbn [keys children].
  split; [apply getitem_app; reflexivity|].
  split; [apply getitem_app; auto|].
  split.
  { replace (cs1 ++ s' :: c' :: cs2) with ((cs1 ++ [s']) ++ c' :: cs2)
      by (rewrite <- app_assoc; reflexivity).
    apply getitem_app. rewrite len_snoc. lia. }
  split; [exact Ek|]. split; [exact Ek'|].
  split; [len_simpl; lia|].
  split; [eapply subtree_ok_same_elems; eassumption | exact Ee].
Qed.

Lemma X6_borrow_from_prev_rotates_right_witness :
  exists p' k sk s' c',
    Py.getitem (keys ex_left_lends) (1 - 1) = Ret k /\
    borrow_from_prev ex_left_lends 1 = Ret p' /\
    Py.getitem (keys p') (1 - 1) = Ret sk /\
    Py.getitem (children p') (1 - 1) = Ret s' /\
    Py.getitem (children p') 1 = Ret c' /\
    keys (Node [1; 2; 3] 3 [] true) = keys s' ++ [sk] /\
    keys c' = k :: keys (Node [12; 13] 3 [] true) /\
    Py.len (keys p') = Py.len (keys ex_left_lends) /\
    subtree_ok 3 1 1 p' = true /\
    elems p' = elems ex_left_lends.
Proof.
  apply (X6_borrow_from_prev_rotates_right 3 0 1 ex_left_lends 1
           (Node [1; 2; 3] 3 [] true) (Node [12; 13] 3 [] true));
    try reflexivity; lia.
Defined.

(** X7.  borrow_from_next on a well-formed internal node, at a child i with
    fewer than t keys whose right sibling holds at least t: the call
    returns; the first key of the sibling replaces key i of the node, the
    old key i becomes the last key of the child; the node stays well-formed
    with the same bounds and its in-order key sequence is the same. *)
Theorem X7_borrow_from_next_rotates_left :
  forall t h lo p i c s,
    2 <= t -> subtree_ok t (S h) lo p = true -> 0 <= i ->
    Py.getitem (children p) i = Ret c ->
    Py.getitem (children p) (i + 1) = Ret s ->
    Py.len (keys c) < t -> t <= Py.len (keys s) ->
    exists p' k sk c' s',
      Py.getitem (keys p) i = Ret k /\
      borrow_from_next p i = Ret p' /\
      Py.getitem (keys p') i = Ret sk /\
      Py.getitem (children p') i = Ret c' /\
      Py.getitem (children p') (i + 1) = Ret s' /\
      keys s = sk :: keys s' /\ keys c' = keys c ++ [k] /\
      Py.len (keys p') = Py.len (keys p) /\
      subtree_ok t (S h) lo p' = true /\
      elems p' = elems p.
Proof.
  intros t h lo p i c s Ht Hok Hi Hc Hsib Lc Ls.
  apply subtree_ok_iff in Hok. destruct Hok as [Hs Hsort].
  destruct (zipper2_at _ _ _ _ _ _ _ Hs Hi Hc Hsib)
    as (ks1 & k & ks2 & cs1 & cs2 & -> & L & Li).
  destruct (borrow_next_at t Ht h lo ks1 k ks2 cs1 c s cs2 Hs L Lc Ls)
    as (sk & c' & s' & E & Ek & Ek' & Sp' & Ee & _).
  subst i. eexists. exists k, sk, c', s'. cbn [keys children].
  split; [apply getitem_app; reflexivity|].
  split; [exact E|]. cbn [keys children].
  split; [apply getitem_app; reflexivity|].
  split; [apply getitem_app; auto|].
  split.
  { replace (cs1 ++ c' :: s' :: cs2) with ((cs1 ++ [c']) ++ s' :: cs2)
      by (rewrite <- app_assoc; reflexivity).
    apply getitem_app. rewrite len_snoc. lia. }
  split; [exact Ek|]. split; [exact Ek'|].
  split; [len_simpl; lia|].
  split; [eapply subtree_ok_same_elems; eassumption | exact Ee].
Qed.

Lemma X7_borrow_from_next_rotates_left_witness :
  exists p' k sk c' s',
    Py.getitem (keys ex_right_lends) 0 = Ret k /\
    borrow_from_next ex_right_lends 0 = Ret p' /\
    Py.getitem (keys p') 0 = Ret sk /\
    Py.getitem (children p') 0 = Ret c' /\
    Py.getitem (children p') (0 + 1) = Ret s' /\
    keys (Node [12; 13; 14] 3 [] true) = sk :: keys s' /\
    keys c' = keys (Node [1; 2] 3 [] true) ++ [k] /\
    Py.len (keys p') = Py.len (keys ex_right_lends) /\
    subtree_ok 3 1 1 p' = true /\
    elems p' = elems ex_right_lends.
Proof.
  apply (X7_borrow_from_next_rotates_left 3 0 1 ex_right_lends 0
           (Node [1; 2] 3 [] true) (Node [12; 13; 14] 3 [] true));
    try reflexivity; lia.
Defined.

(** X8.  borrow_from_prev undoes borrow_from_next: on a well-formed
    internal node, at a child i with fewer than t keys whose right sibling
    holds at least t, borrow_from_next at i followed by borrow_from_prev at
    i+1 gives back the node as it was. *)
Theorem X8_borrow_from_prev_undoes_borrow_from_next :
  forall t h lo p i c s,
    2 <= t -> subtree_ok t (S h) lo p = true -> 0 <= i ->
    Py.getitem (children p) i = Ret c ->
    Py.getitem (children p) (i + 1) = Ret s ->
    Py.len (keys c) < t -> t <= Py.len (keys s) ->
    exists p', borrow_from_next p i = Ret p' /\
               borrow_from_prev p' (i + 1) = Ret p.
Proof.
  intros t h lo p i c s Ht Hok Hi Hc Hsib Lc Ls.
  apply subtree_ok_iff in Hok. destruct Hok as [Hs Hsort].
  destruct (zipper2_at _ _ _ _ _ _ _ Hs Hi Hc Hsib)
    as (ks1 & k & ks2 & cs1 & cs2 & -> & L & Li).
  subst i.
  destruct (borrow_next_at t Ht h lo ks1 k ks2 cs1 c s cs2 Hs L Lc Ls)
    as (sk & c' & s' & E & _ & _ & _ & _ & Eb).
  eexists. split; [exact E | exact Eb].
Qed.

Lemma X8_borrow_from_prev_undoes_borrow_from_next_witness :
  exists p', borrow_from_next ex_right_lends 0 = Ret p' /\
             borrow_from_prev p' (0 + 1) = Ret ex_right_lends.
Proof.
  apply (X8_borrow_from_prev_undoes_borrow_from_next 3 0 1 ex_right_lends 0
           (Node [1; 2] 3 [] true) (Node [12; 13; 14] 3 [] true));
    try reflexivity; lia.
Defined.

(** X9.  borrow_from_next undoes borrow_from_prev: on a well-formed
    internal node, at a child i >= 1 with fewer than t keys whose left
    sibling holds at least t, borrow_from_prev at i followed by
    borrow_from_next at i-1 gives back the node as it was. *)
Theorem X9_borrow_from_next_undoes_borrow_from_prev :
  forall t h lo p i s c,
    2 <= t -> subtree_ok t (S h) lo p = true -> 1 <= i ->
    Py.getitem (children p) (i - 1) = Ret s ->
    Py.getitem (children p) i = Ret c ->
    t <= Py.len (keys s) -> Py.len (keys c) < t ->
    exists p', borrow_from_prev p i = Ret p' /\
               borrow_from_next p' (i - 1) = Ret p.
Proof.
  intros t h lo p i s c Ht Hok Hi Hsib Hc Ls Lc.
  apply subtree_ok_iff in Hok. destruct Hok as [Hs Hsort].
  replace i with (i - 1 + 1) in Hc by lia.
  assert (Hi' : 0 <= i - 1) by lia.
  destruct (zipper2_at _ _ _ _ _ _ _ Hs Hi' Hsib Hc)
    as (ks1 & k & ks2 & cs1 & cs2 & -> & L & Li).
  destruct (borrow_prev_at t Ht h lo ks1 k ks2 cs1 s c cs2 Hs L Ls Lc)
    as (sk & s' & c' & E & _ & _ & _ & _ & Eb).
  replace i with (Py.len ks1 + 1) by lia.
  replace (Py.len ks1 + 1 - 1) with (Py.len ks1) by lia.
  eexists. split; [exact E | exact Eb].
Qed.

Lemma X9_borrow_from_next_undoes_borrow_from_prev_witness :
  exists p', borrow_from_prev ex_left_lends 1 = Ret p' /\
             borrow_from_next p' (1 - 1) = Ret ex_left_lends.
Proof.
  apply (X9_borrow_from_next_undoes_borrow_from_prev 3 0 1 ex_left_lends 1
           (Node [1; 2; 3] 3 [] true) (Node [12; 13] 3 [] true));
    try reflexivity; lia.
Defined.

(** X10.  fill on a well-formed internal node with at least one key, at a
    child i that holds fewer than t keys: the call returns, by a borrow or
    a merge; the child at the index that the deleting method goes down with
    (i-1 when i was the last child and a merge removed it, else i) then
    holds at least t keys; every node stays within its bounds (the node
    itself may lose one key) and the in-order key sequence is the same. *)
Theorem X10_fill_leaves_a_spare_key :
  forall t h lo p i c,
    2 <= t -> subtree_ok t (S h) lo p = true -> 1 <= lo -> 0 <= i ->
    Py.getitem (children p) i = Ret c -> Py.len (keys c) < t ->
    exists p' c',
      fill p i = Ret p' /\
      Py.getitem (children p')
        (if (i =? Py.len (keys p)) && (i >? Py.len (keys p'))
         then i - 1 else i) = Ret c' /\
      t <= Py.len (keys c') /\
      subtree_ok t (S h) (lo - 1) p' = true /\
      elems p' = elems p.
Proof.
  intros t h lo p i c Ht Hok Hlo Hi Hc Lc.
  apply subtree_ok_iff in Hok. destruct Hok as [Hs Hsort].
  destruct (zipper_at _ _ _ _ _ _ Hs Hi Hc)
    as (ks1 & ks2 & cs1 & cs2 & -> & L & Li).
  destruct (fill_spec t Ht h lo ks1 ks2 cs1 c cs2 Hs Hlo L Lc Hsort)
    as (p' & E & ks1' & ks2' & cs1' & c' & cs2'
        & -> & L' & Sp' & Sc' & Ee & Eidx & _).
  subst i. eexists. exists c'. split; [exact E|]. cbn [keys children].
  rewrite Eidx.
  split; [apply getitem_app; auto|].
  split; [apply (shaped_count _ _ _ _ Sc')|].
  split; [eapply subtree_ok_same_elems; eassumption | exact Ee].
Qed.

Lemma X10_fill_leaves_a_spare_key_witness :
  exists p' c',
    fill ex_over_minimal 0 = Ret p' /\
    Py.getitem (children p')
      (if (0 =? Py.len (keys ex_over_minimal)) && (0 >? Py.len (keys p'))
       then 0 - 1 else 0) = Ret c' /\
    3 <= Py.len (keys c') /\
    subtree_ok 3 1 (2 - 1) p' = true /\
    elems p' = elems ex_over_minimal.
Proof.
  apply (X10_fill_leaves_a_spare_key 3 0 2 ex_over_minimal 0
           (Node [1; 2] 3 [] true)); try reflexivity; lia.
Defined.

(** X11.  get_predecessor on a well-formed subtree whose nodes all hold a
    key returns the largest key of the subtree: the last one of the
    in-order sequence, and no key of the subtree is above it. *)
Theorem X11_get_predecessor_is_the_largest_key :
  forall t h lo n,
    2 <= t -> subtree_ok t h lo n = true -> 1 <= lo ->
    exists p l,
      get_predecessor n = Ret p /\ elems n = l ++ [p] /\
      Forall (fun v => v <= p) (elems n).
Proof.
  intros t h lo n Ht Hok Hlo.
  apply subtree_ok_iff in Hok. destruct Hok as [Hs Hsort].
  destruct (get_predecessor_spec t Ht h (height n) n lo) as (p & l & E & El);
    [rewrite (shaped_height _ _ _ _ Hs); lia | assumption | assumption |].
  exists p, l. split; [exact E|]. split; [exact El|].
  rewrite El in *. apply Forall_app. split.
  - eapply sorted_bounds_l. eassumption.
  - constructor; [lia | constructor].
Qed.

Lemma X11_get_predecessor_is_the_largest_key_witness :
  exists p l,
    get_predecessor ex_over_minimal = Ret p /\
    elems ex_over_minimal = l ++ [p] /\
    Forall (fun v => v <= p) (elems ex_over_minimal).
Proof.
  apply (X11_get_predecessor_is_the_largest_key 3 1 2 ex_over_minimal);
    try reflexivity; lia.
Defined.

(** X12.  get_successor on a well-formed subtree whose nodes all hold a key
    returns the smallest key of the subtree: the first one of the in-order
    sequence, and no key of the subtree is below it. *)
Theorem X12_get_successor_is_the_smallest_key :
  forall t h lo n,
    2 <= t -> subtree_ok t h lo n = true -> 1 <= lo ->
    exists p l,
      get_successor n = Ret p /\ elems n = p :: l /\
      Forall (fun v => p <= v) (elems n).
Proof.
  intros t h lo n Ht Hok Hlo.
  apply subtree_ok_iff in Hok. destruct Hok as [Hs Hsort].
  destruct (get_successor_spec t Ht h (height n) n lo) as (p & l & E & El);
    [rewrite (shaped_height _ _ _ _ Hs); lia | assumption | assumption |].
  exists p, l. split; [exact E|]. split; [exact El|].
  rewrite El in *. constructor; [lia|].
  apply sorted_bounds_r. assumption.
Qed.

Lemma X12_get_successor_is_the_smallest_key_witness :
  exists p l,
    get_successor ex_over_minimal = Ret p /\
    elems ex_over_minimal = p :: l /\
    Forall (fun v => p <= v) (elems ex_over_minimal).
Proof.
  apply (X12_get_successor_is_the_smallest_key 3 1 2 ex_over_minimal);
    try reflexivity; lia.
Defined.

(** ** Where the deleting methods go down

    [descend] and [remove_from_non_leaf] each end in one call of the
    deleting method on a child; the child, the key and what is built from
    the result do not depend on the deleting method. *)

Section Reach.
Variable t : Z.
Hypothesis Ht : 2 <= t.
Variable h : nat.

Lemma fill_or_keep lo ks1 ks2 cs1 c cs2 :
  let n := Node (ks1 ++ ks2) t (cs1 ++ c :: cs2) false in
  shaped t (S h) lo n -> 1 <= lo -> Py.len cs1 = Py.len ks1 ->
  StronglySorted Z.le (elems n) ->
  exists n1,
    (if Py.len (keys c) <? t then fill n (Py.len ks1) else Ret n) = Ret n1 /\
    filled t h lo n ks1 ks2 n1.
Proof.
  intros n Hs Hlo L Hsort. subst n.
  destruct (Z.ltb_spec (Py.len (keys c)) t).
  - apply fill_spec; assumption.
  - eexists. split; [reflexivity|].
    pose proof Hs as Hs0. apply shaped_zip in Hs.
    destruct Hs as (_ & B & Hc & A1 & Sc & A2).
    exists ks1, ks2, cs1, c, cs2.
    split; [reflexivity|]. split; [assumption|].
    split; [eapply shaped_weaken; [|eassumption]; lia|].
    split; [eapply shaped_strengthen; eassumption|].
    split; [reflexivity|]. split; [|auto].
    destruct (Z.gtb_spec (Py.len ks1) (Py.len (ks1 ++ ks2)));
      [len_simpl; pose proof (len_nonneg ks2); lia|].
    rewrite andb_false_r. reflexivity.
Qed.

Lemma descend_reaches lo ks1 ks2 cs1 c cs2 key :
  let n := Node (ks1 ++ ks2) t (cs1 ++ c :: cs2) false in
  shaped t (S h) lo n -> 1 <= lo -> Py.len cs1 = Py.len ks1 ->
  StronglySorted Z.le (elems n) ->
  Forall (fun v => v < key) ks1 -> head_gt key ks2 ->
  exists x rebuild,
    shaped t h t x /\ StronglySorted Z.le (elems x) /\
    (In key (elems n) <-> In key (elems x)) /\
    forall del,
      descend del n (Py.len ks1) key = (r <- del x key ;; Ret (rebuild r)).
Proof.
  intros n Hs Hlo L Hsort F G.
  destruct (fill_or_keep lo ks1 ks2 cs1 c cs2 Hs Hlo L Hsort)
    as (n1 & E1 & ks1' & ks2' & cs1' & c' & cs2'
        & -> & L' & S1 & Sc' & Esame & Eidx & Hkey).
  destruct (Hkey key F G) as [F' G'].
  exists c', (fun r => Node (ks1' ++ ks2') t (cs1' ++ r :: cs2') false).
  subst n. rewrite <- Esame in Hsort |- *.
  split; [assumption|].
  split; [eapply zip_child_sorted; eassumption|].
  split; [eapply zip_in; eassumption|].
  intros del. unfold descend. cbn [keys children min_degree].
  rewrite getitem_app by auto. cbn [bind]. rewrite E1.
  cbn [bind keys children]. rewrite Eidx. rewrite getitem_app by auto.
  cbn [bind]. destruct (del c' key); cbn [bind]; try reflexivity.
  rewrite setitem_app by auto. reflexivity.
Qed.

Lemma remove_from_non_leaf_reaches lo ks1 key ks2 cs1 c cs2 :
  let n := Node (ks1 ++ key :: ks2) t (cs1 ++ c :: cs2) false in
  shaped t (S h) lo n -> Py.len cs1 = Py.len ks1 ->
  StronglySorted Z.le (elems n) ->
  exists x arg rebuild,
    shaped t h t x /\ StronglySorted Z.le (elems x) /\ In arg (elems x) /\
    forall del,
      remove_from_non_leaf del n (Py.len ks1)
      = (r <- del x arg ;; Ret (rebuild r)).
Proof.
  intros n Hs L Hsort. subst n.
  apply shaped_zip in Hs. destruct Hs as (_ & B & Hc & A1 & Sc & A2).
  destruct cs2 as [|s cs2]; [len_simpl; pose proof (len_nonneg ks2); lia|].
  inversion A2 as [|? ? Ss A3]; subst.
  rewrite elems_zip2 in Hsort by assumption.
  pose proof (sorted_app_l _ _ (sorted_app_r _ _ Hsort)) as Hmid.
  pose proof (sorted_app_l _ _ Hmid) as Hsc.
  pose proof (sorted_cons_inv _ _ (sorted_app_r _ _ Hmid)) as Hss.
  destruct (Z.leb_spec t (Py.len (keys c))) as [Lc|Lc].
  - destruct (get_predecessor_spec t Ht h (height c) c t)
      as (p & l & Ep & El);
      [rewrite (shaped_height _ _ _ _ Sc); lia
      | eapply shaped_strengthen; eassumption | lia |].
    exists c, p,
      (fun r => Node (ks1 ++ p :: ks2) t (cs1 ++ r :: s :: cs2) false).
    split; [eapply shaped_strengthen; eassumption|].
    split; [assumption|].
    split; [rewrite El; apply in_or_app; simpl; auto|].
    intros del. unfold remove_from_non_leaf.
    cbn [keys children min_degree is_leaf].
    rewrite getitem_app by reflexivity. cbn [bind].
    rewrite getitem_app by auto. cbn [bind].
    destruct (Z.leb_spec t (Py.len (keys c))); [|lia].
    unfold get_predecessor. rewrite Ep. cbn [bind].
    rewrite setitem_app by reflexivity. cbn [bind].
    destruct (del c p); cbn [bind]; try reflexivity.
    rewrite setitem_app by auto. reflexivity.
  - destruct (Z.leb_spec t (Py.len (keys s))) as [Ls|Ls].
    + destruct (get_successor_spec t Ht h (height s) s t)
        as (p & l & Ep & El);
        [rewrite (shaped_height _ _ _ _ Ss); lia
        | eapply shaped_strengthen; eassumption | lia |].
      exists s, p,
        (fun r => Node (ks1 ++ p :: ks2) t (cs1 ++ c :: r :: cs2) false).
      split; [eapply shaped_strengthen; eassumption|].
      split; [assumption|].
      split; [rewrite El; simpl; auto|].
      intros del. unfold remove_from_non_leaf.
      cbn [keys children min_degree is_leaf].
      rewrite getitem_app by reflexivity. cbn [bind].
      rewrite getitem_app by auto. cbn [bind].
      destruct (Z.leb_spec t (Py.len (keys c))); [lia|].
      replace (cs1 ++ c :: s :: cs2) with ((cs1 ++ [c]) ++ s :: cs2)
        by (rewrite <- app_assoc; reflexivity).
      rewrite getitem_app by (rewrite len_snoc; lia). cbn [bind].
      destruct (Z.leb_spec t (Py.len (keys s))); [|lia].
      unfold get_successor. rewrite Ep. cbn [bind].
      rewrite setitem_app by reflexivity. cbn [bind].
      destruct (del s p); cbn [bind]; try reflexivity.
      rewrite setitem_app by (rewrite len_snoc; lia). cbn [bind].
      rewrite <- !app_assoc. reflexivity.
    + destruct (merge_sem t Ht h c s key Sc Ss Lc Ls) as (Sm & Em).
      set (m := Node (keys c ++ key :: keys s) (min_degree c)
                  (if is_leaf c then children c
                   else children c ++ children s) (is_leaf c)) in *.
      exists m, key,
        (fun r => Node (ks1 ++ ks2) t (cs1 ++ r :: cs2) false).
      split; [assumption|].
      split; [rewrite Em; assumption|].
      split; [rewrite Em; apply in_or_app; simpl; auto|].
      intros del. unfold remove_from_non_leaf.
      cbn [keys children min_degree is_leaf].
      rewrite getitem_app by reflexivity. cbn [bind].
      rewrite getitem_app by auto. cbn [bind].
      destruct (Z.leb_spec t (Py.len (keys c))); [lia|].
      replace (cs1 ++ c :: s :: cs2) with ((cs1 ++ [c]) ++ s :: cs2)
        by (rewrite <- app_assoc; reflexivity).
      rewrite getitem_app by (rewrite len_snoc; lia). cbn [bind].
      destruct (Z.leb_spec t (Py.len (keys s))); [lia|].
      rewrite <- !app_assoc. cbn [app].
      rewrite merge_zip by assumption. cbn [bind children]. fold m.
      rewrite getitem_app by auto. cbn [bind].
      destruct (del m key); cbn [bind]; try reflexivity.
      rewrite setitem_app by auto. reflexivity.
Qed.
End Reach.

(** On a key that is not below the node, [_delete_internal] comes to a leaf
    and reads a child of it. *)
Lemma pkg_delete_internal_miss t (Ht : 2 <= t) h :
  forall fuel, (h < fuel)%nat -> misses t h (Pkg._delete_internal fuel).
Proof.
  induction h as [|h IH]; intros fuel Hf n lo key Hs Hlo Hsort Hout;
    (destruct fuel as [|fuel]; [lia|]).
  - destruct n as [ks t' cs lf]. simpl in Hs, Hsort, Hout.
    destruct Hs as (-> & B & -> & ->).
    apply pkg_delete_internal_leaf_miss; assumption.
  - cbn [Pkg._delete_internal].
    destruct Hlo as [Hlo|Hlo]; [discriminate|].
    destruct (locate _ _ _ _ key Hs Hsort)
      as (ks1 & ks2 & cs1 & c & cs2 & -> & L & I & F & G).
    rewrite I, (key_at_split _ ks1 ks2) by reflexivity. cbn [bind is_leaf].
    destruct (match ks2 with [] => false | k :: _ => k =? key end) eqn:Hfound.
    + exfalso. destruct ks2 as [|k ks2]; [discriminate|].
      apply Z.eqb_eq in Hfound. subst k. apply Hout.
      eapply in_keys_elems; [eassumption|].
      cbn [keys]. apply in_or_app. simpl. auto.
    + destruct (descend_reaches t Ht h lo ks1 ks2 cs1 c cs2 key Hs Hlo L Hsort F
                  (head_ge_gt _ _ G Hfound))
        as (x & rebuild & Sx & Hx & Hin & E).
      rewrite E. rewrite (IH fuel ltac:(lia) x t key); auto.
      * right. lia.
      * tauto.
Qed.

(** On a key that is below the node, the deleting methods of the two files
    return the same. *)
Lemma node_delete_agree t (Ht : 2 <= t) h :
  forall fuel n lo key,
    (h < fuel)%nat -> shaped t h lo n -> (h = O \/ 1 <= lo) ->
    StronglySorted Z.le (elems n) -> In key (elems n) ->
    Script.node_delete_fuel fuel n key = Pkg._delete_internal fuel n key.
Proof.
  induction h as [|h IH]; intros fuel n lo key Hf Hs Hlo Hsort Hin;
    (destruct fuel as [|fuel]; [lia|]);
    cbn [Script.node_delete_fuel Pkg._delete_internal].
  - destruct (key_index_split n key) as (ks1 & ks2 & E & I & F & G).
    { eapply keys_sorted; eassumption. }
    destruct n as [ks t' cs lf]. simpl in Hs, E.
    destruct Hs as (-> & B & -> & ->). subst ks.
    rewrite I, (key_at_split _ ks1 ks2) by reflexivity. cbn [bind is_leaf].
    destruct (match ks2 with [] => false | k :: _ => k =? key end) eqn:Hfound;
      [reflexivity|].
    exfalso. simpl in Hsort, Hin.
    eapply leaf_key_notin; eauto using head_ge_gt.
  - destruct Hlo as [Hlo|Hlo]; [discriminate|].
    destruct (locate _ _ _ _ key Hs Hsort)
      as (ks1 & ks2 & cs1 & c & cs2 & -> & L & I & F & G).
    rewrite I, (key_at_split _ ks1 ks2) by reflexivity. cbn [bind is_leaf].
    destruct (match ks2 with [] => false | k :: _ => k =? key end) eqn:Hfound.
    + destruct ks2 as [|k ks2]; [discriminate|]. apply Z.eqb_eq in Hfound.
      subst k.
      destruct (remove_from_non_leaf_reaches t Ht h lo ks1 key ks2 cs1 c cs2
                  Hs L Hsort)
        as (x & arg & rebuild & Sx & Hx & Hxin & E).
      rewrite !E. rewrite (IH fuel x t arg); auto; [lia | right; lia].
    + destruct (descend_reaches t Ht h lo ks1 ks2 cs1 c cs2 key Hs Hlo L Hsort F
                  (head_ge_gt _ _ G Hfound))
        as (x & rebuild & Sx & Hx & Hxin & E).
      rewrite !E. rewrite (IH fuel x t key); auto; [lia | right; lia | tauto].
Qed.

Lemma root_lo_cases h lo : root_lo h <= lo -> h = O \/ 1 <= lo.
Proof. destruct h; simpl; [left; reflexivity | right; assumption]. Qed.

(** X13.  _delete_internal on a well-formed subtree (its top node with at
    least one key unless it is a leaf) and a key stored below it: the call
    returns; one occurrence of the key is gone from the in-order sequence,
    nothing else changes in it; every node stays within its bounds, the top
    node with at most one key less. *)
Theorem X13_delete_internal_removes_one_occurrence :
  forall t h lo n key,
    2 <= t -> subtree_ok t h lo n = true -> root_lo h <= lo ->
    mem key (elems n) = true ->
    exists n',
      Pkg._delete_internal (height n) n key = Ret n' /\
      subtree_ok t h (lo - 1) n' = true /\
      elems n' = remove_one key (elems n).
Proof.
  intros t h lo n key Ht Hok Hlo Hin.
  apply subtree_ok_iff in Hok. destruct Hok as [Hs Hsort].
  apply mem_in in Hin. apply root_lo_cases in Hlo.
  destruct (pkg_delete_internal_spec t Ht h (height n)
              ltac:(rewrite (shaped_height _ _ _ _ Hs); lia)
              n lo key Hs Hlo Hsort (fun _ => Hin))
    as (n' & E & Sn' & En').
  exists n'. split; [exact E|]. split; [|exact En'].
  apply subtree_ok_iff. split; [assumption|].
  rewrite En'. apply remove_one_sorted. assumption.
Qed.

Lemma X13_delete_internal_removes_one_occurrence_witness :
  exists n',
    Pkg._delete_internal (height ex_over_minimal) ex_over_minimal 12 = Ret n' /\
    subtree_ok 3 1 (2 - 1) n' = true /\
    elems n' = remove_one 12 (elems ex_over_minimal).
Proof.
  apply (X13_delete_internal_removes_one_occurrence 3 1 2 ex_over_minimal 12);
    [lia | reflexivity | simpl; lia | reflexivity].
Defined.

(** X14.  _delete_internal on a well-formed subtree and a key that is not
    stored below it raises IndexError: the descent comes to a leaf, misses
    the key there and reads a child of the leaf.  BTreeNode.delete calls it
    only after search has found the key. *)
Theorem X14_delete_internal_raises_on_absent_key :
  forall t h lo n key,
    2 <= t -> subtree_ok t h lo n = true -> root_lo h <= lo ->
    mem key (elems n) = false ->
    Pkg._delete_internal (height n) n key = Raise IndexError.
Proof.
  intros t h lo n key Ht Hok Hlo Hout.
  apply subtree_ok_iff in Hok. destruct Hok as [Hs Hsort].
  apply mem_not_in in Hout. apply root_lo_cases in Hlo.
  apply (pkg_delete_internal_miss t Ht h (height n)
           ltac:(rewrite (shaped_height _ _ _ _ Hs); lia)
           n lo key Hs Hlo Hsort Hout).
Qed.

Lemma X14_delete_internal_raises_on_absent_key_witness :
  Pkg._delete_internal (height ex_over_minimal) ex_over_minimal 11
  = Raise IndexError.
Proof.
  apply (X14_delete_internal_raises_on_absent_key 3 1 2 ex_over_minimal 11);
    [lia | reflexivity | simpl; lia | reflexivity].
Defined.

(** X15.  BTreeNode.delete of src/main.py on a well-formed subtree and any
    key: the call returns; the in-order sequence loses one occurrence of
    the key if it is stored and is the same if not; every node stays within
    its bounds, the top node with at most one key less. *)
Theorem X15_script_node_delete_returns :
  forall t h lo n key,
    2 <= t -> subtree_ok t h lo n = true -> root_lo h <= lo ->
    exists n',
      Script.node_delete n key = Ret n' /\
      subtree_ok t h (lo - 1) n' = true /\
      elems n' = remove_one key (elems n) /\
      (mem key (elems n) = false -> elems n' = elems n).
Proof.
  intros t h lo n key Ht Hok Hlo.
  apply subtree_ok_iff in Hok. destruct Hok as [Hs Hsort].
  apply root_lo_cases in Hlo.
  destruct (script_node_delete_spec t Ht h (height n)
              ltac:(rewrite (shaped_height _ _ _ _ Hs); lia)
              n lo key Hs Hlo Hsort ltac:(discriminate))
    as (n' & E & Sn' & En').
  exists n'. split; [exact E|]. split; [|split; [exact En'|]].
  - apply subtree_ok_iff. split; [assumption|].
    rewrite En'. apply remove_one_sorted. assumption.
  - intros Hout. apply mem_not_in in Hout. rewrite En'.
    apply remove_one_notin. assumption.
Qed.

Lemma X15_script_node_delete_returns_witness :
  exists n',
    Script.node_delete ex_over_minimal 11 = Ret n' /\
    subtree_ok 3 1 (2 - 1) n' = true /\
    elems n' = remove_one 11 (elems ex_over_minimal) /\
    (mem 11 (elems ex_over_minimal) = false -> elems n' = elems ex_over_minimal).
Proof.
  apply (X15_script_node_delete_returns 3 1 2 ex_over_minimal 11);
    [lia | reflexivity | simpl; lia].
Defined.

(** X16.  On a key that is stored below a well-formed subtree,
    BTreeNode.delete of src/main.py and _delete_internal of the package
    return the same node. *)
Theorem X16_node_deletes_agree_on_stored_keys :
  forall t h lo n key,
    2 <= t -> subtree_ok t h lo n = true -> root_lo h <= lo ->
    mem key (elems n) = true ->
    exists n',
      Pkg._delete_internal (height n) n key = Ret n' /\
      Script.node_delete n key = Ret n'.
Proof.
  intros t h lo n key Ht Hok Hlo Hin.
  apply subtree_ok_iff in Hok. destruct Hok as [Hs Hsort].
  apply mem_in in Hin. apply root_lo_cases in Hlo.
  assert (Hf : (h < height n)%nat)
    by (rewrite (shaped_height _ _ _ _ Hs); lia).
  destruct (pkg_delete_internal_spec t Ht h (height n) Hf
              n lo key Hs Hlo Hsort (fun _ => Hin))
    as (n' & E & _).
  exists n'. split; [exact E|]. unfold Script.node_delete.
  rewrite (node_delete_agree t Ht h (height n) n lo key); assumption.
Qed.

Lemma X16_node_deletes_agree_on_stored_keys_witness :
  exists n',
    Pkg._delete_internal (height ex_over_minimal) ex_over_minimal 12 = Ret n' /\
    Script.node_delete ex_over_minimal 12 = Ret n'.
Proof.
  apply (X16_node_deletes_agree_on_stored_keys 3 1 2 ex_over_minimal 12);
    [lia | reflexivity | simpl; lia | reflexivity].
Defined.

Lemma tree_deletes_agree tr key :
  tree_ok tr -> In key (elems (root tr)) ->
  Script.delete tr key = Pkg.delete tr key.
Proof.
  destruct tr as [r t]. unfold tree_ok. cbn [root tree_min_degree].
  intros (Ht & Hsort & h & Hs) Hin. unfold Script.delete, Pkg.delete.
  cbn [root tree_min_degree].
  assert (E : Script.node_delete r key = Pkg.node_delete r key).
  { unfold Script.node_delete, Pkg.node_delete.
    destruct (search_ok t Ht h r key Hs Hsort) as (o & E & Ho).
    rewrite E. cbn [bind].
    destruct o as [found|]; [|exfalso; apply Ho in Hin; congruence].
    apply (node_delete_agree t Ht h (height r) r (root_lo h) key); auto.
    - rewrite (shaped_height _ _ _ _ Hs). lia.
    - apply root_lo_cases. lia. }
  rewrite E. reflexivity.
Qed.

(** X17.  BTree.delete of a stored key gives the same tree in both files:
    on a well-formed tree and a key that is stored in it, delete of the
    package and delete of src/main.py return, and return equal trees, node
    for node. *)
Theorem X17_tree_deletes_agree_on_stored_keys :
  forall tr key,
    tree_wf tr = true -> mem key (elems (root tr)) = true ->
    exists tr',
      Pkg.delete tr key = Ret tr' /\ Script.delete tr key = Ret tr' /\
      tree_wf tr' = true.
Proof.
  intros tr key Hok Hin. apply tree_wf_iff in Hok. apply mem_in in Hin.
  destruct (pkg_delete_ok tr key Hok) as (tr' & E & Hok' & _).
  exists tr'. split; [exact E|].
  split; [rewrite tree_deletes_agree; assumption|].
  apply tree_wf_iff. assumption.
Qed.

Lemma X17_tree_deletes_agree_on_stored_keys_witness :
  exists tr',
    Pkg.delete (Tree ex_over_minimal 3) 12 = Ret tr' /\
    Script.delete (Tree ex_over_minimal 3) 12 = Ret tr' /\
    tree_wf tr' = true.
Proof.
  apply (X17_tree_deletes_agree_on_stored_keys (Tree ex_over_minimal 3) 12);
    reflexivity.
Defined.

Lemma run_from_agree ops :
  forall tr,
    tree_ok tr -> stored_deletes_from (elems (root tr)) ops = true ->
    run_from Script.insert Script.delete tr ops
    = run_from Pkg.insert Pkg.delete tr ops.
Proof.
  induction ops as [|o ops IH]; intros tr Hok Hst; [reflexivity|].
  cbn [stored_deletes_from] in Hst. apply andb_true_iff in Hst.
  destruct Hst as [Ho Hst]. cbn [run_from].
  destruct o as [k|k]; cbn [apply_op].
  - rewrite script_insert_eq by assumption.
    destruct (pkg_insert_ok tr k Hok) as (tr1 & E & Hok1 & _ & Ee).
    rewrite E. cbn [bind]. apply IH; [assumption|].
    rewrite Ee. assumption.
  - apply mem_in in Ho. rewrite tree_deletes_agree by assumption.
    destruct (pkg_delete_ok tr k Hok) as (tr1 & E & Hok1 & _ & Ee & _).
    rewrite E. cbn [bind]. apply IH; [assumption|].
    rewrite Ee. assumption.
Qed.

(** X18.  When every delete of a sequence of calls names a key that is
    stored at that moment, src/main.py and the package build the same
    tree, node for node: both runs return, and return equal trees. *)
Theorem X18_files_build_the_same_tree :
  forall t ops,
    2 <= t -> stored_deletes ops = true ->
    exists tr, pkg_run t ops = Ret tr /\ script_run t ops = Ret tr.
Proof.
  intros t ops Ht Hst.
  destruct (pkg_run_ok t ops Ht) as (tr & E & _).
  exists tr. split; [exact E|]. rewrite <- E.
  unfold script_run, pkg_run, run_ops. rewrite script_init_eq.
  destruct (pkg_init_ok t Ht) as (tr0 & E0 & Hok0 & _ & Ee0).
  rewrite E0. cbn [bind]. apply run_from_agree; [assumption|].
  rewrite Ee0. exact Hst.
Qed.

Lemma X18_files_build_the_same_tree_witness :
  exists tr,
    pkg_run 2 (map Insert demo_keys ++ [Delete 6; Delete 12]) = Ret tr /\
    script_run 2 (map Insert demo_keys ++ [Delete 6; Delete 12]) = Ret tr.
Proof.
  apply (X18_files_build_the_same_tree 2
           (map Insert demo_keys ++ [Delete 6; Delete 12]));
    [lia | reflexivity].
Defined.

Lemma subnodes_self n : In n (subnodes n).
Proof. destruct n. simpl. auto. Qed.

Lemma subnodes_child n c m :
  In c (children n) -> In m (subnodes c) -> In m (subnodes n).
Proof.
  destruct n as [ks t cs lf]. cbn [children subnodes]. intros Hc Hm.
  right. apply in_flat_map. eauto.
Qed.

Lemma key_at_true n idx key : key_at n idx key = Ret true -> In key (keys n).
Proof.
  unfold key_at. destruct (idx <? Py.len (keys n)); [|discriminate].
  destruct (Py.getitem (keys n) idx) as [k| |] eqn:E; try discriminate.
  cbn [bind]. intros H. injection H as H. apply Z.eqb_eq in H. subst k.
  eapply getitem_in. eassumption.
Qed.

(** X19.  search is sound on every node, well-formed or not: when it
    returns a node, that node lies in the subtree of the receiver and holds
    the key in its key list; and the receiver is as it was. *)
Theorem X19_search_returns_a_holder_of_the_key :
  forall fuel n key m n',
    search_fuel fuel n key = Ret (Some m, n') ->
    In m (subnodes n) /\ In key (keys m) /\ n' = n.
Proof.
  induction fuel as [|fuel IH]; intros n key m n' H; [discriminate|].
  pose proof (search_fuel_frame _ _ _ _ _ H) as ->.
  cbn [search_fuel] in H.
  destruct (Py.is_empty (keys n)); [discriminate|].
  destruct (key_at n (get_key_index n key) key) as [found| |] eqn:Ek;
    try discriminate.
  cbn [bind] in H. destruct found.
  - injection H as <-.
    split; [apply subnodes_self|]. split; [|reflexivity].
    eapply key_at_true. eassumption.
  - destruct (is_leaf n); [discriminate|].
    destruct (Py.getitem (children n) (get_key_index n key)) as [c| |] eqn:Ec;
      try discriminate.
    cbn [bind] in H.
    destruct (search_fuel fuel c key) as [[r c']| |] eqn:Es; try discriminate.
    cbn [bind] in H.
    destruct (Py.setitem (children n) (get_key_index n key) c') as [cs| |];
      try discriminate.
    cbn [bind] in H. injection H as -> _.
    destruct (IH _ _ _ _ Es) as (Hm & Hk & _).
    split; [|split; [assumption | reflexivity]].
    eapply subnodes_child; [|eassumption].
    eapply getitem_in. eassumption.
Qed.

Lemma X19_search_returns_a_holder_of_the_key_witness :
  In (Node [12; 13] 3 [] true) (subnodes ex_over_minimal) /\
  In 12 (keys (Node [12; 13] 3 [] true)) /\
  ex_over_minimal = ex_over_minimal.
Proof.
  apply (X19_search_returns_a_holder_of_the_key 2 ex_over_minimal 12
           (Node [12; 13] 3 [] true) ex_over_minimal).
  reflexivity.
Defined.


(** X21.  src/main.py keeps the invariant of the class as the package
    does: for every min_degree t >= 2 and every sequence of insert and
    delete calls, no call raises and after each call the key counts, the
    child counts, the order of the keys in each node and the equal depth of
    the leaves hold; the keys of each node are strictly increasing when no
    call inserts a key that is stored at that moment; and traverse gives
    the stored keys in ascending order. *)
Theorem X21_script_keeps_the_invariant :
  forall t ops n,
    2 <= t ->
    exists tr,
      script_run t (firstn n ops) = Ret tr /\
      invariant_weak tr = true /\
      (fresh_inserts ops = true -> invariant tr = true) /\
      Script.traverse tr = Ret (model (firstn n ops), tr).
Proof.
  intros t ops n Ht.
  destruct (script_run_ok t (firstn n ops) Ht) as (tr & E & Hok & _ & Ee).
  exists tr. split; [assumption|]. split; [apply invariant_weak_ok; assumption|].
  split.
  - intros Hfresh. unfold invariant.
    apply (invariant_gen_ok true Z.lt); auto using ascending_lt.
    rewrite Ee. apply model_strict; [constructor|].
    apply fresh_prefix. assumption.
  - rewrite (script_traverse_eq tr), pkg_traverse_ok, Ee by assumption.
    reflexivity.
Qed.

Lemma X21_script_keeps_the_invariant_witness :
  exists tr,
    script_run 2 (firstn 9 (map Insert demo_keys ++ [Delete 6])) = Ret tr /\
    invariant_weak tr = true /\
    (fresh_inserts (map Insert demo_keys ++ [Delete 6]) = true ->
     invariant tr = true) /\
    Script.traverse tr
    = Ret (model (firstn 9 (map Insert demo_keys ++ [Delete 6])), tr).
Proof.
  apply (X21_script_keeps_the_invariant 2
           (map Insert demo_keys ++ [Delete 6]) 9).
  lia.
Defined.

Lemma remove_one_ins k l : remove_one k (ins k l) = l.
Proof.
  induction l as [|x l IH]; simpl.
  - rewrite Z.eqb_refl. reflexivity.
  - destruct (Z.ltb_spec x k); simpl.
    + destruct (Z.eqb_spec x k); [lia|]. rewrite IH. reflexivity.
    + rewrite Z.eqb_refl. reflexivity.
Qed.

Lemma pkg_insert_height tr key :
  tree_ok tr ->
  exists tr',
    Pkg.insert tr key = Ret tr' /\
    height (root tr')
    = (if is_full (root tr) then S (height (root tr)) else height (root tr)).
Proof.
  destruct tr as [r t]. unfold tree_ok. cbn [root tree_min_degree].
  intros (Ht & Hsort & h & Hs). unfold Pkg.insert. cbn [root tree_min_degree].
  rewrite (is_full_shaped _ _ _ _ Hs), (shaped_height _ _ _ _ Hs).
  destruct (Z.eqb_spec (Py.len (keys r)) (2 * t - 1)) as [Hfull|Hfull].
  - destruct (root_split_spec t Ht h r Hs Hfull)
      as (m & cL & cR & E & _ & _ & _ & _ & Snr & Enr).
    rewrite E. cbn [bind root tree_min_degree].
    destruct (insert_non_full_ok t Ht (S h) 1 (Node [m] t [cL; cR] false) key)
      as (n' & E' & Sn' & En'); auto.
    { cbn [keys]. len_simpl. lia. }
    { rewrite Enr. assumption. }
    rewrite E'. cbn [bind]. eexists. split; [reflexivity|].
    cbn [root]. apply (shaped_height _ _ _ _ Sn').
  - cbn [bind root tree_min_degree].
    pose proof (shaped_count _ _ _ _ Hs).
    destruct (insert_non_full_ok t Ht h (root_lo h) r key)
      as (n' & E' & Sn' & En'); auto; [lia|].
    rewrite E'. cbn [bind]. eexists. split; [reflexivity|].
    cbn [root]. apply (shaped_height _ _ _ _ Sn').
Qed.

(** X22.  insert on a well-formed tree returns a well-formed tree whose
    in-order sequence is the old one with the key put before the first key
    that is not below it; the tree is one level higher when the root was
    full and as high as before when it was not. *)
Theorem X22_insert_grows_the_tree_at_a_full_root_only :
  forall tr key,
    tree_wf tr = true ->
    exists tr',
      Pkg.insert tr key = Ret tr' /\ tree_wf tr' = true /\
      elems (root tr') = ins key (elems (root tr)) /\
      height (root tr')
      = (if is_full (root tr) then S (height (root tr))
         else height (root tr)).
Proof.
  intros tr key Hok. apply tree_wf_iff in Hok.
  destruct (pkg_insert_ok tr key Hok) as (tr' & E & Hok' & _ & Ee).
  destruct (pkg_insert_height tr key Hok) as (tr'' & E' & Hh).
  rewrite E in E'. injection E' as <-.
  exists tr'. split; [exact E|]. split; [apply tree_wf_iff; assumption|].
  split; assumption.
Qed.

Lemma X22_insert_grows_the_tree_at_a_full_root_only_witness :
  exists tr',
    Pkg.insert (Tree ex_full_child 3) 0 = Ret tr' /\ tree_wf tr' = true /\
    elems (root tr') = ins 0 (elems (root (Tree ex_full_child 3))) /\
    height (root tr')
    = (if is_full (root (Tree ex_full_child 3))
       then S (height (root (Tree ex_full_child 3)))
       else height (root (Tree ex_full_child 3))).
Proof.
  apply (X22_insert_grows_the_tree_at_a_full_root_only
           (Tree ex_full_child 3) 0).
  reflexivity.
Defined.

(** X23.  delete on a well-formed tree, in both files: the call returns a
    well-formed tree; the tree is as high as before, or one level lower,
    and it is lower exactly when the deleting method leaves an internal
    root without a key; the new root is then the only child. *)
Theorem X23_delete_shrinks_the_tree_at_a_keyless_root_only :
  forall tr key,
    tree_wf tr = true ->
    (exists n' tr',
        Pkg.node_delete (root tr) key = Ret n' /\
        Pkg.delete tr key = Ret tr' /\ tree_wf tr' = true /\
        if (Py.len (keys n') =? 0) && negb (is_leaf n')
        then S (height (root tr')) = height (root tr) /\
             children n' = [root tr']
        else height (root tr') = height (root tr) /\ root tr' = n') /\
    (exists n' tr',
        Script.node_delete (root tr) key = Ret n' /\
        Script.delete tr key = Ret tr' /\ tree_wf tr' = true /\
        if (Py.len (keys n') =? 0) && negb (is_leaf n')
        then S (height (root tr')) = height (root tr) /\
             children n' = [root tr']
        else height (root tr') = height (root tr) /\ root tr' = n').
Proof.
  intros [r t] key Hok. apply tree_wf_iff in Hok.
  pose proof Hok as Hok0.
  destruct Hok as (Ht & Hsort & h & Hs). cbn [root tree_min_degree] in *.
  assert (Hshape : forall n',
             shaped t h (root_lo h - 1) n' ->
             forall tr',
               (if (Py.len (keys n') =? 0) && negb (is_leaf n')
                then c <- Py.getitem (children n') 0 ;; Ret (Tree c t)
                else Ret (Tree n' t)) = Ret tr' ->
               if (Py.len (keys n') =? 0) && negb (is_leaf n')
               then S (height (root tr')) = height r /\
                    children n' = [root tr']
               else height (root tr') = height r /\ root tr' = n').
  { intros n' Sn' tr' H.
    rewrite (shaped_height _ _ _ _ Hs), <- (shaped_height _ _ _ _ Sn').
    destruct ((Py.len (keys n') =? 0) && negb (is_leaf n')) eqn:Hc.
    - apply andb_true_iff in Hc. destruct Hc as [Hz Hl].
      apply Z.eqb_eq in Hz.
      destruct n' as [ks' t' cs' lf']. cbn [keys children is_leaf] in *.
      destruct h as [|h]; simpl in Sn'.
      + destruct Sn' as (_ & _ & -> & _). discriminate.
      + destruct Sn' as (_ & _ & _ & Hcount & Hall).
        destruct cs' as [|c cs']; [len_simpl; lia|].
        assert (cs' = []) by (apply len_zero_nil; len_simpl; lia). subst cs'.
        rewrite getitem_head in H. cbn [bind] in H. injection H as <-.
        cbn [root]. split; [|reflexivity].
        cbn [height fold_right]. lia.
    - injection H as <-. auto. }
  split.
  - destruct (pkg_node_delete_ok t Ht h r key Hs Hsort) as (n' & E & Sn' & _).
    destruct (pkg_delete_ok (Tree r t) key Hok0) as (tr' & Ed & Hok' & _).
    exists n', tr'. split; [exact E|]. split; [exact Ed|].
    split; [apply tree_wf_iff; assumption|].
    apply Hshape; [assumption|].
    unfold Pkg.delete in Ed. cbn [root tree_min_degree] in Ed.
    rewrite E in Ed. exact Ed.
  - destruct (script_node_delete_ok t Ht h r key Hs Hsort) as (n' & E & Sn' & _).
    destruct (script_delete_ok (Tree r t) key Hok0) as (tr' & Ed & Hok' & _).
    exists n', tr'. split; [exact E|]. split; [exact Ed|].
    split; [apply tree_wf_iff; assumption|].
    apply Hshape; [assumption|].
    unfold Script.delete in Ed. cbn [root tree_min_degree] in Ed.
    rewrite E in Ed. exact Ed.
Qed.

Lemma X23_delete_shrinks_the_tree_at_a_keyless_root_only_witness :
  (exists n' tr',
      Pkg.node_delete (root (Tree ex_two_minimal 3)) 12 = Ret n' /\
      Pkg.delete (Tree ex_two_minimal 3) 12 = Ret tr' /\ tree_wf tr' = true /\
      if (Py.len (keys n') =? 0) && negb (is_leaf n')
      then S (height (root tr')) = height (root (Tree ex_two_minimal 3)) /\
           children n' = [root tr']
      else height (root tr') = height (root (Tree ex_two_minimal 3)) /\
           root tr' = n') /\
  (exists n' tr',
      Script.node_delete (root (Tree ex_two_minimal 3)) 12 = Ret n' /\
      Script.delete (Tree ex_two_minimal 3) 12 = Ret tr' /\
      tree_wf tr' = true /\
      if (Py.len (keys n') =? 0) && negb (is_leaf n')
      then S (height (root tr')) = height (root (Tree ex_two_minimal 3)) /\
           children n' = [root tr']
      else height (root tr') = height (root (Tree ex_two_minimal 3)) /\
           root tr' = n').
Proof.
  apply (X23_delete_shrinks_the_tree_at_a_keyless_root_only
           (Tree ex_two_minimal 3) 12).
  reflexivity.
Defined.

(** X24.  insert of a key followed by delete of the same key, on a
    well-formed tree: both calls return, and traverse then gives the key
    sequence that it gave before the two calls, whether or not the key was
    stored before. *)
Theorem X24_delete_undoes_insert_for_traverse :
  forall tr key,
    tree_wf tr = true ->
    exists out tr1 tr2,
      Pkg.traverse tr = Ret (out, tr) /\
      Pkg.insert tr key = Ret tr1 /\ Pkg.delete tr1 key = Ret tr2 /\
      Pkg.traverse tr2 = Ret (out, tr2) /\ tree_wf tr2 = true.
Proof.
  intros tr key Hok. apply tree_wf_iff in Hok.
  destruct (pkg_insert_ok tr key Hok) as (tr1 & E1 & Hok1 & _ & Ee1).
  destruct (pkg_delete_ok tr1 key Hok1) as (tr2 & E2 & Hok2 & _ & Ee2 & _).
  exists (elems (root tr)), tr1, tr2.
  split; [apply pkg_traverse_ok; assumption|].
  split; [exact E1|]. split; [exact E2|].
  split; [|apply tree_wf_iff; assumption].
  rewrite pkg_traverse_ok by assumption.
  rewrite Ee2, Ee1, remove_one_ins. reflexivity.
Qed.

Lemma X24_delete_undoes_insert_for_traverse_witness :
  exists out tr1 tr2,
    Pkg.traverse (Tree ex_over_full 3) = Ret (out, Tree ex_over_full 3) /\
    Pkg.insert (Tree ex_over_full 3) 3 = Ret tr1 /\
    Pkg.delete tr1 3 = Ret tr2 /\
    Pkg.traverse tr2 = Ret (out, tr2) /\ tree_wf tr2 = true.
Proof.
  apply (X24_delete_undoes_insert_for_traverse (Tree ex_over_full 3) 3).
  reflexivity.
Defined.

(** X25.  insert_non_full on a well-formed subtree whose top node is not
    full: the call returns; the subtree keeps its height and its bounds,
    no node ends with more than 2t-1 keys, and the in-order sequence is the
    old one with the key put before the first key that is not below it. *)
Theorem X25_insert_non_full_keeps_the_subtree_well_formed :
  forall t h lo n key,
    2 <= t -> subtree_ok t h lo n = true -> is_full n = false ->
    exists n',
      insert_non_full n key = Ret n' /\
      subtree_ok t h lo n' = true /\
      elems n' = ins key (elems n) /\ height n' = height n.
Proof.
  intros t h lo n key Ht Hok Hroom.
  apply subtree_ok_iff in Hok. destruct Hok as [Hs Hsort].
  rewrite (is_full_shaped _ _ _ _ Hs) in Hroom. apply Z.eqb_neq in Hroom.
  pose proof (shaped_count _ _ _ _ Hs) as B.
  assert (Hlt : Py.len (keys n) < 2 * t - 1) by lia.
  destruct (insert_non_full_ok t Ht h lo n key Hs Hlt Hsort)
    as (n' & E & Sn' & En').
  exists n'. split; [exact E|]. split; [|split; [exact En'|]].
  - apply subtree_ok_iff. split; [assumption|].
    rewrite En'. apply ins_sorted. assumption.
  - rewrite (shaped_height _ _ _ _ Hs), (shaped_height _ _ _ _ Sn').
    reflexivity.
Qed.

Lemma X25_insert_non_full_keeps_the_subtree_well_formed_witness :
  exists n',
    insert_non_full ex_over_full 3 = Ret n' /\
    subtree_ok 3 1 1 n' = true /\
    elems n' = ins 3 (elems ex_over_full) /\ height n' = height ex_over_full.
Proof.
  apply (X25_insert_non_full_keeps_the_subtree_well_formed 3 1 1
           ex_over_full 3); [lia | reflexivity | reflexivity].
Defined.

(** ** Number of keys and height *)

Lemma inter_least cs :
  forall ks m,
    Forall (fun c => m <= Py.len c) cs -> length cs = S (length ks) ->
    (Py.len ks + 1) * m + Py.len ks <= Py.len (inter cs ks).
Proof.
  induction cs as [|c cs IH]; intros ks m Hall E; [discriminate|].
  inversion Hall as [|? ? Hc Hcs]; subst.
  destruct ks as [|k ks]; cbn [inter].
  - destruct cs; [|discriminate]. rewrite app_nil_r.
    change (Py.len (@nil Z)) with 0. lia.
  - simpl in E. specialize (IH ks m Hcs ltac:(lia)).
    rewrite len_app, !len_cons. lia.
Qed.

Lemma pow_pos_nat t h : 2 <= t -> 1 <= t ^ Z.of_nat h.
Proof. intros Ht. pose proof (Z.pow_pos_nonneg t (Z.of_nat h)). lia. Qed.

Lemma shaped_least t (Ht : 2 <= t) h :
  forall lo n,
    0 <= lo -> shaped t h lo n -> least_count t h lo <= Py.len (elems n).
Proof.
  unfold least_count.
  induction h as [|h IH]; intros lo [ks t' cs lf] Hlo Hs; simpl in Hs.
  - destruct Hs as (_ & B & -> & _). cbn [elems].
    change (t ^ Z.of_nat 0) with 1. lia.
  - destruct Hs as (_ & B & -> & Hc & Hall). cbn [elems].
    set (m := t * t ^ Z.of_nat h - 1).
    assert (Hm : Forall (fun c => m <= Py.len c) (map elems cs)).
    { apply Forall_map. eapply Forall_impl; [|exact Hall].
      intros c Sc. specialize (IH (t - 1) c ltac:(lia) Sc).
      replace (t - 1 + 1) with t in IH by lia. exact IH. }
    pose proof (inter_least (map elems cs) ks m Hm) as Hi.
    rewrite length_map in Hi. unfold Py.len in Hc.
    specialize (Hi ltac:(lia)).
    rewrite Nat2Z.inj_succ, Z.pow_succ_r by lia.
    pose proof (pow_pos_nat t h Ht).
    assert (0 <= m) by (subst m; nia).
    fold m in Hi |- *. replace (t * t ^ Z.of_nat h) with (m + 1) by (subst m; lia).
    nia.
Qed.

(** X26.  The height of a tree built by calls is bounded by the number of
    stored keys: a tree of the package with h levels below the root, h >= 1,
    holds at least 2 * t^h - 1 keys, which are the keys that traverse
    gives. *)
Theorem X26_height_is_logarithmic_in_the_key_count :
  forall t ops,
    2 <= t ->
    exists tr out,
      pkg_run t ops = Ret tr /\ Pkg.traverse tr = Ret (out, tr) /\
      forall h, height (root tr) = S (S h) ->
                2 * t ^ Z.of_nat (S h) - 1 <= Py.len out.
Proof.
  intros t ops Ht.
  destruct (pkg_run_ok t ops Ht) as (tr & E & Hok & Et & Ee).
  exists tr, (elems (root tr)). split; [exact E|].
  split; [apply pkg_traverse_ok; assumption|].
  intros h Hh. destruct Hok as (_ & _ & h' & Hs). rewrite Et in Hs.
  rewrite (shaped_height _ _ _ _ Hs) in Hh. injection Hh as ->.
  apply (shaped_least t Ht (S h) 1 (root tr)); [lia | exact Hs].
Qed.

Lemma X26_height_is_logarithmic_in_the_key_count_witness :
  exists tr out,
    pkg_run 2 (map Insert demo_keys) = Ret tr /\
    Pkg.traverse tr = Ret (out, tr) /\
    forall h, height (root tr) = S (S h) ->
              2 * 2 ^ Z.of_nat (S h) - 1 <= Py.len out.
Proof.
  apply (X26_height_is_logarithmic_in_the_key_count 2 (map Insert demo_keys)).
  lia.
Defined.

(** ** The order of the keys across nodes *)

Lemma separated_at_sorted ks :
  forall cs,
    StronglySorted Z.le (inter (map elems cs) ks) -> separated_at ks cs = true.
Proof.
  induction ks as [|k ks IH]; intros [|c cs] H; try reflexivity.
  cbn [separated_at]. cbn [map inter] in H.
  pose proof (sorted_bounds_l _ _ _ H) as Hl.
  pose proof (sorted_app_r _ _ H) as Hr.
  pose proof (sorted_bounds_r _ _ Hr) as Hb.
  apply sorted_cons_inv in Hr.
  rewrite (IH cs Hr), andb_true_r. apply andb_true_iff. split.
  - apply forallb_forall. intros v Hv. rewrite Forall_forall in Hl.
    apply Z.leb_le. auto.
  - destruct cs as [|c' cs]; [reflexivity|]. cbn [map inter] in Hb.
    apply Forall_app in Hb. destruct Hb as [Hb _].
    apply forallb_forall. intros v Hv. rewrite Forall_forall in Hb.
    apply Z.leb_le. auto.
Qed.

Lemma children_sorted cs :
  forall ks,
    (length cs <= S (length ks))%nat ->
    StronglySorted Z.le (inter (map elems cs) ks) ->
    Forall (fun c => StronglySorted Z.le (elems c)) cs.
Proof.
  induction cs as [|c cs IH]; intros ks L H; [constructor|].
  cbn [map inter] in H. constructor; [eapply sorted_app_l; eassumption|].
  destruct ks as [|k ks].
  - destruct cs; [constructor | simpl in L; lia].
  - apply (IH ks); [simpl in L; lia|].
    eapply sorted_cons_inv, sorted_app_r. eassumption.
Qed.

Lemma sorted_separated t h :
  forall lo n,
    shaped t h lo n -> StronglySorted Z.le (elems n) -> separated n = true.
Proof.
  induction h as [|h IH]; intros lo [ks t' cs lf] Hs Hsort; simpl in Hs.
  - destruct Hs as (_ & _ & -> & ->). reflexivity.
  - destruct Hs as (_ & _ & -> & Hc & Hall). cbn [elems] in Hsort.
    cbn [separated orb]. apply andb_true_iff. split.
    + apply separated_at_sorted. assumption.
    + apply forallb_forall. intros c Hin.
      pose proof (children_sorted cs ks
                    ltac:(unfold Py.len in Hc; lia) Hsort) as Hcs.
      rewrite Forall_forall in Hall, Hcs. eapply IH; eauto.
Qed.

(** X27.  The order of a search tree holds in every tree built by calls,
    in both files: in every internal node, key i is not below any key
    stored under child i and not above any key stored under child i+1. *)
Theorem X27_keys_separate_the_children :
  forall t ops,
    2 <= t ->
    exists tr1 tr2,
      pkg_run t ops = Ret tr1 /\ script_run t ops = Ret tr2 /\
      separated (root tr1) = true /\ separated (root tr2) = true.
Proof.
  intros t ops Ht.
  destruct (pkg_run_ok t ops Ht) as (tr1 & E1 & (_ & Hs1 & h1 & S1) & _).
  destruct (script_run_ok t ops Ht) as (tr2 & E2 & (_ & Hs2 & h2 & S2) & _).
  exists tr1, tr2. split; [exact E1|]. split; [exact E2|].
  split; eapply sorted_separated; eassumption.
Qed.

Lemma X27_keys_separate_the_children_witness :
  exists tr1 tr2,
    pkg_run 2 (map Insert demo_keys ++ [Delete 6]) = Ret tr1 /\
    script_run 2 (map Insert demo_keys ++ [Delete 6]) = Ret tr2 /\
    separated (root tr1) = true /\ separated (root tr2) = true.
Proof.
  apply (X27_keys_separate_the_children 2 (map Insert demo_keys ++ [Delete 6])).
  lia.
Defined.

(** ** Calls outside the conditions of the callers *)

Lemma getitem_cases {A} (l : list A) i :
  (exists x, Py.getitem l i = Ret x) \/ Py.getitem l i = Raise IndexError.
Proof.
  unfold Py.getitem. destruct (Py.in_range l (Py.norm l i)); [|auto].
  destruct (nth_error l (Z.to_nat (Py.norm l i))); eauto.
Qed.


Lemma pop_nil {A} i : Py.pop (@nil A) i = Raise IndexError.
Proof.
  unfold Py.pop, Py.in_range, Py.norm. change (Py.len (@nil A)) with 0.
  destruct (i <? 0) eqn:E.
  - apply Z.ltb_lt in E. destruct (Z.leb_spec 0 (i + 0)); [lia|]. reflexivity.
  - apply Z.ltb_ge in E. destruct (Z.ltb_spec i 0); [lia|].
    rewrite andb_false_r. reflexivity.
Qed.

Ltac getitem_case l i :=
  let x := fresh "x" in
  let E := fresh "E" in
  destruct (getitem_cases l i) as [[x E]|E]; rewrite E; cbn [bind];
  [|reflexivity].



(** X29.  fill on a node without keys raises IndexError at every index,
    whatever the children are: each of its three ways reads or pops a key
    of the node.  The deleting methods call it on nodes with a key. *)
Theorem X29_fill_needs_a_key_in_the_node :
  forall p idx, keys p = [] -> fill p idx = Raise IndexError.
Proof.
  intros p idx Hk. unfold fill, can_lend. rewrite Hk.
  change (Py.len (@nil Z)) with 0.
  assert (Hprev : borrow_from_prev p idx = Raise IndexError).
  { unfold borrow_from_prev. rewrite Hk.
    getitem_case (children p) idx. getitem_case (children p) (idx - 1).
    rewrite getitem_nil. reflexivity. }
  assert (Hnext : borrow_from_next p idx = Raise IndexError).
  { unfold borrow_from_next. rewrite Hk.
    getitem_case (children p) idx. getitem_case (children p) (idx + 1).
    rewrite getitem_nil. reflexivity. }
  assert (Hmerge : forall j, merge p j = Raise IndexError).
  { intros j. unfold merge. rewrite Hk.
    getitem_case (children p) j. getitem_case (children p) (j + 1).
    rewrite pop_nil. reflexivity. }
  destruct (idx =? 0); cbn [negb bind].
  - apply Hmerge.
  - getitem_case (children p) (idx - 1).
    destruct (min_degree p <=? Py.len (keys x)); [assumption|].
    getitem_case (children p) (idx + 1).
    destruct (min_degree p <=? Py.len (keys x0)); [assumption | apply Hmerge].
Qed.

Lemma X29_fill_needs_a_key_in_the_node_witness :
  fill (Node [] 3 [ex_full_child] false) 0 = Raise IndexError.
Proof.
  apply (X29_fill_needs_a_key_in_the_node (Node [] 3 [ex_full_child] false) 0).
  reflexivity.
Defined.

(** X30.  remove_from_non_leaf of the package on a well-formed internal
    node with at least one key, at the index i of one of its keys: the call
    returns, by the predecessor, the successor or a merge; one occurrence
    of that key is gone from the in-order sequence and nothing else changes
    in it; every node stays within its bounds, the node itself with at most
    one key less. *)
Theorem X30_remove_from_non_leaf_removes_the_key :
  forall t h lo p i key,
    2 <= t -> subtree_ok t (S h) lo p = true -> 1 <= lo -> 0 <= i ->
    Py.getitem (keys p) i = Ret key ->
    exists p',
      remove_from_non_leaf (Pkg._delete_internal (S h)) p i = Ret p' /\
      subtree_ok t (S h) (lo - 1) p' = true /\
      elems p' = remove_one key (elems p).
Proof.
  intros t h lo p i key Ht Hok Hlo Hi Hk.
  apply subtree_ok_iff in Hok. destruct Hok as [Hs Hsort].
  destruct p as [ks t' cs lf]. pose proof Hs as Hs0. simpl in Hs.
  destruct Hs as (-> & B & -> & Hc & Hall). cbn [keys] in Hk.
  destruct (getitem_inv _ _ _ Hi Hk) as (ks1 & ks2 & -> & L).
  destruct (split_at cs i) as (cs1 & c & cs2 & -> & L');
    [len_simpl; pose proof (len_nonneg ks2); lia|].
  subst i.
  destruct (remove_from_non_leaf_spec t Ht true h
              (Pkg._delete_internal (S h))
              (pkg_delete_internal_spec t Ht h (S h) ltac:(lia))
              lo ks1 key ks2 cs1 c cs2 Hs0 Hlo L' Hsort)
    as (p' & E & Sp' & Ee).
  exists p'. split; [exact E|]. split; [|exact Ee].
  apply subtree_ok_iff. split; [assumption|].
  rewrite Ee. apply remove_one_sorted. assumption.
Qed.

Lemma X30_remove_from_non_leaf_removes_the_key_witness :
  exists p',
    remove_from_non_leaf (Pkg._delete_internal 1) ex_over_minimal 0 = Ret p' /\
    subtree_ok 3 1 (2 - 1) p' = true /\
    elems p' = remove_one 10 (elems ex_over_minimal).
Proof.
  apply (X30_remove_from_non_leaf_removes_the_key 3 0 2 ex_over_minimal 0 10);
    [lia | reflexivity | lia | lia | reflexivity].
Defined.
